(** * sv4git monorepo support: baseline resolution and document-path navigation

    A shallow embedding of [sv/monorepo.go] (path parsing, get/set on the
    decoded document tree, version file reading and writing, component
    discovery) and of the monorepo handlers of [cmd/git-sv/handlers.go]
    (baseline resolution, the bump, tag and next-version flows).

    Conventions of the embedding.
    - A Go [string] is a byte string: Rocq's [string] (a list of 8-bit
      [ascii]); [path[i]] is a byte, as in the source.
    - A decoded document ([map[string]interface{}]) is a [gmap string Value];
      the dynamic type of an [interface{}] value is the constructor of
      [Value].  The trees produced by the JSON and YAML decoders share no
      sub-map, so the in-place assignment [data[k] = v] on a nested map is the
      functional update of the tree along the path that reached it.
    - A Go function returning [(T, error)] whose every [return] is either
      [(zero, err)] or [(value, nil)] returns a [result T]; where the source
      returns both components independently the embedding returns the tuple
      with an [option error].
    - An [error] built with [fmt.Errorf] is a constructor of [error] carrying
      the arguments of the format string. *)

From Stdlib Require Import String Ascii List NArith DecimalString.
From stdpp Require Import base option strings gmap list.

Set Default Proof Using "Type".
Set Warnings "-register-all".
Open Scope string_scope.
Open Scope list_scope.
Arguments String.append !s1 s2 : simpl nomatch.

(** ** Errors *)

Inductive error : Type :=
| ErrEmptyPath                                   (* "empty path" *)
| ErrUnexpectedEnd                               (* "unexpected end of path after '['" *)
| ErrExpectedQuote (got : ascii)                 (* "expected quote character after '[', got %q" *)
| ErrUnclosedString                              (* "unclosed string in bracket notation" *)
| ErrExpectedClose                               (* "expected ']' to close bracket notation" *)
| ErrNoSegments (path : string)                  (* "path %q contains no segments" *)
| ErrKeyNotFound (key : string)                  (* "key %q not found" *)
| ErrNotAMap (key : string)                      (* "value at %q is not a map" *)
| ErrInvalidPath (dotPath : string) (e : error)  (* "invalid path %q: %v" *)
| ErrAtPath (dotPath : string) (e : error)       (* "path %q: %v" *)
| ErrNotAString (dotPath : string)               (* "path %q: value is not a string" *)
| ErrInvalidSemver (dotPath vstr : string) (e : error)
                                                 (* "path %q: invalid semver %q: %v" *)
| ErrParseJSON (e : error)                       (* "parse JSON: %v" *)
| ErrParseYAML (e : error)                       (* "parse YAML: %v" *)
| ErrMarshalJSON (e : error)                     (* "marshal JSON: %v" *)
| ErrMarshalYAML (e : error)                     (* "marshal YAML: %v" *)
| ErrNotConfigured                               (* "monorepo.versioning-file is not configured" *)
| ErrInvalidGlob (pattern : string) (e : error)  (* "invalid versioning-file glob %q: %v" *)
| ErrNoFilesMatched (pattern : string)           (* "no files matched versioning-file pattern %q" *)
| ErrReadingVersion (matchPath : string) (e : error)
                                                 (* "reading version from %s: %v" *)
| ErrFindingComponents (e : error)               (* "error finding monorepo components: %v" *)
| ErrGettingCommits (name : string) (e : error)  (* "error getting commits for %s: %v" *)
| ErrUpdatingVersion (name : string) (e : error) (* "error updating version for %s: %v" *)
| ErrResolvingPath (name : string) (e : error)   (* "error resolving path for %s: %v" *)
| ErrCreatingTag (name : string) (e : error)     (* "error creating tag for %s: %v" *)
| ErrExternal (msg : string).                    (* an error value made by a collaborator:
                                                    os, path/filepath, the codecs, semver, git *)

Inductive result (A : Type) : Type :=
| Ok (a : A)
| Err (e : error).
Arguments Ok {A} a.
Arguments Err {A} e.

(** ** The document tree *)

(** The dynamic values a decoder stores in an [interface{}].  Only [VString]
    (Go [string]) and [VMap] (Go [map[string]interface{}]) are inspected by
    the navigator; every other dynamic type fails both type assertions. *)
Inductive Value : Type :=
| VString (s : string)
| VNumber (n : Z)
| VBool (b : bool)
| VNull
| VList (l : list Value)
| VMap (m : gmap string Value).

(** ** Path parsing *)

Module PathExpr.

Definition dot : ascii := "."%char.
Definition lbracket : ascii := "["%char.
Definition rbracket : ascii := "]"%char.
Definition dquote : ascii := Ascii.ascii_of_nat 34.
Definition squote : ascii := "'"%char.

(** [strings.Builder.WriteByte]. *)
Definition WriteByte (current : string) (c : ascii) : string :=
  String.append current (String c EmptyString).

(** [if current.Len() > 0 { segments = append(segments, current.String()) }];
    the caller resets the builder. *)
Definition flush (segments : list string) (current : string) : list string :=
  match current with
  | EmptyString => segments
  | _ => segments ++ [current]
  end.

(** The end of [parsePath]: a path without segments is refused, with the
    path in the message. *)
Definition finish (path : string) (segments : list string) : result (list string) :=
  match segments with
  | [] => Err (ErrNoSegments path)
  | _ => Ok segments
  end.

(** The main loop of [parsePath], [for i < len(path)], on the suffix
    [path[i:]].  The inner [fix] is the scan of a quoted literal
    ([for i < len(path) && path[i] != quote]); it resumes the main loop after
    the closing bracket. *)
Fixpoint parseLoop (path : string) (s : string) (current : string)
  (segments : list string) {struct s} : result (list string) :=
  match s with
  | EmptyString => finish path (flush segments current)
  | String c rest =>
      if Ascii.eqb c dot then
        parseLoop path rest EmptyString (flush segments current)
      else if Ascii.eqb c lbracket then
        let segments := flush segments current in
        match rest with
        | EmptyString => Err ErrUnexpectedEnd
        | String quote rest1 =>
            if negb (Ascii.eqb quote dquote) && negb (Ascii.eqb quote squote)
            then Err (ErrExpectedQuote quote)
            else
              (fix scan (t : string) (current : string) {struct t}
                 : result (list string) :=
                 match t with
                 | EmptyString => Err ErrUnclosedString
                 | String d t1 =>
                     if Ascii.eqb d quote then
                       match t1 with
                       | String b t2 =>
                           if Ascii.eqb b rbracket then
                             let segments := segments ++ [current] in
                             match t2 with
                             | String e t3 =>
                                 if Ascii.eqb e dot
                                 then parseLoop path t3 EmptyString segments
                                 else parseLoop path t2 EmptyString segments
                             | EmptyString => parseLoop path t2 EmptyString segments
                             end
                           else Err ErrExpectedClose
                       | EmptyString => Err ErrExpectedClose
                       end
                     else scan t1 (WriteByte current d)
                 end) rest1 EmptyString
        end
      else parseLoop path rest (WriteByte current c) segments
  end.

(** [parsePath]: the empty path is refused, one leading dot is stripped
    ([i = 1]), and the loop runs on the rest. *)
Definition parsePath (path : string) : result (list string) :=
  match path with
  | EmptyString => Err ErrEmptyPath
  | String c rest =>
      if Ascii.eqb c dot
      then parseLoop path rest EmptyString []
      else parseLoop path path EmptyString []
  end.

End PathExpr.

(** ** Navigation *)

(** [getByPath]: every segment is an exact key. *)
Fixpoint getByPath (data : gmap string Value) (segments : list string)
  : result Value :=
  match segments with
  | [] => Err ErrEmptyPath
  | s0 :: rest =>
      match data !! s0 with
      | None => Err (ErrKeyNotFound s0)
      | Some val =>
          match rest with
          | [] => Ok val
          | _ :: _ =>
              match val with
              | VMap nested => getByPath nested rest
              | _ => Err (ErrNotAMap s0)
              end
          end
      end
  end.

(** [setByPath]: the returned map is the state of [data] when the call
    returns; the only assignment of the source is [data[segments[0]] = value]
    on the map reached by the walk. *)
Fixpoint setByPath (data : gmap string Value) (segments : list string)
  (value : string) : gmap string Value * option error :=
  match segments with
  | [] => (data, Some ErrEmptyPath)
  | s0 :: rest =>
      match rest with
      | [] =>
          match data !! s0 with
          | None => (data, Some (ErrKeyNotFound s0))
          | Some _ => (<[s0 := VString value]> data, None)
          end
      | _ :: _ =>
          match data !! s0 with
          | None => (data, Some (ErrKeyNotFound s0))
          | Some (VMap nested) =>
              let '(nested', err) := setByPath nested rest value in
              (<[s0 := VMap nested']> data, err)
          | Some _ => (data, Some (ErrNotAMap s0))
          end
      end
  end.

(** ** Versions, history entries, components *)

(** Modelled from the spec: the semantic version value of the third-party
    semver package (spec section 3): major, minor, patch, optional
    pre-release, optional build metadata, and the literal the value was made
    from.  An absent pre-release or metadata is the empty string. *)
Record Version : Type := mkVersion {
  Major : N;
  Minor : N;
  Patch : N;
  Prerelease : string;
  Metadata : string;
  Original : string;
}.

(** Modelled from the spec: equality of versions is equality in the order on
    major, minor, patch and pre-release; the build metadata takes no part in
    the order and the original literal is ignored (spec section 3). *)
Definition versionEqb (a b : Version) : bool :=
  N.eqb (Major a) (Major b) && N.eqb (Minor a) (Minor b)
  && N.eqb (Patch a) (Patch b) && String.eqb (Prerelease a) (Prerelease b).

(** [Version.Equal], a method on pointers: a pointer to a version is an
    [option Version].  Two nil pointers are the same pointer; a nil pointer
    equals no version. *)
Definition Equal (v o : option Version) : bool :=
  match v, o with
  | Some a, Some b => versionEqb a b
  | None, None => true
  | _, _ => false
  end.
Arguments Equal : simpl never.

(** Modelled from the spec: a history entry (spec section 3), the
    [sv.GitCommitLog] of the source. *)
Record GitCommitLog : Type := mkCommit {
  Hash : string;
  AuthorName : string;
  Date : string;
  Subject : string;
  Body : string;
  CommitType : string;
  Scope : string;
  IsBreakingChange : bool;
}.

Inductive LogRangeType : Type := TagRange | DateRange | HashRange.

(** [sv.LogRange] and its constructor [sv.NewLogRangeWithPaths]. *)
Record LogRange : Type := mkLogRange {
  rangeType : LogRangeType;
  rangeStart : string;
  rangeEnd : string;
  paths : list string;
}.

Definition NewLogRangeWithPaths (t : LogRangeType) (start end_ : string)
  (paths : list string) : LogRange :=
  {| rangeType := t; rangeStart := start; rangeEnd := end_; paths := paths |}.

(** The two ranges the baseline asks for: from a tag to the working tree
    and from a commit to the working tree, both filtered to the component's
    directory.  An empty start leaves the range unbounded. *)
Definition tagRange (lastTag relDir : string) : LogRange :=
  NewLogRangeWithPaths TagRange lastTag "" [relDir].

Definition hashRange (fileCommit relDir : string) : LogRange :=
  NewLogRangeWithPaths HashRange fileCommit "" [relDir].

Record MonorepoConfig : Type := mkMonorepoConfig {
  VersioningFile : string;
  Path : string;
}.

Record MonorepoComponent : Type := mkComponent {
  Name : string;
  RootPath : string;
  VersioningFilePath : string;
  CurrentVersion : option Version;
}.

(** ** The platform: standard library and third-party functions *)

(** What the source calls and the repository does not define: [path/filepath],
    [strings.ToLower], the JSON and YAML codecs, and [sv.ToVersion] (a
    wrapper of the semver parser, which returns a nil version with its
    error). *)
Class Platform : Type := {
  filepath_Rel : string -> string -> result string;
  filepath_Join : string -> string -> string;
  filepath_Dir : string -> string;
  filepath_Base : string -> string;
  filepath_Ext : string -> string;
  filepath_Glob : gset string -> string -> list string * option error;
  strings_ToLower : string -> string;
  json_Unmarshal : string -> result (gmap string Value);
  json_MarshalIndent : gmap string Value -> result string;
  yaml_Unmarshal : string -> result (gmap string Value);
  yaml_Marshal : gmap string Value -> result string;
  ToVersion : string -> result Version;
}.

(** ** The working tree *)

(** The files of the working tree: their content, and the paths that cannot
    be written.  [filepath.Glob] sees the names of the files only. *)
Record FileSystem : Type := mkFS {
  files : gmap string string;
  readonly : gset string;
}.

Definition os_ReadFile (fs : FileSystem) (name : string) : result string :=
  match files fs !! name with
  | Some content => Ok content
  | None => Err (ErrExternal "open: no such file or directory")
  end.

(** [os.WriteFile]: the success path, and the one failure in which the
    file is refused before anything is written (it cannot be opened).  A
    write that fails after the file has been truncated is not part of this
    model, and no statement below speaks of the content of a file after a
    failed write of it. *)
Definition os_WriteFile (fs : FileSystem) (name : string) (data : string)
  : FileSystem * option error :=
  if decide (name ∈ readonly fs)
  then (fs, Some (ErrExternal "open: permission denied"))
  else ({| files := <[name := data]> (files fs); readonly := readonly fs |}, None).

(** ** File helpers of [sv/monorepo.go] *)

Section FileHelpers.
Context {P : Platform}.

Definition isJSON (filePath : string) : bool :=
  String.eqb (strings_ToLower (filepath_Ext filePath)) ".json".

Definition parseFileContent (filePath : string) (content : string)
  : result (gmap string Value) :=
  if isJSON filePath then
    match json_Unmarshal content with
    | Err e => Err (ErrParseJSON e)
    | Ok data => Ok data
    end
  else
    match yaml_Unmarshal content with
    | Err e => Err (ErrParseYAML e)
    | Ok data => Ok data
    end.

Definition marshalToFile (fs : FileSystem) (filePath : string)
  (data : gmap string Value) : FileSystem * option error :=
  if isJSON filePath then
    match json_MarshalIndent data with
    | Err e => (fs, Some (ErrMarshalJSON e))
    | Ok out => os_WriteFile fs filePath (String.append out (String (Ascii.ascii_of_nat 10) EmptyString))
    end
  else
    match yaml_Marshal data with
    | Err e => (fs, Some (ErrMarshalYAML e))
    | Ok out => os_WriteFile fs filePath out
    end.

Definition ReadVersionFromBytes (filePath : string) (content : string)
  (dotPath : string) : result Version :=
  match parseFileContent filePath content with
  | Err e => Err e
  | Ok data =>
      match PathExpr.parsePath dotPath with
      | Err e => Err (ErrInvalidPath dotPath e)
      | Ok segments =>
          match getByPath data segments with
          | Err e => Err (ErrAtPath dotPath e)
          | Ok raw =>
              match raw with
              | VString vstr =>
                  match ToVersion vstr with
                  | Err e => Err (ErrInvalidSemver dotPath vstr e)
                  | Ok v => Ok v
                  end
              | _ => Err (ErrNotAString dotPath)
              end
          end
      end
  end.

Definition readVersionFromFile (fs : FileSystem) (filePath dotPath : string)
  : result Version :=
  match os_ReadFile fs filePath with
  | Err e => Err e
  | Ok content => ReadVersionFromBytes filePath content dotPath
  end.

Definition writeVersionToFile (fs : FileSystem) (filePath dotPath version : string)
  : FileSystem * option error :=
  match os_ReadFile fs filePath with
  | Err e => (fs, Some e)
  | Ok content =>
      match parseFileContent filePath content with
      | Err e => (fs, Some e)
      | Ok data =>
          match PathExpr.parsePath dotPath with
          | Err e => (fs, Some (ErrInvalidPath dotPath e))
          | Ok segments =>
              match setByPath data segments version with
              | (_, Some e) => (fs, Some (ErrAtPath dotPath e))
              | (data', None) => marshalToFile fs filePath data'
              end
          end
      end
  end.

(** ** Processors *)

(** [sv.SemVerCommitsProcessor]. *)
Record SemVerCommitsProcessor : Type := {
  SemverNextVersion : option Version -> list GitCommitLog -> option Version * bool;
}.

(** [sv.MonorepoProcessor].  The methods that touch the working tree take
    it and, when they write, return it. *)
Record MonorepoProcessor : Type := {
  FindComponents : FileSystem -> string -> MonorepoConfig
                   -> list MonorepoComponent * option error;
  NextVersion : MonorepoComponent -> list GitCommitLog -> SemVerCommitsProcessor
                -> option Version * bool;
  UpdateVersion : FileSystem -> MonorepoComponent -> Version -> MonorepoConfig
                  -> FileSystem * option error;
}.

(** The loop of [FindComponents] over the matches, with the components
    appended so far. *)
Fixpoint findLoop (fs : FileSystem) (cfg : MonorepoConfig) (matches : list string)
  (components : list MonorepoComponent) : list MonorepoComponent * option error :=
  match matches with
  | [] => (components, None)
  | matchPath :: rest =>
      match readVersionFromFile fs matchPath (Path cfg) with
      | Err e => ([], Some (ErrReadingVersion matchPath e))
      | Ok version =>
          let dir := filepath_Dir matchPath in
          findLoop fs cfg rest
            (components ++ [ {| Name := filepath_Base dir;
                                RootPath := dir;
                                VersioningFilePath := matchPath;
                                CurrentVersion := Some version |} ])
      end
  end.

Definition Impl_FindComponents (fs : FileSystem) (repoRoot : string)
  (cfg : MonorepoConfig) : list MonorepoComponent * option error :=
  if String.eqb (VersioningFile cfg) "" then ([], Some ErrNotConfigured)
  else
    let pattern := filepath_Join repoRoot (VersioningFile cfg) in
    match filepath_Glob (dom (files fs)) pattern with
    | (_, Some e) => ([], Some (ErrInvalidGlob (VersioningFile cfg) e))
    | (matches, None) =>
        match matches with
        | [] => ([], Some (ErrNoFilesMatched (VersioningFile cfg)))
        | _ => findLoop fs cfg matches []
        end
    end.

Definition Impl_NextVersion (component : MonorepoComponent)
  (commits : list GitCommitLog) (semverProc : SemVerCommitsProcessor)
  : option Version * bool :=
  SemverNextVersion semverProc (CurrentVersion component) commits.

Definition Impl_UpdateVersion (fs : FileSystem) (component : MonorepoComponent)
  (version : Version) (cfg : MonorepoConfig) : FileSystem * option error :=
  writeVersionToFile fs (VersioningFilePath component) (Path cfg) (Original version).

(** [MonorepoProcessorImpl]. *)
Definition MonorepoProcessorImpl : MonorepoProcessor :=
  {| FindComponents := Impl_FindComponents;
     NextVersion := Impl_NextVersion;
     UpdateVersion := Impl_UpdateVersion |}.

End FileHelpers.

(** ** The repository-history collaborator and the handlers' effects *)

(** [sv.Git], the methods the monorepo handlers call, over a repository
    state [G] (commits and tags; the working tree is not part of it). *)
Record Git (G : Type) : Type := {
  LastComponentTag : G -> string -> string;
  Log : G -> LogRange -> list GitCommitLog * option error;
  LastFileCommit : G -> string -> string;
  ShowFile : G -> string -> string -> string * option error;
  TagForComponent : G -> Version -> string -> G * (string * option error);
}.
Arguments LastComponentTag {G} _ _ _.
Arguments Log {G} _ _ _.
Arguments LastFileCommit {G} _ _ _.
Arguments ShowFile {G} _ _ _ _.
Arguments TagForComponent {G} _ _ _ _.

(** A call of a collaborator, as a recording fake would note it. *)
Inductive Call : Type :=
| CallLastComponentTag (componentPath : string)
| CallLog (lr : LogRange)
| CallLastFileCommit (relPath : string)
| CallShowFile (commit relPath : string)
| CallTagForComponent (version : Version) (componentPath : string)
| CallFindComponents (repoRoot : string) (cfg : MonorepoConfig)
| CallUpdateVersion (component : MonorepoComponent) (version : Version).

(** A line written by [fmt.Printf]; a version stands for its [String()]. *)
Inductive Msg : Type :=
| MsgNextVersion (name : string) (next : Version)       (* "%s: %s\n" *)
| MsgNoChange (name : string) (current : Version)       (* "%s: no version change (current: %s)\n" *)
| MsgAlreadyAt (name : string) (current : Version)      (* "%s: already at %s\n" *)
| MsgWritten (name : string) (next : Version) (file : string)
                                                        (* "%s: %s written to %s\n" *)
| MsgTag (name : string) (tagName : string).            (* "%s: %s\n" *)

Section Handlers.
Context {G : Type} {P : Platform}.

(** The state a handler runs in: the working tree, the repository, the
    calls made so far and the lines printed so far (oldest first). *)
Record State : Type := mkState {
  fs : FileSystem;
  repo : G;
  calls : list Call;
  out : list Msg;
}.

(** A handler either returns or panics (a nil pointer dereference). *)
Inductive Outcome (A : Type) : Type :=
| Done (a : A) (s : State)
| Panic (s : State).
Arguments Done {A} a s.
Arguments Panic {A} s.

Definition M (A : Type) : Type := State -> Outcome A.

Definition ret {A} (a : A) : M A := fun s => Done a s.

Definition bind {A B} (m : M A) (k : A -> M B) : M B :=
  fun s => match m s with
           | Done a s' => k a s'
           | Panic s' => Panic s'
           end.

Definition finalState {A} (o : Outcome A) : State :=
  match o with Done _ s => s | Panic s => s end.

Definition record (c : Call) (s : State) : State :=
  {| fs := fs s; repo := repo s; calls := calls s ++ [c]; out := out s |}.

Definition printf (m : Msg) : M unit :=
  fun s => Done tt {| fs := fs s; repo := repo s; calls := calls s; out := out s ++ [m] |}.

(** [*p] and [p.String()] on a pointer to a version. *)
Definition deref (p : option Version) : M Version :=
  fun s => match p with Some v => Done v s | None => Panic s end.

(** A read of the repository. *)
Definition gitRead {A} (c : Call) (f : G -> A) : M A :=
  fun s => Done (f (repo s)) (record c s).

Definition gitWrite {A} (c : Call) (f : G -> G * A) : M A :=
  fun s => let '(g', a) := f (repo s) in
           Done a {| fs := fs s; repo := g'; calls := calls s ++ [c]; out := out s |}.

Definition fsRead {A} (c : Call) (f : FileSystem -> A) : M A :=
  fun s => Done (f (fs s)) (record c s).

Definition fsWrite {A} (c : Call) (f : FileSystem -> FileSystem * A) : M A :=
  fun s => let '(fs', a) := f (fs s) in
           Done a {| fs := fs'; repo := repo s; calls := calls s ++ [c]; out := out s |}.

End Handlers.

Arguments State G : clear implicits.
Arguments Done {G A} a s.
Arguments Panic {G A} s.
Arguments Outcome G A : clear implicits.
Arguments M G A : clear implicits.

#[global] Instance M_ret {G} : MRet (M G) := fun A a => ret a.
#[global] Instance M_bind {G} : MBind (M G) := fun A B k m => bind m k.

(** ** Baseline resolution and the handlers of [cmd/git-sv/handlers.go] *)

Section MonorepoHandlers.
Context {G : Type} {P : Platform}.
Variable git : Git G.
Variable semverProcessor : SemVerCommitsProcessor.
Variable monorepoProcessor : MonorepoProcessor.
Variable cfg : MonorepoConfig.
Variable repoPath : string.

Definition git_LastComponentTag (componentPath : string) : M G string :=
  gitRead (CallLastComponentTag componentPath)
    (fun r => LastComponentTag git r componentPath).

Definition git_Log (lr : LogRange) : M G (list GitCommitLog * option error) :=
  gitRead (CallLog lr) (fun r => Log git r lr).

Definition git_LastFileCommit (relPath : string) : M G string :=
  gitRead (CallLastFileCommit relPath) (fun r => LastFileCommit git r relPath).

Definition git_ShowFile (commit relPath : string) : M G (string * option error) :=
  gitRead (CallShowFile commit relPath) (fun r => ShowFile git r commit relPath).

Definition git_TagForComponent (version : Version) (componentPath : string)
  : M G (string * option error) :=
  gitWrite (CallTagForComponent version componentPath)
    (fun r => TagForComponent git r version componentPath).

Definition proc_FindComponents : M G (list MonorepoComponent * option error) :=
  fsRead (CallFindComponents repoPath cfg)
    (fun f => FindComponents monorepoProcessor f repoPath cfg).

Definition proc_UpdateVersion (component : MonorepoComponent) (version : Version)
  : M G (option error) :=
  fsWrite (CallUpdateVersion component version)
    (fun f => UpdateVersion monorepoProcessor f component version cfg).

(** [tagVer, _ := sv.ToVersion(...)]: the error is dropped, the pointer kept. *)
Definition versionOrNil (r : result Version) : option Version :=
  match r with Ok v => Some v | Err _ => None end.

(** [componentCommits]. *)
Definition componentCommits (component : MonorepoComponent)
  : M G (list GitCommitLog * option error) :=
  match filepath_Rel repoPath (RootPath component) with
  | Err e => mret ([], Some e)
  | Ok relDir =>
      lastTag ← git_LastComponentTag relDir;
      git_Log (NewLogRangeWithPaths TagRange lastTag "" [relDir])
  end.

(** Priority 3 of [componentBaseVersionAndCommits]. *)
Definition baselineAllCommits (component : MonorepoComponent) (relDir : string)
  : M G (option Version * list GitCommitLog * option error) :=
  '(commits, cerr) ← git_Log (NewLogRangeWithPaths TagRange "" "" [relDir]);
  mret (CurrentVersion component, commits, cerr).

(** Priority 2, after [LastFileCommit] answered a hash. *)
Definition baselineFileCommit (component : MonorepoComponent)
  (relDir relFile fileCommit dotPath : string)
  : M G (option Version * list GitCommitLog * option error) :=
  '(commits, cerr) ← git_Log (NewLogRangeWithPaths HashRange fileCommit "" [relDir]);
  match cerr with
  | Some e => mret (None, [], Some e)
  | None =>
      '(content, serr) ← git_ShowFile fileCommit relFile;
      match serr with
      | None =>
          match ReadVersionFromBytes (VersioningFilePath component) content dotPath with
          | Ok baseVer => mret (Some baseVer, commits, None)
          | Err _ => mret (CurrentVersion component, commits, None)
          end
      | Some _ => mret (CurrentVersion component, commits, None)
      end
  end.

(** [componentBaseVersionAndCommits]. *)
Definition componentBaseVersionAndCommits (component : MonorepoComponent)
  (dotPath : string) : M G (option Version * list GitCommitLog * option error) :=
  match filepath_Rel repoPath (RootPath component) with
  | Err e => mret (None, [], Some e)
  | Ok relDir =>
      lastTag ← git_LastComponentTag relDir;
      if negb (String.eqb lastTag "") then
        let tagVer := versionOrNil (ToVersion (filepath_Base lastTag)) in
        '(commits, cerr) ← git_Log (NewLogRangeWithPaths TagRange lastTag "" [relDir]);
        mret (tagVer, commits, cerr)
      else
        match filepath_Rel repoPath (VersioningFilePath component) with
        | Ok relFile =>
            fileCommit ← git_LastFileCommit relFile;
            if negb (String.eqb fileCommit "")
            then baselineFileCommit component relDir relFile fileCommit dotPath
            else baselineAllCommits component relDir
        | Err _ => baselineAllCommits component relDir
        end
  end.

(** A loop over the components: the body answers [Some err] to return
    [err] from the handler and [None] to go on with the next component. *)
Fixpoint forEach (body : MonorepoComponent -> M G (option error))
  (components : list MonorepoComponent) : M G (option error) :=
  match components with
  | [] => mret None
  | component :: rest =>
      r ← body component;
      match r with
      | Some e => mret (Some e)
      | None => forEach body rest
      end
  end.

(** The body of the loop of [monorepoNextVersionHandler]. *)
Definition nextVersionBody (component : MonorepoComponent) : M G (option error) :=
  '(baseVer, commits, cerr) ← componentBaseVersionAndCommits component (Path cfg);
  match cerr with
  | Some e => mret (Some (ErrGettingCommits (Name component) e))
  | None =>
      let '(nextVer, updated) := SemverNextVersion semverProcessor baseVer commits in
      let nextVer := if negb updated then CurrentVersion component else nextVer in
      v ← deref nextVer;
      printf (MsgNextVersion (Name component) v);;
      mret None
  end.

Definition monorepoNextVersionHandler : M G (option error) :=
  '(components, err) ← proc_FindComponents;
  match err with
  | Some e => mret (Some (ErrFindingComponents e))
  | None => forEach nextVersionBody components
  end.

(** The body of the loop of [monorepoTagHandler]. *)
Definition tagBody (component : MonorepoComponent) : M G (option error) :=
  '(commits, cerr) ← componentCommits component;
  match cerr with
  | Some e => mret (Some (ErrGettingCommits (Name component) e))
  | None =>
      let '(nextVer, updated) :=
        NextVersion monorepoProcessor component commits semverProcessor in
      if negb updated then
        cur ← deref (CurrentVersion component);
        printf (MsgNoChange (Name component) cur);;
        mret None
      else
        next ← deref nextVer;
        uerr ← proc_UpdateVersion component next;
        match uerr with
        | Some e => mret (Some (ErrUpdatingVersion (Name component) e))
        | None =>
            match filepath_Rel repoPath (RootPath component) with
            | Err e => mret (Some (ErrResolvingPath (Name component) e))
            | Ok relDir =>
                '(tagName, terr) ← git_TagForComponent next relDir;
                match terr with
                | Some e => mret (Some (ErrCreatingTag (Name component) e))
                | None =>
                    printf (MsgTag (Name component) tagName);;
                    mret None
                end
            end
        end
  end.

Definition monorepoTagHandler : M G (option error) :=
  '(components, err) ← proc_FindComponents;
  match err with
  | Some e => mret (Some (ErrFindingComponents e))
  | None => forEach tagBody components
  end.

(** The body of the loop of [monorepoUpdateVersionHandler]. *)
Definition updateVersionBody (component : MonorepoComponent) : M G (option error) :=
  '(baseVer, commits, cerr) ← componentBaseVersionAndCommits component (Path cfg);
  match cerr with
  | Some e => mret (Some (ErrGettingCommits (Name component) e))
  | None =>
      let '(nextVer, updated) := SemverNextVersion semverProcessor baseVer commits in
      if negb updated then
        base ← deref baseVer;
        printf (MsgNoChange (Name component) base);;
        mret None
      else if Equal nextVer (CurrentVersion component) then
        cur ← deref (CurrentVersion component);
        printf (MsgAlreadyAt (Name component) cur);;
        mret None
      else
        next ← deref nextVer;
        uerr ← proc_UpdateVersion component next;
        match uerr with
        | Some e => mret (Some (ErrUpdatingVersion (Name component) e))
        | None =>
            printf (MsgWritten (Name component) next (VersioningFilePath component));;
            mret None
        end
  end.

(** The body of the bump loop after the baseline is resolved, state by
    state: the closed form of [updateVersionBody] from the point where
    [componentBaseVersionAndCommits] has returned in the state [s1]. *)
Definition afterBaseline (component : MonorepoComponent)
  (baseVer : option Version) (commits : list GitCommitLog) (cerr : option error)
  (s1 : State G) : Outcome G (option error) :=
  match cerr with
  | Some e => Done (Some (ErrGettingCommits (Name component) e)) s1
  | None =>
      let '(nextVer, updated) := SemverNextVersion semverProcessor baseVer commits in
      if negb updated then
        match baseVer with
        | Some base =>
            Done None {| fs := fs s1; repo := repo s1; calls := calls s1;
                         out := out s1 ++ [MsgNoChange (Name component) base] |}
        | None => Panic s1
        end
      else if Equal nextVer (CurrentVersion component) then
        match CurrentVersion component with
        | Some cur =>
            Done None {| fs := fs s1; repo := repo s1; calls := calls s1;
                         out := out s1 ++ [MsgAlreadyAt (Name component) cur] |}
        | None => Panic s1
        end
      else
        match nextVer with
        | None => Panic s1
        | Some next =>
            let written := UpdateVersion monorepoProcessor (fs s1) component next cfg in
            let s2 := {| fs := fst written; repo := repo s1;
                         calls := calls s1 ++ [CallUpdateVersion component next];
                         out := out s1 |} in
            match snd written with
            | Some e => Done (Some (ErrUpdatingVersion (Name component) e)) s2
            | None =>
                Done None {| fs := fs s2; repo := repo s2; calls := calls s2;
                             out := out s2 ++ [MsgWritten (Name component) next
                                                 (VersioningFilePath component)] |}
            end
        end
  end.

Definition monorepoUpdateVersionHandler : M G (option error) :=
  '(components, err) ← proc_FindComponents;
  match err with
  | Some e => mret (Some (ErrFindingComponents e))
  | None => forEach updateVersionBody components
  end.

(** The condition under which the bump flow writes a version. *)
Definition writeJustified (component : MonorepoComponent) (version : Version) : Prop :=
  exists (s0 s1 : State G) baseVer commits,
    componentBaseVersionAndCommits component (Path cfg) s0
    = Done (baseVer, commits, None) s1
    /\ SemverNextVersion semverProcessor baseVer commits = (Some version, true)
    /\ Equal (Some version) (CurrentVersion component) = false.

End MonorepoHandlers.

(** ** The path grammar, as the specification words it *)

(** A path expression is a sequence of segments, each a plain key or a
    bracketed quoted literal, each followed or not by a dot; the printer
    below writes every expression of the grammar. *)
Module PathGrammar.
Import PathExpr.

Inductive Segment : Type :=
| Plain (key : string)
| Bracket (quote : ascii) (literal : string).

Definition text (s : Segment) : string :=
  match s with
  | Plain key => key
  | Bracket _ literal => literal
  end.

Fixpoint allChars (p : ascii -> bool) (s : string) : bool :=
  match s with
  | EmptyString => true
  | String c rest => p c && allChars p rest
  end.

Definition plainChar (c : ascii) : bool :=
  negb (Ascii.eqb c dot) && negb (Ascii.eqb c lbracket).

Definition isQuote (q : ascii) : bool :=
  Ascii.eqb q dquote || Ascii.eqb q squote.

(** A plain key is not empty and holds no separator and no opening
    bracket; a literal holds any byte but its own quote character. *)
Definition wfSegment (s : Segment) : bool :=
  match s with
  | Plain key => negb (String.eqb key "") && allChars plainChar key
  | Bracket q literal => isQuote q && allChars (fun c => negb (Ascii.eqb c q)) literal
  end.

(** Two plain keys in a row are separated by a dot; every other dot (after
    a closing bracket, before an opening bracket, at the end) is optional. *)
Fixpoint wfPath (segs : list (Segment * bool)) : bool :=
  match segs with
  | [] => true
  | (s, dotAfter) :: rest =>
      wfSegment s
      && match s, rest with
         | Plain _, (Plain _, _) :: _ => dotAfter
         | _, _ => true
         end
      && wfPath rest
  end.

(** One step past a closing bracket: the optional dot. *)
Definition skipDot (s : string) : string :=
  match s with
  | String e rest => if Ascii.eqb e dot then rest else s
  | EmptyString => s
  end.

(** The segments an expression of the grammar denotes. *)
Definition texts (segs : list (Segment * bool)) : list string :=
  map (fun sd => text (fst sd)) segs.

Definition one (c : ascii) : string := String c EmptyString.

Definition writeSegment (s : Segment) : string :=
  match s with
  | Plain key => key
  | Bracket q literal =>
      String lbracket (String q (String.append literal (String q (one rbracket))))
  end.

Fixpoint writeSegments (segs : list (Segment * bool)) : string :=
  match segs with
  | [] => EmptyString
  | (s, dotAfter) :: rest =>
      String.append (writeSegment s)
        (String.append (if dotAfter then one dot else EmptyString) (writeSegments rest))
  end.

Definition writePath (leadingDot : bool) (segs : list (Segment * bool)) : string :=
  String.append (if leadingDot then one dot else EmptyString) (writeSegments segs).

(** The pieces of a string between its dots, as [strings.Split] gives
    them, and those of them that are not empty. *)
Fixpoint splitDotsFrom (current : string) (s : string) : list string :=
  match s with
  | EmptyString => [current]
  | String c rest =>
      if Ascii.eqb c dot then current :: splitDotsFrom EmptyString rest
      else splitDotsFrom (WriteByte current c) rest
  end.

Definition splitDots (s : string) : list string := splitDotsFrom EmptyString s.

Definition nonEmpty (s : string) : bool := negb (String.eqb s "").

Definition keysBetweenDots (s : string) : list string :=
  List.filter nonEmpty (splitDots s).

Definition noBracket (s : string) : bool :=
  allChars (fun c => negb (Ascii.eqb c lbracket)) s.

(** The path of the second example: annotations, then the literal
    backstage.io/key in brackets and double quotes. *)
Definition backstagePath : string :=
  writeSegments [(Plain "annotations", false); (Bracket dquote "backstage.io/key", false)].

(** The two bytes a and backslash. *)
Definition aBackslash : string := String "a"%char (one (Ascii.ascii_of_nat 92)).

(** A bracketed literal that ends in a backslash, and one with a quote
    character after the backslash and a b after it. *)
Definition backslashPath : string :=
  String lbracket (String dquote (String.append aBackslash (String dquote (one rbracket)))).

Definition backslashQuotePath : string :=
  String lbracket (String dquote (String.append aBackslash
    (String dquote (String.append "b" (String dquote (one rbracket)))))).

End PathGrammar.

(** The mapping reached by walking the segments from [data]: every segment
    must name a mapping. *)
Fixpoint reach (data : gmap string Value) (segments : list string)
  : result (gmap string Value) :=
  match segments with
  | [] => Ok data
  | s0 :: rest =>
      match data !! s0 with
      | None => Err (ErrKeyNotFound s0)
      | Some (VMap nested) => reach nested rest
      | Some _ => Err (ErrNotAMap s0)
      end
  end.

(** ** Reading the record of calls *)

(** The writes among a list of calls: the component and the version of each
    [UpdateVersion]. *)
Definition updates (cs : list Call) : list (MonorepoComponent * Version) :=
  omap (fun c => match c with
                 | CallUpdateVersion component version => Some (component, version)
                 | _ => None
                 end) cs.

(** A call that consults the anchor of the versioning document. *)
Definition isAnchorCall (c : Call) : bool :=
  match c with
  | CallLastFileCommit _ | CallShowFile _ _ => true
  | _ => false
  end.

Definition anchors (cs : list Call) : list Call :=
  filter (fun c => isAnchorCall c = true) cs.

(** The calls an outcome made after the state [s] it started from. *)
Definition callsSince {G A} (s : State G) (o : Outcome G A) : list Call :=
  drop (length (calls s)) (calls (finalState o)).

(** The calls of tier 2 of the baseline, in order. *)
Definition tier2Calls (relDir relFile fileCommit : string) : list Call :=
  [CallLastComponentTag relDir; CallLastFileCommit relFile;
   CallLog (hashRange fileCommit relDir); CallShowFile fileCommit relFile].

(** The state [s] after the calls [cs], nothing else changed. *)
Definition recorded {G} (cs : list Call) (s : State G) : State G :=
  {| fs := fs s; repo := repo s; calls := calls s ++ cs; out := out s |}.

(** ** Reading failures and codec fidelity *)

(** Why a matched file yields no version: the ways [readVersionFromFile]
    fails (reading, decoding, the path expression, navigation, a leaf that
    is not a string, a string that is not a version). *)
Inductive ReadFailure {P : Platform} (fs : FileSystem) (dotPath matchPath : string)
  : Prop :=
| ReadFails e :
    os_ReadFile fs matchPath = Err e -> ReadFailure fs dotPath matchPath
| DecodeFails content e :
    os_ReadFile fs matchPath = Ok content ->
    parseFileContent matchPath content = Err e ->
    ReadFailure fs dotPath matchPath
| PathMalformed e :
    PathExpr.parsePath dotPath = Err e -> ReadFailure fs dotPath matchPath
| NavigationFails content data segments e :
    os_ReadFile fs matchPath = Ok content ->
    parseFileContent matchPath content = Ok data ->
    PathExpr.parsePath dotPath = Ok segments ->
    getByPath data segments = Err e ->
    ReadFailure fs dotPath matchPath
| LeafNotTextual content data segments raw :
    os_ReadFile fs matchPath = Ok content ->
    parseFileContent matchPath content = Ok data ->
    PathExpr.parsePath dotPath = Ok segments ->
    getByPath data segments = Ok raw ->
    (forall s, raw ≠ VString s) ->
    ReadFailure fs dotPath matchPath
| VersionInvalid content data segments vstr e :
    os_ReadFile fs matchPath = Ok content ->
    parseFileContent matchPath content = Ok data ->
    PathExpr.parsePath dotPath = Ok segments ->
    getByPath data segments = Ok (VString vstr) ->
    ToVersion vstr = Err e ->
    ReadFailure fs dotPath matchPath.

(** The bytes [marshalToFile] writes for a tree: the encoder's output, with
    a newline after it for JSON. *)
Definition encoded {P : Platform} (filePath : string) (data : gmap string Value)
  : result string :=
  if isJSON filePath then
    match json_MarshalIndent data with
    | Err e => Err (ErrMarshalJSON e)
    | Ok out => Ok (String.append out (String (Ascii.ascii_of_nat 10) EmptyString))
    end
  else
    match yaml_Marshal data with
    | Err e => Err (ErrMarshalYAML e)
    | Ok out => Ok out
    end.

(** The codec is faithful at the bytes [written] of a file: decoding them
    gives back any tree they encode. *)
Definition codecFaithfulAt {P : Platform} (filePath written : string) : Prop :=
  forall data, encoded filePath data = Ok written ->
               parseFileContent filePath written = Ok data.

(** ** The bump resolver *)

Inductive Bump : Type := BumpNone | BumpPatch | BumpMinor | BumpMajor.

Definition severity (b : Bump) : nat :=
  match b with BumpNone => 0 | BumpPatch => 1 | BumpMinor => 2 | BumpMajor => 3 end.

Definition higher (a b : Bump) : Bump :=
  if Nat.ltb (severity a) (severity b) then b else a.

Definition decimal (n : N) : string := NilEmpty.string_of_uint (N.to_uint n).

(** The canonical string of a version: major.minor.patch, then the
    pre-release after a hyphen and the metadata after a plus sign. *)
Definition canonical (major minor patch : N) (pre meta : string) : string :=
  String.append (decimal major) (String.append "." (String.append (decimal minor)
    (String.append "." (String.append (decimal patch)
      (String.append (if String.eqb pre "" then "" else String.append "-" pre)
                     (if String.eqb meta "" then "" else String.append "+" meta)))))).

Section BumpResolver.
(** The configured classification of a history entry. *)
Variable classify : GitCommitLog -> Bump.

Definition highest (commits : list GitCommitLog) : Bump :=
  foldr (fun c acc => higher (classify c) acc) BumpNone commits.

(** Modelled from the spec: the increments of spec section 4.2 (major resets
    minor and patch, minor resets patch, patch increments only patch).  The
    spec gives an incremented version no literal of its own: its literal is
    its canonical string. *)
Definition increment (b : Bump) (base : Version) : Version :=
  let '(major, minor, patch) :=
    match b with
    | BumpMajor => (N.succ (Major base), 0%N, 0%N)
    | BumpMinor => (Major base, N.succ (Minor base), 0%N)
    | BumpPatch => (Major base, Minor base, N.succ (Patch base))
    | BumpNone => (Major base, Minor base, Patch base)
    end in
  {| Major := major; Minor := minor; Patch := patch;
     Prerelease := Prerelease base; Metadata := Metadata base;
     Original := canonical major minor patch (Prerelease base) (Metadata base) |}.

(** Modelled from the spec: the bump resolver of spec section 4.2, the
    [NextVersion] of [sv/semver.go], which is not among the sources:
    unchanged and the base itself when no entry classifies above none,
    otherwise the increment of the highest classification.  A nil base
    stays nil. *)
Definition resolveBump (base : option Version) (commits : list GitCommitLog)
  : option Version * bool :=
  match highest commits with
  | BumpNone => (base, false)
  | b => (option_map (increment b) base, true)
  end.

Definition specSemVerProcessor : SemVerCommitsProcessor :=
  {| SemverNextVersion := resolveBump |}.

End BumpResolver.

(** ** The end-to-end scenario, in general *)

(** A version with the given numeric core and neither pre-release nor
    metadata. *)
Definition isVersion (v : Version) (major minor patch : N) : Prop :=
  Major v = major /\ Minor v = minor /\ Patch v = patch
  /\ Prerelease v = "" /\ Metadata v = "".

(** The data of a scenario: the working tree and the repository state, the
    versioning document and its paths relative to the repository, the last
    commit of the document with the bytes it recorded, the two commits after
    it, and the versions read. *)
Record BumpSetting (G : Type) : Type := {
  theTree : FileSystem;
  theRepo : G;
  theFile : string;
  theRelDir : string;
  theRelFile : string;
  theFileCommit : string;
  thePatch1 : GitCommitLog;
  thePatch2 : GitCommitLog;
  theSnapshot : string;
  theBase : Version;
  theCurrent : Version;
  theReread : Version;
}.
Arguments theTree {G} _.
Arguments theRepo {G} _.
Arguments theFile {G} _.
Arguments theRelDir {G} _.
Arguments theRelFile {G} _.
Arguments theFileCommit {G} _.
Arguments thePatch1 {G} _.
Arguments thePatch2 {G} _.
Arguments theSnapshot {G} _.
Arguments theBase {G} _.
Arguments theCurrent {G} _.
Arguments theReread {G} _.

Section IdempotentScenario.
Context {G : Type} {P : Platform}.
Variable git : Git G.
Variable classify : GitCommitLog -> Bump.
Variable cfg : MonorepoConfig.
Variable repoPath : string.

(** The component discovery makes of the document, at a current version. *)
Definition componentOf (file : string) (current : Version) : MonorepoComponent :=
  {| Name := filepath_Base (filepath_Dir file);
     RootPath := filepath_Dir file;
     VersioningFilePath := file;
     CurrentVersion := Some current |}.

(** The scenario of spec section 8: one component whose document holds
    1.0.0 on disk, no component tag, one commit of the document that
    recorded 1.0.0, two later commits under the component's directory that
    classify as patch; the codec encodes the updated document faithfully
    and the version parser reads the literal 1.0.1 as 1.0.1. *)
Record IdempotentScenario (d : BumpSetting G) : Prop := {
  configured : VersioningFile cfg ≠ "";
  globbed :
    filepath_Glob (dom (files (theTree d))) (filepath_Join repoPath (VersioningFile cfg))
    = ([theFile d], None);
  onDisk : readVersionFromFile (theTree d) (theFile d) (Path cfg) = Ok (theCurrent d);
  currentIs : isVersion (theCurrent d) 1 0 0;
  writable : theFile d ∉ readonly (theTree d);
  relDirOk : filepath_Rel repoPath (filepath_Dir (theFile d)) = Ok (theRelDir d);
  relFileOk : filepath_Rel repoPath (theFile d) = Ok (theRelFile d);
  noTag : LastComponentTag git (theRepo d) (theRelDir d) = "";
  fileCommitted : LastFileCommit git (theRepo d) (theRelFile d) = theFileCommit d;
  fileCommitNonEmpty : theFileCommit d ≠ "";
  twoCommits :
    Log git (theRepo d) (hashRange (theFileCommit d) (theRelDir d))
    = ([thePatch2 d; thePatch1 d], None);
  patch1Class : classify (thePatch1 d) = BumpPatch;
  patch2Class : classify (thePatch2 d) = BumpPatch;
  snapshotShown :
    ShowFile git (theRepo d) (theFileCommit d) (theRelFile d) = (theSnapshot d, None);
  snapshotRead :
    ReadVersionFromBytes (theFile d) (theSnapshot d) (Path cfg) = Ok (theBase d);
  baseIs : isVersion (theBase d) 1 0 0;
  encodes :
    forall disk data segments data',
      os_ReadFile (theTree d) (theFile d) = Ok disk ->
      parseFileContent (theFile d) disk = Ok data ->
      PathExpr.parsePath (Path cfg) = Ok segments ->
      setByPath data segments "1.0.1" = (data', None) ->
      exists written,
        encoded (theFile d) data' = Ok written
        /\ codecFaithfulAt (theFile d) written;
  reread : ToVersion "1.0.1" = Ok (theReread d);
  rereadIs : isVersion (theReread d) 1 0 1;
}.

(** A run of a handler starts with no call made and nothing printed. *)
Definition startIn (tree : FileSystem) (r : G) : State G :=
  {| fs := tree; repo := r; calls := []; out := [] |}.

End IdempotentScenario.

(** ** An in-memory platform and repository *)

(** A small platform to run the handlers on: slash-separated paths, a
    one-line [key:value] document format for every extension, globs with the
    single-level wildcard, and versions written major.minor.patch. *)
Module Fake.

Definition slash : ascii := "/"%char.

Fixpoint stripPrefix (p s : string) : option string :=
  match p, s with
  | EmptyString, _ => Some s
  | String a p', String b s' => if Ascii.eqb a b then stripPrefix p' s' else None
  | String _ _, EmptyString => None
  end.

(** The text before and after the last occurrence of [sep]. *)
Fixpoint splitLast (sep : ascii) (s : string) : option (string * string) :=
  match s with
  | EmptyString => None
  | String c rest =>
      match splitLast sep rest with
      | Some (before, after) => Some (String c before, after)
      | None => if Ascii.eqb c sep then Some (EmptyString, rest) else None
      end
  end.

(** The text before and after the first occurrence of [sep]. *)
Fixpoint splitFirst (sep : ascii) (s : string) : option (string * string) :=
  match s with
  | EmptyString => None
  | String c rest =>
      if Ascii.eqb c sep then Some (EmptyString, rest)
      else match splitFirst sep rest with
           | Some (before, after) => Some (String c before, after)
           | None => None
           end
  end.

Definition Rel (basepath targpath : string) : result string :=
  if String.eqb basepath targpath then Ok "."
  else match stripPrefix (String.append basepath "/") targpath with
       | Some rel => Ok rel
       | None => Err (ErrExternal "Rel: can't make the target relative to the base")
       end.

Definition Join (a b : string) : string := String.append a (String.append "/" b).

Definition Dir (p : string) : string :=
  match splitLast slash p with
  | Some (EmptyString, _) => "/"
  | Some (dir, _) => dir
  | None => "."
  end.

Definition Base (p : string) : string :=
  match splitLast slash p with
  | Some (_, base) => base
  | None => p
  end.

Definition Ext (p : string) : string :=
  match splitLast PathExpr.dot (Base p) with
  | Some (_, ext) => String PathExpr.dot ext
  | None => EmptyString
  end.

Definition lowerByte (c : ascii) : ascii :=
  let n := Ascii.nat_of_ascii c in
  if Nat.leb 65 n && Nat.leb n 90 then Ascii.ascii_of_nat (n + 32) else c.

Fixpoint ToLower (s : string) : string :=
  match s with
  | EmptyString => EmptyString
  | String c rest => String (lowerByte c) (ToLower rest)
  end.

(** A star matches any run of bytes other than the separator. *)
Fixpoint globMatch (pattern : string) : string -> bool :=
  match pattern with
  | EmptyString => fun name => String.eqb name EmptyString
  | String a pattern' =>
      if Ascii.eqb a "*"%char then
        fix star (name : string) : bool :=
          globMatch pattern' name
          || match name with
             | String c name' => negb (Ascii.eqb c slash) && star name'
             | EmptyString => false
             end
      else
        fun name =>
          match name with
          | String c name' => Ascii.eqb a c && globMatch pattern' name'
          | EmptyString => false
          end
  end.

Definition Glob (names : gset string) (pattern : string) : list string * option error :=
  match splitFirst PathExpr.lbracket pattern with
  | Some _ => ([], Some (ErrExternal "syntax error in pattern"))
  | None => (filter (fun name => globMatch pattern name = true) (elements names), None)
  end.

(** The one-line document format: a key, a colon, a string. *)
Definition Marshal (data : gmap string Value) : result string :=
  match map_to_list data with
  | [(key, VString s)] =>
      match splitFirst ":"%char key with
      | None => Ok (String.append key (String ":"%char s))
      | Some _ => Err (ErrExternal "marshal: a colon in the key")
      end
  | _ => Err (ErrExternal "marshal: not a one-line document")
  end.

Definition Unmarshal (content : string) : result (gmap string Value) :=
  match splitFirst ":"%char content with
  | Some (key, s) => Ok {[ key := VString s ]}
  | None => Err (ErrExternal "unmarshal: no colon")
  end.

Definition number (s : string) : option N :=
  match s with
  | EmptyString => None
  | _ => option_map N.of_uint (NilEmpty.uint_of_string s)
  end.

(** The version parser of the fake: an optional leading v, then the
    numeric core major.minor.patch; the literal is the text as given. *)
Definition parseVersion (text : string) : result Version :=
  let core := match text with
              | String c rest => if Ascii.eqb c "v"%char then rest else text
              | EmptyString => text
              end in
  match splitFirst PathExpr.dot core with
  | Some (major, rest) =>
      match splitFirst PathExpr.dot rest with
      | Some (minor, patch) =>
          match number major, number minor, number patch with
          | Some a, Some b, Some c =>
              Ok {| Major := a; Minor := b; Patch := c;
                    Prerelease := ""; Metadata := ""; Original := text |}
          | _, _, _ => Err (ErrExternal "Invalid Semantic Version")
          end
      | None => Err (ErrExternal "Invalid Semantic Version")
      end
  | None => Err (ErrExternal "Invalid Semantic Version")
  end.

#[local] Instance platform : Platform :=
  {| filepath_Rel := Rel;
     filepath_Join := Join;
     filepath_Dir := Dir;
     filepath_Base := Base;
     filepath_Ext := Ext;
     filepath_Glob := Glob;
     strings_ToLower := ToLower;
     json_Unmarshal := Unmarshal;
     json_MarshalIndent := Marshal;
     yaml_Unmarshal := Unmarshal;
     yaml_Marshal := Marshal;
     ToVersion := parseVersion |}.

(** The repository of the fake: the last tag of each component path, the
    last commit of each file, the content of a file at a commit, and the
    history a range answers. *)
Record Repo : Type := mkRepo {
  componentTag : gmap string string;
  fileCommit : gmap string string;
  blobs : gmap (string * string) string;
  history : LogRange -> list GitCommitLog;
}.

Definition tagName (version : Version) (componentPath : string) : string :=
  String.append componentPath (String.append "/v"
    (canonical (Major version) (Minor version) (Patch version)
               (Prerelease version) (Metadata version))).

Definition git : Git Repo :=
  {| LastComponentTag r componentPath := default "" (componentTag r !! componentPath);
     Log r lr := (history r lr, None);
     LastFileCommit r relPath := default "" (fileCommit r !! relPath);
     ShowFile r commit relPath :=
       match blobs r !! (commit, relPath) with
       | Some content => (content, None)
       | None => ("", Some (ErrExternal "fatal: path does not exist in the commit"))
       end;
     TagForComponent r version componentPath :=
       let name := tagName version componentPath in
       ({| componentTag := <[componentPath := name]> (componentTag r);
           fileCommit := fileCommit r;
           blobs := blobs r;
           history := history r |},
        (name, None)) |}.

End Fake.

(** ** The end-to-end scenario *)

(** Component alpha at 1.0.0 in its versioning document, no tag, one commit
    of the document recording 1.0.0, and two later commits under alpha/ of
    type fix. *)
Module Scenario.

Definition repoPath : string := "/repo".
Definition file : string := "/repo/alpha/version.yml".
Definition cfg : MonorepoConfig :=
  {| VersioningFile := "*/version.yml"; Path := "version" |}.

Definition fix1 : GitCommitLog :=
  {| Hash := "a1"; AuthorName := "dev"; Date := "2024-01-02";
     Subject := "fix: first"; Body := ""; CommitType := "fix"; Scope := "";
     IsBreakingChange := false |}.
Definition fix2 : GitCommitLog :=
  {| Hash := "a2"; AuthorName := "dev"; Date := "2024-01-03";
     Subject := "fix: second"; Body := ""; CommitType := "fix"; Scope := "";
     IsBreakingChange := false |}.

(** A classification by configured rules: a breaking change is major, feat
    is minor, fix is patch, any other type is none. *)
Definition classify (c : GitCommitLog) : Bump :=
  if IsBreakingChange c then BumpMajor
  else if String.eqb (CommitType c) "feat" then BumpMinor
  else if String.eqb (CommitType c) "fix" then BumpPatch
  else BumpNone.

Definition sinceFileCommit : LogRange :=
  NewLogRangeWithPaths HashRange "c0ffee" "" ["alpha"].

Definition isSinceFileCommit (lr : LogRange) : bool :=
  match rangeType lr with HashRange => true | _ => false end
  && String.eqb (rangeStart lr) "c0ffee" && String.eqb (rangeEnd lr) ""
  && bool_decide (paths lr = ["alpha"]).

Definition repository : Fake.Repo :=
  {| Fake.componentTag := ∅;
     Fake.fileCommit := {[ "alpha/version.yml" := "c0ffee" ]};
     Fake.blobs := {[ ("c0ffee", "alpha/version.yml") := "version:1.0.0" ]};
     Fake.history lr := if isSinceFileCommit lr then [fix2; fix1] else [] |}.

Definition tree : FileSystem :=
  {| files := {[ file := "version:1.0.0" ]}; readonly := ∅ |}.

Definition start (t : FileSystem) : State Fake.Repo :=
  {| fs := t; repo := repository; calls := []; out := [] |}.

Definition bump : M Fake.Repo (option error) :=
  monorepoUpdateVersionHandler (P := Fake.platform) Fake.git
    (specSemVerProcessor classify) (MonorepoProcessorImpl (P := Fake.platform))
    cfg repoPath.

Definition firstRun : Outcome Fake.Repo (option error) := bump (start tree).
Definition secondRun : Outcome Fake.Repo (option error) :=
  bump (start (fs (finalState firstRun))).

Definition version (major minor patch : N) (literal : string) : Version :=
  {| Major := major; Minor := minor; Patch := patch;
     Prerelease := ""; Metadata := ""; Original := literal |}.

Definition alpha (current : Version) : MonorepoComponent :=
  {| Name := "alpha"; RootPath := "/repo/alpha";
     VersioningFilePath := file; CurrentVersion := Some current |}.

Definition setting : BumpSetting Fake.Repo :=
  {| theTree := tree;
     theRepo := repository;
     theFile := file;
     theRelDir := "alpha";
     theRelFile := "alpha/version.yml";
     theFileCommit := "c0ffee";
     thePatch1 := fix1;
     thePatch2 := fix2;
     theSnapshot := "version:1.0.0";
     theBase := version 1 0 0 "1.0.0";
     theCurrent := version 1 0 0 "1.0.0";
     theReread := version 1 0 1 "1.0.1" |}.

(** The same repository with a tag of the component: the document still
    has its commit. *)
Definition tagged : Fake.Repo :=
  {| Fake.componentTag := {[ "alpha" := "alpha/v1.1.0" ]};
     Fake.fileCommit := Fake.fileCommit repository;
     Fake.blobs := Fake.blobs repository;
     Fake.history := Fake.history repository |}.

(** The tree after a bump to 1.0.1 that is not committed. *)
Definition bumpedTree : FileSystem :=
  {| files := {[ file := "version:1.0.1" ]}; readonly := ∅ |}.

(** A tree with a second component whose document holds no version. *)
Definition brokenTree : FileSystem :=
  {| files := {[ file := "version:1.0.0";
                 "/repo/beta/version.yml" := "version:not-a-version" ]};
     readonly := ∅ |}.

(** A tree with a scalar where the path expects a mapping, and another key
    beside it. *)
Definition scalarInTheWay : gmap string Value :=
  {[ "metadata" := VString "not-a-map"; "other" := VMap {[ "version" := VString "1.0.0" ]} ]}.

(** A resolver that reports a change to the base itself, as a test double
    may. *)
Definition sameVersionProcessor : SemVerCommitsProcessor :=
  {| SemverNextVersion base _ := (base, true) |}.

End Scenario.

(** ** The scan of a quoted literal, on its own *)

Module PathScan.
Import PathExpr.

(** The inner loop of [parsePath], [for i < len(path) && path[i] != quote]:
    the bytes written to the builder and the text after the closing quote,
    or nothing when the quote never comes. *)
Fixpoint scanQuoted (quote : ascii) (t current : string) : option (string * string) :=
  match t with
  | EmptyString => None
  | String d t1 =>
      if Ascii.eqb d quote then Some (current, t1)
      else scanQuoted quote t1 (WriteByte current d)
  end.

(** A result with the path of the no-segments message left out. *)
Definition withoutPath (r : result (list string)) : result (list string) :=
  match r with
  | Err (ErrNoSegments _) => Err (ErrNoSegments EmptyString)
  | _ => r
  end.

(** Whether a string starts with a given byte. *)
Definition startsWith (c : ascii) (s : string) : bool :=
  match s with
  | String b _ => Ascii.eqb b c
  | EmptyString => false
  end.

End PathScan.

(** ** Components after a write *)

(** A component with another current version, as discovery would find it
    after the version of its document has changed. *)
Definition withCurrent (component : MonorepoComponent) (v : Version)
  : MonorepoComponent :=
  {| Name := Name component;
     RootPath := RootPath component;
     VersioningFilePath := VersioningFilePath component;
     CurrentVersion := Some v |}.

(** The components of a discovery after the document [file] has been given
    the version [v]. *)
Definition rediscovered (file : string) (v : Version)
  (components : list MonorepoComponent) : list MonorepoComponent :=
  map (fun d => if String.eqb (VersioningFilePath d) file then withCurrent d v else d)
      components.

(** ** Reading the record of calls, further *)

(** A call that reads the repository history. *)
Definition isGitRead (c : Call) : bool :=
  match c with
  | CallLastComponentTag _ | CallLog _ | CallLastFileCommit _ | CallShowFile _ _ => true
  | _ => false
  end.

(** The tags among a list of calls: the version and the component path of
    each [TagForComponent]. *)
Definition tagsMade (cs : list Call) : list (Version * string) :=
  omap (fun c => match c with
                 | CallTagForComponent version componentPath =>
                     Some (version, componentPath)
                 | _ => None
                 end) cs.

(** The working tree after a list of calls made from the tree [t]: each
    [UpdateVersion] leaves the tree it returns, no other call writes. *)
Definition treeAfter (processor : MonorepoProcessor) (cfg : MonorepoConfig)
  (t : FileSystem) (cs : list Call) : FileSystem :=
  fold_left (fun tree c =>
               match c with
               | CallUpdateVersion component version =>
                   fst (UpdateVersion processor tree component version cfg)
               | _ => tree
               end) cs t.

(** ** The tags of the repository: [find] and [getTags] of [cmd/git-sv/handlers.go] *)

Module TagList.

(** [sv.GitTag]; the date as seconds. *)
Record GitTag : Type := mkGitTag {
  Name : string;
  Date : Z;
}.

(** [sv.GitTag{}]. *)
Definition zeroTag : GitTag := {| Name := ""; Date := 0 |}.

(** The method of [sv.Git] that [getTags] calls. *)
Record TagLister (G : Type) : Type := {
  Tags : G -> list GitTag * option error;
}.
Arguments Tags {G} _ _.

(** The errors of [getTags]: the error of [git.Tags] as it is, or the tag
    that was not found. *)
Inductive TagsError : Type :=
| ErrTags (e : error)
| ErrTagNotFound (tag : string).

(** The loop of [find], from the index [i] on. *)
Fixpoint findFrom (i : Z) (tag : string) (tags : list GitTag) : Z :=
  match tags with
  | [] => -1
  | t :: rest => if String.eqb tag (Name t) then i else findFrom (i + 1) tag rest
  end.

Definition find (tag : string) (tags : list GitTag) : Z := findFrom 0 tag tags.

(** [tags[i]]: an index out of range panics. *)
Definition at_ (tags : list GitTag) (i : Z) : option GitTag :=
  if (i <? 0)%Z then None else tags !! Z.to_nat i.

(** [getTags]; nothing is returned when an index is out of range. *)
Definition getTags {G} (git : TagLister G) (r : G) (tag : string)
  : option (string * GitTag * option TagsError) :=
  let '(tags, err) := Tags git r in
  match err with
  | Some e => Some ("", zeroTag, Some (ErrTags e))
  | None =>
      let index := find tag tags in
      if (index <? 0)%Z then Some ("", zeroTag, Some (ErrTagNotFound tag))
      else
        previousTag ← (if (index >? 0)%Z
                       then option_map Name (at_ tags (index - 1))
                       else Some "");
        current ← at_ tags index;
        Some (previousTag, current, None)
  end.

(** The name of the last of the tags, or the empty string. *)
Definition lastName (tags : list GitTag) : string :=
  match last tags with
  | Some t => Name t
  | None => ""
  end.

End TagList.

(** ** The loop over a component's tags of [monorepoChangelogHandler] *)

(** The error of the loop: the log of a tag's range failed. *)
Inductive TagLoopError : Type :=
| ErrTagCommits (tagName : string) (e : error).

Section ChangelogTags.
Context {G : Type} {P : Platform} {ReleaseNote : Type}.
Variable git : Git G.
(** [sv.IsValidVersion] and [rnProcessor.Create]. *)
Variable IsValidVersion : string -> bool.
Variable rn_Create : option Version -> string -> Z -> list GitCommitLog -> ReleaseNote.
(** The flags [all], [size] and [semantic-version-only]. *)
Variable all : bool.
Variable size : Z.
Variable semanticVersionOnly : bool.
Variable relDir : string.
(** The component's tags, as sorted by the handler. *)
Variable componentTags : list TagList.GitTag.

(** [previousTag]: the name of [componentTags[i+1]] when there is one. *)
Definition previousTagAt (i : nat) : string :=
  match componentTags !! (i + 1) with
  | Some t => TagList.Name t
  | None => ""
  end.

(** The range the loop asks the log of, for the tag at index [i]. *)
Definition tagLogRange (i : nat) (tag : TagList.GitTag) : LogRange :=
  NewLogRangeWithPaths TagRange (previousTagAt i) (TagList.Name tag) [relDir].

(** [for i, tag := range componentTags], from the index [i] on, [rest]
    being the tags from there; the error returns from the handler. *)
Fixpoint tagLoop (i : nat) (rest : list TagList.GitTag) (releaseNotes : list ReleaseNote)
  {struct rest} : M G (list ReleaseNote * option TagLoopError) :=
  match rest with
  | [] => mret (releaseNotes, None)
  | tag :: rest' =>
      if negb all && (size <=? Z.of_nat i)%Z then mret (releaseNotes, None)
      else if semanticVersionOnly
              && negb (IsValidVersion (filepath_Base (TagList.Name tag)))
      then tagLoop (S i) rest' releaseNotes
      else
        '(commits, cerr) ← git_Log git (tagLogRange i tag);
        match cerr with
        | Some e => mret ([], Some (ErrTagCommits (TagList.Name tag) e))
        | None =>
            let tagVer := versionOrNil (ToVersion (filepath_Base (TagList.Name tag))) in
            tagLoop (S i) rest'
              (releaseNotes
               ++ [rn_Create tagVer (TagList.Name tag) (TagList.Date tag) commits])
        end
  end.

(** The loop as the handler runs it, after the note of the next version
    if any. *)
Definition changelogTags (releaseNotes : list ReleaseNote)
  : M G (list ReleaseNote * option TagLoopError) :=
  tagLoop 0 componentTags releaseNotes.

(** What the loop may ask the log of: the range of a listed tag, within
    the size when not all are asked for, of a valid version when only
    those are. *)
Definition listedRange (c : Call) : Prop :=
  exists i tag,
    componentTags !! i = Some tag
    /\ c = CallLog (tagLogRange i tag)
    /\ (all = false -> (Z.of_nat i < size)%Z)
    /\ (semanticVersionOnly = true ->
        IsValidVersion (filepath_Base (TagList.Name tag)) = true).

End ChangelogTags.

(** * Theorems *)

(** ** Path parsing *)

Module PathFacts.
Import PathExpr PathGrammar.

Lemma append_assoc (a b c : string) :
  String.append (String.append a b) c = String.append a (String.append b c).
Proof. induction a as [|x a IH]; simpl; [reflexivity | by rewrite IH]. Qed.

Lemma append_nil_r (a : string) : String.append a EmptyString = a.
Proof. induction a as [|x a IH]; simpl; [reflexivity | by rewrite IH]. Qed.

Lemma flush_nonempty segments current :
  current ≠ EmptyString -> flush segments current = segments ++ [current].
Proof. destruct current; [congruence | reflexivity]. Qed.

(** A run of plain bytes is written to the builder. *)
Lemma parseLoop_plain path key : forall tail current segments,
  allChars plainChar key = true ->
  parseLoop path (String.append key tail) current segments
  = parseLoop path tail (String.append current key) segments.
Proof.
  induction key as [|c key IH]; intros tail current segments Hk; simpl.
  - by rewrite append_nil_r.
  - simpl in Hk. apply andb_prop in Hk as [Hc Hk]. unfold plainChar in Hc.
    apply andb_prop in Hc as [Hd Hb].
    apply negb_true_iff in Hd, Hb. rewrite Hd, Hb.
    rewrite IH by assumption. unfold WriteByte. by rewrite append_assoc.
Qed.

(** A bracketed literal ends at the first occurrence of its quote
    character and becomes one segment, whatever bytes it holds. *)
Lemma parseLoop_bracket path q literal tail current segments :
  isQuote q = true ->
  allChars (fun c => negb (Ascii.eqb c q)) literal = true ->
  parseLoop path (String.append (writeSegment (Bracket q literal)) tail) current segments
  = parseLoop path (skipDot tail) EmptyString (flush segments current ++ [literal]).
Proof.
  intros Hq Hl. simpl.
  assert (Hguard : negb (Ascii.eqb q dquote) && negb (Ascii.eqb q squote) = false).
  { unfold isQuote in Hq. apply orb_prop in Hq as [-> | ->]; simpl; [reflexivity|].
    by rewrite andb_false_r. }
  rewrite Hguard. clear Hguard Hq.
  set (segs := flush segments current). clearbody segs.
  match goal with
  | |- ?scan _ EmptyString = _ =>
      enough (Hgen : forall cur,
                scan (String.append (String.append literal (String q (one rbracket))) tail) cur
                = parseLoop path (skipDot tail) EmptyString
                    (segs ++ [String.append cur literal]))
        by exact (Hgen EmptyString)
  end.
  induction literal as [|d lit IH]; intros cur; simpl.
  - rewrite Ascii.eqb_refl. rewrite append_nil_r.
    destruct tail as [|e t]; [reflexivity|].
    unfold skipDot. destruct (Ascii.eqb e dot); reflexivity.
  - simpl in Hl. apply andb_prop in Hl as [Hd Hl]. apply negb_true_iff in Hd.
    rewrite Hd. rewrite (IH Hl). unfold WriteByte. by rewrite append_assoc.
Qed.

Lemma writeSegments_head segs :
  segs ≠ [] -> wfPath segs = true ->
  exists c rest, writeSegments segs = String c rest /\ Ascii.eqb c dot = false.
Proof.
  destruct segs as [|[s d] segs]; [congruence|]. intros _ Hwf. simpl in Hwf.
  apply andb_prop in Hwf as [Hwf _]. apply andb_prop in Hwf as [Hs _].
  destruct s as [key|q literal]; simpl in *.
  - destruct key as [|c key]; [discriminate|]. simpl in Hs.
    apply andb_prop in Hs as [Hc _]. unfold plainChar in Hc.
    apply andb_prop in Hc as [Hc _]. apply negb_true_iff in Hc.
    exists c. eexists. split; [reflexivity | exact Hc].
  - exists lbracket. eexists. split; reflexivity.
Qed.

Lemma skipDot_writeSegments segs :
  wfPath segs = true -> skipDot (writeSegments segs) = writeSegments segs.
Proof.
  intros Hwf. destruct segs as [|sd segs]; [reflexivity|].
  destruct (writeSegments_head (sd :: segs)) as (c & rest & -> & Hc);
    [congruence | assumption |].
  unfold skipDot. by rewrite Hc.
Qed.

(** The loop on a written path, from any state the loop can be in when a
    segment starts: the builder is empty, or holds a key that the next
    bracket will close. *)
Lemma parseLoop_written path : forall segs current segments,
  wfPath segs = true ->
  (current ≠ EmptyString ->
   match segs with (Plain _, _) :: _ => False | _ => True end) ->
  parseLoop path (writeSegments segs) current segments
  = finish path (flush segments current ++ texts segs).
Proof.
  induction segs as [|[s d] rest IH]; intros current segments Hwf Hcur.
  - simpl. by rewrite app_nil_r.
  - pose proof Hwf as Hwf0. simpl in Hwf.
    apply andb_prop in Hwf as [Hwf Hrest]. apply andb_prop in Hwf as [Hs Hadj].
    destruct s as [key|q literal].
    + destruct current as [|c0 current]; [|exfalso; by apply Hcur].
      simpl in Hs. apply andb_prop in Hs as [Hne Hkey].
      apply negb_true_iff, String.eqb_neq in Hne.
      cbn [writeSegments writeSegment]. rewrite parseLoop_plain by assumption.
      cbn [String.append texts map fst text].
      destruct d.
      * cbn [one String.append parseLoop]. assert (Hdd : Ascii.eqb dot dot = true) by reflexivity.
        rewrite Hdd. rewrite IH; [|assumption|congruence].
        rewrite (flush_nonempty _ _ Hne). cbn [flush]. by rewrite <- app_assoc.
      * cbn [String.append]. rewrite IH; [|assumption|].
        -- rewrite (flush_nonempty _ _ Hne). cbn [flush]. by rewrite <- app_assoc.
        -- intros _. destruct rest as [|[[k'|q' l'] d'] rest']; [exact I|discriminate|exact I].
    + simpl in Hs. apply andb_prop in Hs as [Hq Hlit].
      cbn [writeSegments]. rewrite parseLoop_bracket by assumption.
      assert (Hskip : skipDot (String.append (if d then one dot else EmptyString)
                                 (writeSegments rest)) = writeSegments rest).
      { destruct d; [reflexivity|]. by apply skipDot_writeSegments. }
      rewrite Hskip. rewrite IH; [|assumption|congruence].
      cbn [flush texts map fst text]. by rewrite <- app_assoc.
Qed.

(** On a string without brackets the loop keeps the non-empty pieces
    between the dots. *)
Lemma parseLoop_split path : forall s current segments,
  noBracket s = true ->
  parseLoop path s current segments
  = finish path (segments ++ List.filter nonEmpty (splitDotsFrom current s)).
Proof.
  induction s as [|c rest IH]; intros current segments Hnb.
  - simpl. unfold flush, nonEmpty. destruct current; simpl; [by rewrite app_nil_r|reflexivity].
  - unfold noBracket in Hnb. simpl in Hnb. apply andb_prop in Hnb as [Hc Hnb].
    apply negb_true_iff in Hc. simpl. rewrite Hc.
    destruct (Ascii.eqb c dot).
    + rewrite IH by exact Hnb. simpl. unfold flush, nonEmpty at 2.
      destruct current; simpl; [reflexivity | by rewrite <- app_assoc].
    + by rewrite IH.
Qed.

(** C5. Path expression grammar: every expression of the grammar --
    segments separated by dots, an optional leading dot, bracketed literals
    in double or single quotes taken verbatim (dots and backslashes
    included, ended by the first occurrence of the quote character), an
    optional dot after a closing bracket -- parses to the list of its
    segments; every non-empty string without a bracket parses to the
    non-empty pieces between its dots; in particular the paths
    metadata.version and [backstagePath] parse to their two segments, and
    a backslash does not escape the closing quote. *)
Theorem parsePath_grammar :
  (forall leadingDot segs,
     segs ≠ [] -> wfPath segs = true ->
     parsePath (writePath leadingDot segs) = Ok (texts segs))
  /\ (forall path,
        path ≠ "" -> noBracket path = true ->
        parsePath path = finish path (keysBetweenDots path))
  /\ parsePath "metadata.version" = Ok ["metadata"; "version"]
  /\ parsePath backstagePath = Ok ["annotations"; "backstage.io/key"]
  /\ parsePath backslashPath = Ok [aBackslash]
  /\ parsePath backslashQuotePath = Err ErrExpectedClose.
Proof.
  split; [|split; [|repeat split; reflexivity]]; cycle 1.
  { intros path Hne Hnb. destruct path as [|c rest]; [congruence|].
    unfold parsePath, keysBetweenDots, splitDots.
    destruct (Ascii.eqb c dot) eqn:Hc.
    - unfold noBracket in Hnb. simpl in Hnb. apply andb_prop in Hnb as [_ Hnb].
      rewrite parseLoop_split by exact Hnb. simpl. by rewrite Hc.
    - by rewrite parseLoop_split. }
  intros leadingDot segs Hne Hwf.
  assert (Hfin : forall path, finish path (texts segs) = Ok (texts segs)).
  { intros path. destruct segs; [congruence | reflexivity]. }
  unfold writePath. destruct leadingDot.
  - cbn [one String.append parsePath]. assert (Hdd : Ascii.eqb dot dot = true) by reflexivity.
    rewrite Hdd. rewrite parseLoop_written; [apply Hfin | assumption | congruence].
  - cbn [String.append].
    destruct (writeSegments_head segs Hne Hwf) as (c & rest & Heq & Hc).
    unfold parsePath. rewrite Heq, Hc, <- Heq.
    rewrite parseLoop_written; [apply Hfin | assumption | congruence].
Qed.

(** The grammar theorem at a path with a leading dot, a single-quoted
    literal with dots in it and a dot after the closing bracket. *)
Lemma parsePath_grammar_witness :
  parsePath ".metadata.annotations['backstage.io/my-key'].x"
  = Ok ["metadata"; "annotations"; "backstage.io/my-key"; "x"].
Proof.
  exact (proj1 parsePath_grammar true
           [(Plain "metadata", true); (Plain "annotations", false);
            (Bracket squote "backstage.io/my-key", true); (Plain "x", false)]
           ltac:(discriminate) eq_refl).
Defined.

End PathFacts.

(** ** Navigation *)

Module NavigatorFacts.

Lemma getByPath_cons data s0 rest :
  rest ≠ [] ->
  getByPath data (s0 :: rest)
  = match data !! s0 with
    | None => Err (ErrKeyNotFound s0)
    | Some (VMap nested) => getByPath nested rest
    | Some _ => Err (ErrNotAMap s0)
    end.
Proof.
  intros Hne. destruct rest as [|s1 rest]; [congruence|]. simpl.
  destruct (data !! s0) as [[]|]; reflexivity.
Qed.

Lemma setByPath_cons data s0 rest value :
  rest ≠ [] ->
  setByPath data (s0 :: rest) value
  = match data !! s0 with
    | None => (data, Some (ErrKeyNotFound s0))
    | Some (VMap nested) =>
        let '(nested', err) := setByPath nested rest value in
        (<[s0 := VMap nested']> data, err)
    | Some _ => (data, Some (ErrNotAMap s0))
    end.
Proof. intros Hne. destruct rest as [|s1 rest]; [congruence|]. reflexivity. Qed.

Lemma snoc_nonempty {A} (l : list A) (x : A) : l ++ [x] ≠ [].
Proof. destruct l; discriminate. Qed.

(** A failed set leaves the tree as it was, and fails in one of three ways. *)
Lemma setByPath_error segments : forall data value data' e,
  setByPath data segments value = (data', Some e) ->
  data' = data
  /\ (e = ErrEmptyPath \/ exists key, e = ErrKeyNotFound key \/ e = ErrNotAMap key).
Proof.
  induction segments as [|s0 rest IH]; intros data value data' e Hset.
  - simpl in Hset. inversion Hset; subst. split; [reflexivity | by left].
  - destruct rest as [|s1 rest].
    + simpl in Hset. destruct (data !! s0) eqn:Hlk; inversion Hset; subst.
      split; [reflexivity | right; exists s0; by left].
    + rewrite setByPath_cons in Hset by discriminate.
      destruct (data !! s0) as [val|] eqn:Hlk.
      * destruct val as [| | | | |nested];
          try (inversion Hset; subst; split; [reflexivity | right; exists s0; by right]).
        destruct (setByPath nested (s1 :: rest) value) as [nested' err] eqn:Hrec.
        inversion Hset; subst.
        destruct (IH _ _ _ _ Hrec) as [-> Hkind].
        split; [by apply insert_id | exact Hkind].
      * inversion Hset; subst. split; [reflexivity | right; exists s0; by left].
Qed.

(** C9. Set is atomic on failure: whenever [setByPath] returns an error
    (the path is empty, a key is not found at some depth, or an intermediate
    value is not a mapping), the tree it leaves is the tree it was given:
    no key at any level has been added, removed or modified. *)
Theorem setByPath_atomic_on_failure (data : gmap string Value)
  (segments : list string) (value : string) (e : error) :
  snd (setByPath data segments value) = Some e ->
  fst (setByPath data segments value) = data
  /\ (e = ErrEmptyPath \/ exists key, e = ErrKeyNotFound key \/ e = ErrNotAMap key).
Proof.
  destruct (setByPath data segments value) as [data' err] eqn:Hset.
  simpl. intros ->. exact (setByPath_error _ _ _ _ _ Hset).
Qed.

Lemma setByPath_atomic_on_failure_witness :
  fst (setByPath Scenario.scalarInTheWay ["metadata"; "version"] "2.0.0") = Scenario.scalarInTheWay
  /\ (ErrNotAMap "metadata" = ErrEmptyPath
      \/ exists key, ErrNotAMap "metadata" = ErrKeyNotFound key
                     \/ ErrNotAMap "metadata" = ErrNotAMap key).
Proof.
  apply (setByPath_atomic_on_failure Scenario.scalarInTheWay ["metadata"; "version"] "2.0.0").
  vm_compute. reflexivity.
Defined.

(** The three outcomes of a set on a non-empty path, by what the walk over
    the earlier segments finds. *)
Lemma setByPath_cases (init : list string) (last value : string) :
  forall data : gmap string Value,
  match reach data init with
  | Ok m =>
      match m !! last with
      | Some _ =>
          exists data',
            setByPath data (init ++ [last]) value = (data', None)
            /\ reach data' init = Ok (<[last := VString value]> m)
            /\ getByPath data' (init ++ [last]) = Ok (VString value)
      | None =>
          setByPath data (init ++ [last]) value = (data, Some (ErrKeyNotFound last))
          /\ getByPath data (init ++ [last]) = Err (ErrKeyNotFound last)
      end
  | Err e =>
      setByPath data (init ++ [last]) value = (data, Some e)
      /\ getByPath data (init ++ [last]) = Err e
  end.
Proof.
  induction init as [|s0 init IH]; intros data.
  - simpl. destruct (data !! last) as [old|] eqn:Hlk.
    + eexists. split; [reflexivity|]. split; [reflexivity|].
      by rewrite lookup_insert_eq.
    + split; reflexivity.
  - cbn [reach app]. rewrite setByPath_cons, getByPath_cons by apply snoc_nonempty.
    destruct (data !! s0) as [val|] eqn:Hs0; [|split; reflexivity].
    destruct val as [| | | | |nested]; try (split; reflexivity).
    specialize (IH nested). destruct (reach nested init) as [m|e].
    + destruct (m !! last) as [old|].
      * destruct IH as (nested' & Hset & Hreach & Hget).
        rewrite Hset. eexists. split; [reflexivity|]. split.
        -- cbn [reach]. by rewrite lookup_insert_eq.
        -- rewrite getByPath_cons by apply snoc_nonempty.
           by rewrite lookup_insert_eq.
      * destruct IH as [Hset Hget]. rewrite Hset, Hget.
        split; [|reflexivity]. f_equal. by apply insert_id.
    + destruct IH as [Hset Hget]. rewrite Hset, Hget.
      split; [|reflexivity]. f_equal. by apply insert_id.
Qed.

(** C6. Set never creates keys: on a non-empty path [init ++ [last]],
    [setByPath] succeeds exactly when the walk over [init] reaches a mapping
    that already has the key [last], and then the value under that key is
    the new string; when the key is absent it fails with key-not-found and
    adds nothing; and when the walk fails (a key is absent, or a value on
    the way is not a mapping) it fails with the very error [getByPath]
    gives on the same input. *)
Theorem setByPath_never_creates_keys (init : list string) (last value : string)
  (data : gmap string Value) :
  match reach data init with
  | Ok m =>
      match m !! last with
      | Some _ =>
          exists data',
            setByPath data (init ++ [last]) value = (data', None)
            /\ reach data' init = Ok (<[last := VString value]> m)
            /\ getByPath data' (init ++ [last]) = Ok (VString value)
      | None =>
          setByPath data (init ++ [last]) value = (data, Some (ErrKeyNotFound last))
          /\ getByPath data (init ++ [last]) = Err (ErrKeyNotFound last)
      end
  | Err e =>
      setByPath data (init ++ [last]) value = (data, Some e)
      /\ getByPath data (init ++ [last]) = Err e
  end
  /\ (forall data',
        setByPath data (init ++ [last]) value = (data', None) ->
        exists m, reach data init = Ok m /\ is_Some (m !! last)).
Proof.
  pose proof (setByPath_cases init last value data) as H.
  split; [exact H|]. intros data' Hset.
  destruct (reach data init) as [m|e].
  - exists m. split; [reflexivity|]. destruct (m !! last); [by eexists|].
    destruct H as [H _]. congruence.
  - destruct H as [H _]. congruence.
Qed.

(** The theorem at a nested document: the key exists and is replaced. *)
Lemma setByPath_never_creates_keys_witness :
  exists m, reach {[ "metadata" := VMap {[ "version" := VString "1.0.0" ]} ]} ["metadata"] = Ok m
            /\ is_Some (m !! "version").
Proof.
  apply (proj2 (setByPath_never_creates_keys ["metadata"] "version" "1.1.0"
                  {[ "metadata" := VMap {[ "version" := VString "1.0.0" ]} ]})
           {[ "metadata" := VMap {[ "version" := VString "1.1.0" ]} ]}).
  vm_compute. reflexivity.
Defined.

End NavigatorFacts.

(** ** Reading and writing the versioning document *)

Section FileFacts.
Context {P : Platform}.

Lemma setByPath_then_get segments : forall data value data',
  setByPath data segments value = (data', None) ->
  getByPath data' segments = Ok (VString value).
Proof.
  induction segments as [|s0 rest IH]; intros data value data' Hset.
  - discriminate.
  - destruct rest as [|s1 rest].
    + simpl in Hset. destruct (data !! s0); inversion Hset; subst.
      simpl. by rewrite lookup_insert_eq.
    + rewrite NavigatorFacts.setByPath_cons in Hset by discriminate.
      destruct (data !! s0) as [[| | | | |nested]|]; try discriminate.
      destruct (setByPath nested (s1 :: rest) value) as [nested' err] eqn:Hrec.
      inversion Hset; subst.
      rewrite NavigatorFacts.getByPath_cons by discriminate.
      rewrite lookup_insert_eq. by eapply IH.
Qed.

Lemma marshalToFile_encoded fs filePath data :
  marshalToFile fs filePath data
  = match encoded filePath data with
    | Err e => (fs, Some e)
    | Ok out => os_WriteFile fs filePath out
    end.
Proof.
  unfold marshalToFile, encoded. destruct (isJSON filePath).
  - destruct (json_MarshalIndent data); reflexivity.
  - destruct (yaml_Marshal data); reflexivity.
Qed.

Lemma os_WriteFile_then_read fs name data fs' :
  os_WriteFile fs name data = (fs', None) -> os_ReadFile fs' name = Ok data.
Proof.
  unfold os_WriteFile, os_ReadFile. case_decide; intros Hw; inversion Hw; subst.
  simpl. by rewrite lookup_insert_eq.
Qed.

(** What a successful write went through. *)
Lemma writeVersionToFile_success fs filePath dotPath version fs' :
  writeVersionToFile fs filePath dotPath version = (fs', None) ->
  exists content data segments data' out,
    os_ReadFile fs filePath = Ok content
    /\ parseFileContent filePath content = Ok data
    /\ PathExpr.parsePath dotPath = Ok segments
    /\ setByPath data segments version = (data', None)
    /\ encoded filePath data' = Ok out
    /\ os_WriteFile fs filePath out = (fs', None).
Proof.
  unfold writeVersionToFile. intros Hw.
  destruct (os_ReadFile fs filePath) as [content|] eqn:Hread; [|discriminate].
  destruct (parseFileContent filePath content) as [data|] eqn:Hdec; [|discriminate].
  destruct (PathExpr.parsePath dotPath) as [segments|] eqn:Hpath; [|discriminate].
  destruct (setByPath data segments version) as [data' [e|]] eqn:Hset; [discriminate|].
  rewrite marshalToFile_encoded in Hw.
  destruct (encoded filePath data') as [out|] eqn:Henc; [|discriminate].
  exists content, data, segments, data', out. repeat split; assumption || reflexivity.
Qed.

(** C7. Write-then-read round trip: when [UpdateVersion] writes a version
    into a component's document and the write succeeds, then -- the codec
    being faithful at the bytes written -- decoding the written bytes and
    navigating to the same path yields the version's original literal
    string, as it is, not its canonical form. *)
Theorem write_then_read_roundtrip (fs fs' : FileSystem)
  (component : MonorepoComponent) (version : Version) (cfg : MonorepoConfig) :
  Impl_UpdateVersion fs component version cfg = (fs', None) ->
  (forall written,
     os_ReadFile fs' (VersioningFilePath component) = Ok written ->
     codecFaithfulAt (VersioningFilePath component) written) ->
  exists written data segments,
    os_ReadFile fs' (VersioningFilePath component) = Ok written
    /\ parseFileContent (VersioningFilePath component) written = Ok data
    /\ PathExpr.parsePath (Path cfg) = Ok segments
    /\ getByPath data segments = Ok (VString (Original version)).
Proof.
  unfold Impl_UpdateVersion. intros Hw Hcodec.
  apply writeVersionToFile_success in Hw
    as (content & data & segments & data' & out & _ & _ & Hpath & Hset & Henc & Hwrite).
  apply os_WriteFile_then_read in Hwrite.
  exists out, data', segments. split; [exact Hwrite|].
  split; [exact (Hcodec out Hwrite data' Henc)|].
  split; [exact Hpath|]. by apply setByPath_then_get in Hset.
Qed.

Lemma readFailure_Err fs dotPath matchPath :
  ReadFailure fs dotPath matchPath ->
  exists e, readVersionFromFile fs matchPath dotPath = Err e.
Proof.
  unfold readVersionFromFile, ReadVersionFromBytes.
  intros [e Hr|content e Hr Hd|e Hp|content data segments e Hr Hd Hp Hg
         |content data segments raw Hr Hd Hp Hg Hraw
         |content data segments vstr e Hr Hd Hp Hg Hv].
  - rewrite Hr. by eexists.
  - rewrite Hr, Hd. by eexists.
  - destruct (os_ReadFile fs matchPath) as [content|]; [|by eexists].
    destruct (parseFileContent matchPath content); [|by eexists].
    rewrite Hp. by eexists.
  - rewrite Hr, Hd, Hp, Hg. by eexists.
  - rewrite Hr, Hd, Hp, Hg. destruct raw; try by eexists. by destruct (Hraw s).
  - rewrite Hr, Hd, Hp, Hg, Hv. by eexists.
Qed.

Lemma findLoop_fails fs cfg : forall matches components matchPath e,
  matchPath ∈ matches ->
  readVersionFromFile fs matchPath (Path cfg) = Err e ->
  exists failing e',
    failing ∈ matches
    /\ readVersionFromFile fs failing (Path cfg) = Err e'
    /\ findLoop fs cfg matches components = ([], Some (ErrReadingVersion failing e')).
Proof.
  induction matches as [|m rest IH]; intros components matchPath e Hin Hfail.
  - by apply elem_of_nil in Hin.
  - simpl. destruct (readVersionFromFile fs m (Path cfg)) as [v|e0] eqn:Hm.
    + apply elem_of_cons in Hin as [->|Hin]; [congruence|].
      destruct (IH (components ++ [ {| Name := filepath_Base (filepath_Dir m);
                                       RootPath := filepath_Dir m;
                                       VersioningFilePath := m;
                                       CurrentVersion := Some v |} ])
                   matchPath e Hin Hfail) as (failing & e' & Hf & He & Hloop).
      exists failing, e'. split; [by apply elem_of_cons; right|]. by split.
    + exists m, e0. split; [by apply elem_of_cons; left|]. by split.
Qed.

Lemma findLoop_error_empty fs cfg : forall matches components r e,
  findLoop fs cfg matches components = (r, Some e) -> r = [].
Proof.
  induction matches as [|m rest IH]; intros components r e Hloop; simpl in Hloop.
  - discriminate.
  - destruct (readVersionFromFile fs m (Path cfg)); [by eapply IH|].
    by inversion Hloop.
Qed.

(** C8. Discovery is fail-fast with no partial results: with a configured
    pattern, [FindComponents] fails when the pattern cannot be compiled and
    when it matches no file; when reading (decoding, navigation, the check
    that the leaf is a string, version parsing) fails for any one of the
    matches it returns an error for a failing match and no component; and
    whatever the error, the list returned with it is empty. *)
Theorem FindComponents_fail_fast (fs : FileSystem) (repoRoot : string)
  (cfg : MonorepoConfig) :
  VersioningFile cfg ≠ "" ->
  let globbed := filepath_Glob (dom (files fs)) (filepath_Join repoRoot (VersioningFile cfg)) in
  let found := Impl_FindComponents fs repoRoot cfg in
  (forall e, snd globbed = Some e ->
     found = ([], Some (ErrInvalidGlob (VersioningFile cfg) e)))
  /\ (globbed = ([], None) ->
      found = ([], Some (ErrNoFilesMatched (VersioningFile cfg))))
  /\ (forall matchPath,
        snd globbed = None -> matchPath ∈ fst globbed ->
        ReadFailure fs (Path cfg) matchPath ->
        exists failing e,
          failing ∈ fst globbed
          /\ readVersionFromFile fs failing (Path cfg) = Err e
          /\ found = ([], Some (ErrReadingVersion failing e)))
  /\ (forall e, snd found = Some e -> fst found = []).
Proof.
  intros Hcfg globbed found. subst found. unfold Impl_FindComponents.
  apply String.eqb_neq in Hcfg. rewrite Hcfg. fold globbed.
  destruct globbed as [matches [ge|]]; simpl.
  - repeat split; congruence.
  - split; [discriminate|]. split; [by intros [= ->]|]. split.
    + intros matchPath _ Hin Hfail. apply readFailure_Err in Hfail as [e He].
      destruct matches as [|m rest]; [by apply elem_of_nil in Hin|].
      by eapply findLoop_fails.
    + intros e. destruct matches as [|m rest]; [reflexivity|].
      destruct (findLoop fs cfg (m :: rest) []) as [r [e'|]] eqn:Hloop; [|discriminate].
      intros _. by eapply findLoop_error_empty.
Qed.

End FileFacts.

(** ** Baseline resolution *)

Section ResolverFacts.
Context {G : Type} {P : Platform}.
Variable git : Git G.
Variable repoPath : string.

Ltac run :=
  unfold mbind, M_bind, bind, mret, M_ret, ret, git_LastComponentTag, git_Log,
    git_LastFileCommit, git_ShowFile, gitRead, record.

(** Priority 1: the tag answers; two calls are made. *)
Lemma baseline_tag component dotPath (s : State G) relDir :
  filepath_Rel repoPath (RootPath component) = Ok relDir ->
  LastComponentTag git (repo s) relDir ≠ "" ->
  componentBaseVersionAndCommits git repoPath component dotPath s
  = let lastTag := LastComponentTag git (repo s) relDir in
    let logged := Log git (repo s) (tagRange lastTag relDir) in
    Done (versionOrNil (ToVersion (filepath_Base lastTag)), fst logged, snd logged)
         (recorded [CallLastComponentTag relDir; CallLog (tagRange lastTag relDir)] s).
Proof.
  intros Hrel Htag. unfold componentBaseVersionAndCommits. rewrite Hrel. run. simpl.
  apply String.eqb_neq in Htag. rewrite Htag. simpl.
  unfold tagRange, recorded.
  destruct (Log git (repo s) _) as [commits cerr]. simpl.
  by rewrite <- app_assoc.
Qed.

(** Priority 2: no tag, and the versioning document has a last commit. *)
Lemma baseline_file_commit component dotPath (s : State G) relDir relFile :
  filepath_Rel repoPath (RootPath component) = Ok relDir ->
  LastComponentTag git (repo s) relDir = "" ->
  filepath_Rel repoPath (VersioningFilePath component) = Ok relFile ->
  LastFileCommit git (repo s) relFile ≠ "" ->
  componentBaseVersionAndCommits git repoPath component dotPath s
  = let fileCommit := LastFileCommit git (repo s) relFile in
    let lr := hashRange fileCommit relDir in
    match Log git (repo s) lr with
    | (_, Some e) =>
        Done (None, [], Some e)
             (recorded [CallLastComponentTag relDir; CallLastFileCommit relFile; CallLog lr] s)
    | (commits, None) =>
        let base :=
          match ShowFile git (repo s) fileCommit relFile with
          | (content, None) =>
              match ReadVersionFromBytes (VersioningFilePath component) content dotPath with
              | Ok baseVer => Some baseVer
              | Err _ => CurrentVersion component
              end
          | (_, Some _) => CurrentVersion component
          end in
        Done (base, commits, None)
             (recorded [CallLastComponentTag relDir; CallLastFileCommit relFile;
                        CallLog lr; CallShowFile fileCommit relFile] s)
    end.
Proof.
  intros Hrel Htag Hfile Hcommit. unfold componentBaseVersionAndCommits.
  rewrite Hrel. run. simpl. rewrite Htag. simpl. rewrite Hfile. simpl.
  apply String.eqb_neq in Hcommit. rewrite Hcommit. simpl.
  unfold baselineFileCommit. run. simpl. unfold hashRange, recorded.
  destruct (Log git (repo s) _) as [commits [e|]]; simpl.
  - by rewrite <- !app_assoc.
  - destruct (ShowFile git (repo s) _ relFile) as [content [e|]]; simpl.
    + by rewrite <- !app_assoc.
    + destruct (ReadVersionFromBytes _ content dotPath); by rewrite <- !app_assoc.
Qed.

(** Priority 3: no tag and no last commit of the versioning document. *)
Lemma baseline_all_commits component dotPath (s : State G) relDir :
  filepath_Rel repoPath (RootPath component) = Ok relDir ->
  LastComponentTag git (repo s) relDir = "" ->
  (forall relFile,
     filepath_Rel repoPath (VersioningFilePath component) = Ok relFile ->
     LastFileCommit git (repo s) relFile = "") ->
  componentBaseVersionAndCommits git repoPath component dotPath s
  = let logged := Log git (repo s) (tagRange "" relDir) in
    Done (CurrentVersion component, fst logged, snd logged)
         (recorded
            (CallLastComponentTag relDir
             :: match filepath_Rel repoPath (VersioningFilePath component) with
                | Ok relFile => [CallLastFileCommit relFile]
                | Err _ => []
                end ++ [CallLog (tagRange "" relDir)]) s).
Proof.
  intros Hrel Htag Hnone. unfold componentBaseVersionAndCommits.
  rewrite Hrel. run. simpl. rewrite Htag. simpl.
  destruct (filepath_Rel repoPath (VersioningFilePath component)) as [relFile|e].
  - simpl. rewrite (Hnone relFile eq_refl). simpl. unfold baselineAllCommits. run. simpl.
    unfold tagRange, recorded. destruct (Log git (repo s) _) as [commits cerr]. simpl.
    by rewrite <- !app_assoc.
  - unfold baselineAllCommits. run. simpl.
    unfold tagRange, recorded. destruct (Log git (repo s) _) as [commits cerr]. simpl.
    by rewrite <- !app_assoc.
Qed.

(** C1. Baseline tier selection: the three tiers are tried in order and the
    first success wins.  With a non-empty last component tag the base is
    the version parsed from the tag's base name and the commits are those of
    the range from the tag to the working tree under the component's
    directory, and only [LastComponentTag] and [Log] are called, whatever
    the history of the versioning document.  With no tag and a last commit
    of the versioning document, the range starts at that commit.  With
    neither, the base is the current on-disk version and the range is
    unbounded, under the component's directory. *)
Theorem baseline_tier_selection (component : MonorepoComponent) (dotPath : string)
  (s : State G) (relDir : string) :
  filepath_Rel repoPath (RootPath component) = Ok relDir ->
  let lastTag := LastComponentTag git (repo s) relDir in
  let resolved := componentBaseVersionAndCommits git repoPath component dotPath s in
  (lastTag ≠ "" ->
   let logged := Log git (repo s) (tagRange lastTag relDir) in
   resolved
   = Done (versionOrNil (ToVersion (filepath_Base lastTag)), fst logged, snd logged)
          (recorded [CallLastComponentTag relDir; CallLog (tagRange lastTag relDir)] s))
  /\ (lastTag = "" ->
      forall relFile,
        filepath_Rel repoPath (VersioningFilePath component) = Ok relFile ->
        let fileCommit := LastFileCommit git (repo s) relFile in
        fileCommit ≠ "" ->
        let logged := Log git (repo s) (hashRange fileCommit relDir) in
        exists base s',
          resolved
          = Done (base, match snd logged with None => fst logged | Some _ => [] end,
                  snd logged) s'
          /\ take 3 (callsSince s resolved)
              = [CallLastComponentTag relDir; CallLastFileCommit relFile;
                 CallLog (hashRange fileCommit relDir)])
  /\ (lastTag = "" ->
      (forall relFile,
         filepath_Rel repoPath (VersioningFilePath component) = Ok relFile ->
         LastFileCommit git (repo s) relFile = "") ->
      let logged := Log git (repo s) (tagRange "" relDir) in
      exists s',
        resolved = Done (CurrentVersion component, fst logged, snd logged) s'
        /\ anchors (callsSince s resolved)
            = match filepath_Rel repoPath (VersioningFilePath component) with
              | Ok relFile => [CallLastFileCommit relFile]
              | Err _ => []
              end).
Proof.
  intros Hrel lastTag resolved. split; [|split].
  - intros Htag. exact (baseline_tag component dotPath s relDir Hrel Htag).
  - intros Htag relFile Hfile fileCommit Hcommit logged. subst resolved.
    rewrite (baseline_file_commit component dotPath s relDir relFile Hrel Htag Hfile Hcommit).
    cbv zeta. fold fileCommit. fold logged.
    destruct logged as [commits [e|]]; simpl.
    + eexists _, _. split; [reflexivity|]. unfold callsSince. simpl.
      by rewrite drop_app_length.
    + eexists _, _. split; [reflexivity|]. unfold callsSince. simpl.
      by rewrite drop_app_length.
  - intros Htag Hnone logged. subst resolved.
    rewrite (baseline_all_commits component dotPath s relDir Hrel Htag Hnone).
    cbv zeta. eexists. split; [reflexivity|]. unfold callsSince. simpl.
    rewrite drop_app_length.
    destruct (filepath_Rel repoPath (VersioningFilePath component)); reflexivity.
Qed.

(** C2. Tier-2 anchoring and fallback: with no component tag, a last commit
    of the versioning document and the log since that commit, the base is
    the version read from the bytes [ShowFile] returns for that commit,
    whatever the working tree and the component's current version are; when
    [ShowFile] fails or no version can be read from its bytes, the base is
    the component's current version, the commits are still those since the
    file's commit, and no error is returned. *)
Theorem tier2_anchor_and_fallback (component : MonorepoComponent) (dotPath : string)
  (s : State G) (relDir relFile : string) (commits : list GitCommitLog) :
  filepath_Rel repoPath (RootPath component) = Ok relDir ->
  LastComponentTag git (repo s) relDir = "" ->
  filepath_Rel repoPath (VersioningFilePath component) = Ok relFile ->
  let fileCommit := LastFileCommit git (repo s) relFile in
  fileCommit ≠ "" ->
  Log git (repo s) (hashRange fileCommit relDir) = (commits, None) ->
  let shown := ShowFile git (repo s) fileCommit relFile in
  let after :=
    recorded [CallLastComponentTag relDir; CallLastFileCommit relFile;
              CallLog (hashRange fileCommit relDir); CallShowFile fileCommit relFile] s in
  let resolved := componentBaseVersionAndCommits git repoPath component dotPath s in
  (forall baseVer,
     snd shown = None ->
     ReadVersionFromBytes (VersioningFilePath component) (fst shown) dotPath = Ok baseVer ->
     resolved = Done (Some baseVer, commits, None) after)
  /\ (forall e, snd shown = Some e ->
      resolved = Done (CurrentVersion component, commits, None) after)
  /\ (forall e,
      ReadVersionFromBytes (VersioningFilePath component) (fst shown) dotPath = Err e ->
      resolved = Done (CurrentVersion component, commits, None) after).
Proof.
  intros Hrel Htag Hfile fileCommit Hcommit Hlog shown after resolved.
  subst resolved.
  rewrite (baseline_file_commit component dotPath s relDir relFile Hrel Htag Hfile Hcommit).
  cbv zeta. fold fileCommit. rewrite Hlog. fold shown. fold after.
  destruct shown as [content [serr|]]; simpl.
  - split; [discriminate|]. split; [reflexivity|]. reflexivity.
  - split; [|split; [discriminate|]].
    + intros baseVer _ ->. reflexivity.
    + intros e ->. reflexivity.
Qed.

End ResolverFacts.

(** ** The handlers *)

Section HandlerFacts.
Context {G : Type} {P : Platform}.
Variable git : Git G.
Variable semverProcessor : SemVerCommitsProcessor.
Variable monorepoProcessor : MonorepoProcessor.
Variable cfg : MonorepoConfig.
Variable repoPath : string.

Ltac run :=
  unfold mbind, M_bind, bind, mret, M_ret, ret, git_LastComponentTag, git_Log,
    git_LastFileCommit, git_ShowFile, git_TagForComponent, proc_UpdateVersion,
    proc_FindComponents, gitRead, gitWrite, fsRead, fsWrite, printf, deref, record.

Lemma updates_app cs cs' : updates (cs ++ cs') = updates cs ++ updates cs'.
Proof. unfold updates. apply omap_app. Qed.

Lemma anchor_app cs cs' : anchors (cs ++ cs') = anchors cs ++ anchors cs'.
Proof. apply filter_app. Qed.

Lemma callsSince_recorded {A} (a : A) cs (s : State G) :
  callsSince s (Done a (recorded cs s)) = cs.
Proof. unfold callsSince. simpl. by rewrite drop_app_length. Qed.

(** The baseline resolver returns, reads the repository only, and writes
    nothing. *)
Lemma resolver_frame component dotPath (s : State G) :
  exists r cs,
    componentBaseVersionAndCommits git repoPath component dotPath s
    = Done r (recorded cs s)
    /\ updates cs = [].
Proof.
  destruct (filepath_Rel repoPath (RootPath component)) as [relDir|e] eqn:Hrel.
  - destruct (decide (LastComponentTag git (repo s) relDir = "")) as [Htag|Htag].
    + destruct (filepath_Rel repoPath (VersioningFilePath component))
        as [relFile|e] eqn:Hfile.
      * destruct (decide (LastFileCommit git (repo s) relFile = "")) as [Hc|Hc].
        -- rewrite (baseline_all_commits git repoPath component dotPath s relDir Hrel Htag).
           ++ cbv zeta. rewrite Hfile. (eexists _, _; split; reflexivity).
           ++ intros relFile' Heq. rewrite Hfile in Heq. by injection Heq as <-.
        -- rewrite (baseline_file_commit git repoPath component dotPath s relDir relFile
                      Hrel Htag Hfile Hc).
           cbv zeta. destruct (Log git (repo s) _) as [commits [e|]]; (eexists _, _; split; reflexivity).
      * rewrite (baseline_all_commits git repoPath component dotPath s relDir Hrel Htag).
        -- cbv zeta. rewrite Hfile. (eexists _, _; split; reflexivity).
        -- intros relFile' Heq. congruence.
    + rewrite (baseline_tag git repoPath component dotPath s relDir Hrel Htag).
      cbv zeta. (eexists _, _; split; reflexivity).
  - unfold componentBaseVersionAndCommits. rewrite Hrel. run.
    exists (None, [], Some e), []. split; [|reflexivity].
    unfold recorded. destruct s; simpl. by rewrite app_nil_r.
Qed.

Lemma updateVersionBody_run component (s : State G) :
  exists baseVer commits cerr cs,
    componentBaseVersionAndCommits git repoPath component (Path cfg) s
    = Done (baseVer, commits, cerr) (recorded cs s)
    /\ updates cs = []
    /\ updateVersionBody git semverProcessor monorepoProcessor cfg repoPath component s
       = afterBaseline semverProcessor monorepoProcessor cfg component baseVer commits cerr
           (recorded cs s).
Proof.
  destruct (resolver_frame component (Path cfg) s)
    as ([[baseVer commits] cerr] & cs & Hres & Hup).
  exists baseVer, commits, cerr, cs. split; [exact Hres|]. split; [exact Hup|].
  unfold updateVersionBody, afterBaseline.
  unfold mbind at 1. unfold M_bind at 1. unfold bind at 1. rewrite Hres.
  destruct cerr as [e|]; [reflexivity|].
  destruct (SemverNextVersion semverProcessor baseVer commits) as [nextVer updated].
  destruct updated; simpl.
  - destruct (Equal nextVer (CurrentVersion component)).
    + run. destruct (CurrentVersion component); reflexivity.
    + run. destruct nextVer as [next|]; [|reflexivity]. simpl.
      destruct (UpdateVersion monorepoProcessor (fs s) component next cfg)
        as [fs' [e|]]; reflexivity.
  - run. destruct baseVer; reflexivity.
Qed.

(** An invariant of the states of a loop holds of its last state. *)
Lemma forEach_invariant (Inv : State G -> Prop)
  (body : MonorepoComponent -> M G (option error)) :
  (forall component s, Inv s -> Inv (finalState (body component s))) ->
  forall components s, Inv s -> Inv (finalState (forEach body components s)).
Proof.
  intros Hbody. induction components as [|component rest IH]; intros s Hs.
  - exact Hs.
  - simpl. run. specialize (Hbody component s Hs).
    destruct (body component s) as [[e|] s'|s']; simpl in *; auto.
Qed.

Lemma updateVersionBody_writes component (s : State G) :
  exists baseVer commits cerr cs,
    componentBaseVersionAndCommits git repoPath component (Path cfg) s
    = Done (baseVer, commits, cerr) (recorded cs s)
    /\ let nextVer := fst (SemverNextVersion semverProcessor baseVer commits) in
       let updated := snd (SemverNextVersion semverProcessor baseVer commits) in
       let ran := updateVersionBody git semverProcessor monorepoProcessor cfg repoPath
                    component s in
       let written :=
         match cerr, nextVer with
         | None, Some next =>
             if updated && negb (Equal nextVer (CurrentVersion component))
             then [(component, next)] else []
         | _, _ => []
         end in
       updates (callsSince s ran) = written
       /\ updates (calls (finalState ran)) = updates (calls s) ++ written
       /\ (updated = false \/ Equal nextVer (CurrentVersion component) = true ->
           fs (finalState ran) = fs s).
Proof.
  destruct (updateVersionBody_run component s)
    as (baseVer & commits & cerr & cs & Hres & Hup & Hbody).
  exists baseVer, commits, cerr, cs. split; [exact Hres|]. cbv zeta.
  rewrite Hbody. unfold afterBaseline, callsSince.
  destruct (SemverNextVersion semverProcessor baseVer commits) as [nextVer updated].
  destruct cerr as [e|]; simpl;
    [|destruct updated; simpl;
      [destruct (Equal nextVer (CurrentVersion component)) eqn:Heq; simpl|]];
    repeat match goal with
           | |- context [match ?x with _ => _ end] => destruct x eqn:?
           end; simpl;
    rewrite <- ?app_assoc, ?drop_app_length, ?updates_app, ?Hup, ?app_nil_r; simpl;
    repeat split; try reflexivity; try (intros [?|?]; congruence).
Qed.

(** C3. Idempotency enforcement point: in the bump flow, for every
    component, [UpdateVersion] is called exactly when the baseline resolved
    without error, the bump resolver reports a change and the next version
    is not equal to the component's current on-disk version; when the
    resolver reports no change, or the next version equals the current one,
    nothing is written and the working tree is as it was.  Over the whole
    handler, every write it makes is one the resolver reported as a change
    to a version that differs from the component's current version. *)
Theorem update_only_when_changed_and_different :
  (forall component (s : State G),
     exists baseVer commits cerr s1,
       componentBaseVersionAndCommits git repoPath component (Path cfg) s
       = Done (baseVer, commits, cerr) s1
       /\ let nextVer := fst (SemverNextVersion semverProcessor baseVer commits) in
          let updated := snd (SemverNextVersion semverProcessor baseVer commits) in
          let ran := updateVersionBody git semverProcessor monorepoProcessor cfg repoPath
                       component s in
          updates (callsSince s ran)
          = match cerr, nextVer with
            | None, Some next =>
                if updated && negb (Equal nextVer (CurrentVersion component))
                then [(component, next)] else []
            | _, _ => []
            end
          /\ (updated = false \/ Equal nextVer (CurrentVersion component) = true ->
              updates (callsSince s ran) = [] /\ fs (finalState ran) = fs s))
  /\ (forall (s : State G) component version,
        (component, version)
          ∈ updates (calls (finalState
               (monorepoUpdateVersionHandler git semverProcessor monorepoProcessor
                  cfg repoPath s))) ->
        (component, version) ∈ updates (calls s)
        \/ writeJustified git semverProcessor cfg repoPath component version).
Proof.
  split.
  - intros component s.
    destruct (updateVersionBody_writes component s)
      as (baseVer & commits & cerr & cs & Hres & Hwritten & _ & Hfs).
    exists baseVer, commits, cerr, (recorded cs s). split; [exact Hres|].
    cbv zeta. split; [exact Hwritten|]. intros Hskip. split; [|by apply Hfs].
    rewrite Hwritten. destruct cerr; [reflexivity|]. destruct (fst _); [|reflexivity].
    destruct Hskip as [-> | ->]; [reflexivity|]. by rewrite andb_false_r.
  - intros s.
    set (Inv := fun s' : State G =>
                  forall component version,
                    (component, version) ∈ updates (calls s') ->
                    (component, version) ∈ updates (calls s)
                    \/ writeJustified git semverProcessor cfg repoPath component version).
    enough (HInv : Inv (finalState
                     (monorepoUpdateVersionHandler git semverProcessor
                        monorepoProcessor cfg repoPath s))) by exact HInv.
    unfold monorepoUpdateVersionHandler. run.
    destruct (FindComponents monorepoProcessor (fs s) repoPath cfg)
      as [components [e|]]; simpl.
    { intros component version. simpl. rewrite updates_app, app_nil_r. by left. }
    apply forEach_invariant.
    + intros component s' Hs' c v.
      destruct (updateVersionBody_writes component s')
        as (baseVer & commits & cerr & cs & Hres & _ & Hall & _).
      cbv zeta in Hall. rewrite Hall. intros [Hin|Hin]%elem_of_app; [by apply Hs'|].
      right. destruct cerr as [e|]; [by apply elem_of_nil in Hin|].
      destruct (SemverNextVersion semverProcessor baseVer commits)
        as [nextVer updated] eqn:Hsem. simpl in Hin.
      destruct nextVer as [next|]; [|by apply elem_of_nil in Hin].
      destruct updated; simpl in Hin; [|by apply elem_of_nil in Hin].
      destruct (Equal (Some next) (CurrentVersion component)) eqn:Heq; simpl in Hin;
        [by apply elem_of_nil in Hin|].
      apply list_elem_of_singleton in Hin. injection Hin as -> ->.
      by exists s', (recorded cs s'), baseVer, commits.
    + intros component version. simpl. rewrite updates_app, app_nil_r. by left.
Qed.

Lemma componentCommits_frame component (s : State G) :
  exists r cs,
    componentCommits git repoPath component s = Done r (recorded cs s)
    /\ anchors cs = [].
Proof.
  unfold componentCommits.
  destruct (filepath_Rel repoPath (RootPath component)) as [relDir|e].
  - run. simpl. eexists _, _. split.
    + unfold recorded. simpl. rewrite <- app_assoc. reflexivity.
    + reflexivity.
  - run. exists ([], Some e), []. split; [|reflexivity].
    unfold recorded. destruct s; simpl. by rewrite app_nil_r.
Qed.

(** The body of the tag loop never asks for the last commit of the
    versioning document nor for its content at a commit. *)
Lemma tagBody_no_anchor (processor : MonorepoProcessor) component (s : State G) :
  anchors (calls (finalState
     (tagBody git semverProcessor processor cfg repoPath component s)))
  = anchors (calls s).
Proof.
  destruct (componentCommits_frame component s) as ([commits cerr] & cs & Hc & Hanc).
  unfold tagBody. unfold mbind at 1. unfold M_bind at 1. unfold bind at 1. rewrite Hc.
  destruct cerr as [e|]; simpl; [by rewrite anchor_app, Hanc, app_nil_r|].
  destruct (NextVersion processor component commits semverProcessor)
    as [nextVer updated].
  destruct updated; simpl; run.
  - destruct nextVer as [next|]; simpl; [|by rewrite anchor_app, Hanc, app_nil_r].
    destruct (UpdateVersion processor (fs s) component next cfg) as [fs' [e|]];
      simpl; [by rewrite !anchor_app, Hanc, !app_nil_r|].
    destruct (filepath_Rel repoPath (RootPath component)) as [relDir|e]; simpl;
      [|by rewrite !anchor_app, Hanc, !app_nil_r].
    destruct (TagForComponent git (repo s) next relDir) as [g' [name [e|]]]; simpl;
      by rewrite !anchor_app, Hanc, !app_nil_r.
  - destruct (CurrentVersion component); simpl; by rewrite anchor_app, Hanc, app_nil_r.
Qed.

(** A loop that got through the components before one without an error
    runs the body on that one in the state they left, stops at its error and
    goes on with the components after it otherwise. *)
Lemma forEach_reaches (body : MonorepoComponent -> M G (option error)) :
  forall before component after (s0 s1 : State G),
    forEach body before s0 = Done None s1 ->
    forEach body (before ++ component :: after) s0
    = match body component s1 with
      | Done None s2 => forEach body after s2
      | Done (Some e) s2 => Done (Some e) s2
      | Panic s2 => Panic s2
      end.
Proof.
  induction before as [|c0 before IH]; intros component after s0 s1 Hbefore.
  - injection Hbefore as <-. simpl. run.
    destruct (body component s0) as [[e|] s2|s2]; reflexivity.
  - simpl in *. revert Hbefore. run.
    destruct (body c0 s0) as [[e|] s'|s']; try discriminate. apply IH.
Qed.

(** C10. The tag flow does not use the tier-2/tier-3 anchor: for every
    component the tag flow asks for the last component tag and for the log
    of the range that starts at that tag (unbounded when there is none),
    under the component's directory, and passes the component's current
    on-disk version as the base to the bump resolver; when the resolver
    reports a change it calls [UpdateVersion] and, the write done,
    [TagForComponent] with the next version, without comparing it to the
    current version; and [LastFileCommit] and [ShowFile] are never called
    on this path.  The handler itself: when discovery fails it returns that
    error after the one call of [FindComponents]; otherwise it runs this
    body on every component found, in order, each in the state left by the
    components before it, and stops at the first error of a body. *)
Theorem tag_flow_ignores_file_anchor :
  (forall component (s : State G) relDir commits,
     filepath_Rel repoPath (RootPath component) = Ok relDir ->
     let range := tagRange (LastComponentTag git (repo s) relDir) relDir in
     Log git (repo s) range = (commits, None) ->
     let ran := tagBody git semverProcessor MonorepoProcessorImpl cfg repoPath
                  component s in
     let resolved := SemverNextVersion semverProcessor (CurrentVersion component) commits in
     (snd resolved = false ->
      callsSince s ran = [CallLastComponentTag relDir; CallLog range]
      /\ fs (finalState ran) = fs s)
     /\ (forall next,
          resolved = (Some next, true) ->
          let written := Impl_UpdateVersion (fs s) component next cfg in
          callsSince s ran
          = [CallLastComponentTag relDir; CallLog range; CallUpdateVersion component next]
            ++ match snd written with
               | None => [CallTagForComponent next relDir]
               | Some _ => []
               end
          /\ fs (finalState ran) = fst written))
  /\ (forall s : State G,
        anchors (calls (finalState
           (monorepoTagHandler git semverProcessor MonorepoProcessorImpl cfg repoPath s)))
        = anchors (calls s))
  /\ (forall (s : State G) components e,
        Impl_FindComponents (fs s) repoPath cfg = (components, Some e) ->
        monorepoTagHandler git semverProcessor MonorepoProcessorImpl cfg repoPath s
        = Done (Some (ErrFindingComponents e))
               (recorded [CallFindComponents repoPath cfg] s))
  /\ (forall (s s1 : State G) before component after,
        Impl_FindComponents (fs s) repoPath cfg = (before ++ component :: after, None) ->
        forEach (tagBody git semverProcessor MonorepoProcessorImpl cfg repoPath) before
          (recorded [CallFindComponents repoPath cfg] s)
        = Done None s1 ->
        monorepoTagHandler git semverProcessor MonorepoProcessorImpl cfg repoPath s
        = match tagBody git semverProcessor MonorepoProcessorImpl cfg repoPath
                  component s1 with
          | Done None s2 =>
              forEach (tagBody git semverProcessor MonorepoProcessorImpl cfg repoPath)
                after s2
          | Done (Some e) s2 => Done (Some e) s2
          | Panic s2 => Panic s2
          end).
Proof.
  split; [|split; [|split]].
  - intros component s relDir commits Hrel range Hlog ran resolved.
    subst ran range. unfold tagRange in *.
    unfold tagBody, componentCommits. rewrite Hrel. run. simpl.
    rewrite Hlog. simpl. unfold Impl_NextVersion. subst resolved.
    unfold callsSince. split.
    + destruct (SemverNextVersion semverProcessor (CurrentVersion component) commits)
        as [nextVer updated]. simpl. intros ->. simpl.
      destruct (CurrentVersion component); simpl;
        by rewrite <- ?app_assoc, drop_app_length.
    + intros next Hnext. rewrite Hnext. simpl.
      destruct (Impl_UpdateVersion (fs s) component next cfg) as [fs' [e|]]; simpl.
      * by rewrite <- ?app_assoc, drop_app_length.
      * destruct (TagForComponent git (repo s) next relDir) as [g' [name [e|]]]; simpl;
          by rewrite <- ?app_assoc, drop_app_length.
  - intros s. unfold monorepoTagHandler. run.
    destruct (FindComponents MonorepoProcessorImpl (fs s) repoPath cfg)
      as [components [e|]]; simpl.
    { by rewrite anchor_app, app_nil_r. }
    apply (forEach_invariant
             (fun s' => anchors (calls s') = anchors (calls s))).
    + intros component s' Hs'. by rewrite tagBody_no_anchor.
    + simpl. by rewrite anchor_app, app_nil_r.
  - intros s components e Hfind. unfold monorepoTagHandler. run.
    change (FindComponents MonorepoProcessorImpl (fs s) repoPath cfg)
      with (Impl_FindComponents (fs s) repoPath cfg).
    by rewrite Hfind.
  - intros s s1 before component after Hfind Hbefore. unfold monorepoTagHandler.
    unfold mbind at 1. unfold M_bind at 1. unfold bind at 1.
    unfold proc_FindComponents, fsRead.
    change (FindComponents MonorepoProcessorImpl (fs s) repoPath cfg)
      with (Impl_FindComponents (fs s) repoPath cfg).
    rewrite Hfind. by apply forEach_reaches.
Qed.

End HandlerFacts.

(** ** The end-to-end scenario *)

Section EndToEndFacts.
Context {G : Type} {P : Platform}.
Variable git : Git G.
Variable classify : GitCommitLog -> Bump.
Variable cfg : MonorepoConfig.
Variable repoPath : string.

Lemma readVersionFromFile_inv fs filePath dotPath v :
  readVersionFromFile fs filePath dotPath = Ok v ->
  exists content data segments vstr,
    os_ReadFile fs filePath = Ok content
    /\ parseFileContent filePath content = Ok data
    /\ PathExpr.parsePath dotPath = Ok segments
    /\ getByPath data segments = Ok (VString vstr)
    /\ ToVersion vstr = Ok v.
Proof.
  unfold readVersionFromFile, ReadVersionFromBytes. intros Hread.
  destruct (os_ReadFile fs filePath) as [content|] eqn:Hc; [|discriminate].
  destruct (parseFileContent filePath content) as [data|] eqn:Hd; [|discriminate].
  destruct (PathExpr.parsePath dotPath) as [segments|] eqn:Hp; [|discriminate].
  destruct (getByPath data segments) as [[vstr| | | | |]|] eqn:Hg; try discriminate.
  destruct (ToVersion vstr) as [v'|] eqn:Hv; [|discriminate].
  injection Hread as <-. by exists content, data, segments, vstr.
Qed.

Lemma readVersionFromFile_intro fs filePath dotPath content data segments vstr v :
  os_ReadFile fs filePath = Ok content ->
  parseFileContent filePath content = Ok data ->
  PathExpr.parsePath dotPath = Ok segments ->
  getByPath data segments = Ok (VString vstr) ->
  ToVersion vstr = Ok v ->
  readVersionFromFile fs filePath dotPath = Ok v.
Proof.
  unfold readVersionFromFile, ReadVersionFromBytes.
  by intros -> -> -> -> ->.
Qed.

(** Where a get finds a value, a set succeeds. *)
Lemma getByPath_then_set segments : forall data found value,
  getByPath data segments = Ok found ->
  exists data', setByPath data segments value = (data', None).
Proof.
  induction segments as [|s0 rest IH]; intros data found value Hget.
  - discriminate.
  - destruct rest as [|s1 rest].
    + simpl in *. destruct (data !! s0); [by eexists | discriminate].
    + rewrite NavigatorFacts.getByPath_cons in Hget by discriminate.
      rewrite NavigatorFacts.setByPath_cons by discriminate.
      destruct (data !! s0) as [[| | | | |nested]|]; try discriminate.
      destruct (IH nested found value Hget) as [nested' ->]. by eexists.
Qed.

Lemma FindComponents_single fs file v :
  VersioningFile cfg ≠ "" ->
  filepath_Glob (dom (files fs)) (filepath_Join repoPath (VersioningFile cfg))
  = ([file], None) ->
  readVersionFromFile fs file (Path cfg) = Ok v ->
  Impl_FindComponents fs repoPath cfg = ([componentOf file v], None).
Proof.
  intros Hcfg Hglob Hread. unfold Impl_FindComponents.
  apply String.eqb_neq in Hcfg. rewrite Hcfg, Hglob. simpl. by rewrite Hread.
Qed.

Lemma updateVersionBody_after semverProcessor monorepoProcessor component
  (s s1 : State G) baseVer commits cerr :
  componentBaseVersionAndCommits git repoPath component (Path cfg) s
  = Done (baseVer, commits, cerr) s1 ->
  updateVersionBody git semverProcessor monorepoProcessor cfg repoPath component s
  = afterBaseline semverProcessor monorepoProcessor cfg component baseVer commits cerr s1.
Proof.
  intros Hres. unfold updateVersionBody, afterBaseline.
  unfold mbind at 1. unfold M_bind at 1. unfold bind at 1. rewrite Hres.
  destruct cerr as [e|]; [reflexivity|].
  destruct (SemverNextVersion semverProcessor baseVer commits) as [nextVer updated].
  unfold mbind, M_bind, bind, mret, M_ret, ret, proc_UpdateVersion, fsWrite, printf, deref.
  destruct updated; simpl.
  - destruct (Equal nextVer (CurrentVersion component)).
    + destruct (CurrentVersion component); reflexivity.
    + destruct nextVer as [next|]; [|reflexivity]. simpl.
      destruct (UpdateVersion monorepoProcessor (fs s1) component next cfg)
        as [fs' [e|]]; reflexivity.
  - destruct baseVer; reflexivity.
Qed.

(** Two patches on 1.0.0 resolve to 1.0.1, changed. *)
Lemma resolveBump_two_patches base p1 p2 :
  classify p1 = BumpPatch -> classify p2 = BumpPatch ->
  isVersion base 1 0 0 ->
  resolveBump classify (Some base) [p2; p1] = (Some (increment BumpPatch base), true)
  /\ isVersion (increment BumpPatch base) 1 0 1
  /\ Original (increment BumpPatch base) = "1.0.1".
Proof.
  intros H1 H2 (Hma & Hmi & Hpa & Hpre & Hmeta).
  unfold resolveBump, highest. simpl. rewrite H1, H2. simpl.
  split; [reflexivity|]. unfold isVersion, increment. simpl.
  rewrite Hma, Hmi, Hpa, Hpre, Hmeta. repeat split; reflexivity.
Qed.

Lemma bind_ret {A} (m : M G A) (s : State G) :
  bind m (fun r => ret r) s = m s.
Proof. unfold bind, ret. by destruct (m s). Qed.

(** With one component found, the bump handler is one run of its loop
    body after the call of [FindComponents]. *)
Lemma bump_single semverProcessor monorepoProcessor component (s : State G) :
  FindComponents monorepoProcessor (fs s) repoPath cfg = ([component], None) ->
  monorepoUpdateVersionHandler git semverProcessor monorepoProcessor cfg repoPath s
  = updateVersionBody git semverProcessor monorepoProcessor cfg repoPath component
      (recorded [CallFindComponents repoPath cfg] s).
Proof.
  intros Hfound. unfold monorepoUpdateVersionHandler, proc_FindComponents, fsRead.
  unfold mbind at 1. unfold M_bind at 1. unfold bind at 1. rewrite Hfound.
  cbn [forEach]. unfold mbind, M_bind, mret, M_ret.
  change (record (CallFindComponents repoPath cfg) s)
    with (recorded [CallFindComponents repoPath cfg] s).
  rewrite <- (bind_ret (updateVersionBody git semverProcessor monorepoProcessor cfg
                         repoPath component)).
  unfold bind. destruct (updateVersionBody _ _ _ _ _ _ _) as [[e|] s'|s']; reflexivity.
Qed.

Section InScenario.
Variable d : BumpSetting G.
Hypothesis scenario : IdempotentScenario git classify cfg repoPath d.

Let file := theFile d.
Let fourCalls : list Call :=
  tier2Calls (theRelDir d) (theRelFile d) (theFileCommit d).

(** In the scenario the baseline is that of tier 2, whatever the working
    tree holds and whatever the component's current version is. *)
Lemma scenario_baseline current (s : State G) :
  repo s = theRepo d ->
  componentBaseVersionAndCommits git repoPath (componentOf file current) (Path cfg) s
  = Done (Some (theBase d), [thePatch2 d; thePatch1 d], None) (recorded fourCalls s).
Proof using scenario.
  intros Hrepo. destruct scenario.
  rewrite (baseline_file_commit git repoPath (componentOf file current) (Path cfg) s
             (theRelDir d) (theRelFile d)); rewrite ?Hrepo; try assumption.
  - cbv zeta. rewrite fileCommitted0, twoCommits0, snapshotShown0.
    simpl. unfold file. by rewrite snapshotRead0.
  - by rewrite fileCommitted0.
Qed.

End InScenario.

(** C4. End-to-end idempotent scenario: for a component whose document
    holds 1.0.0 on disk, with no component tag, one commit of the document
    that recorded 1.0.0 and two later commits under its directory that
    classify as patch, the bump resolver answers 1.0.1 with changed = true
    and the bump flow writes it: one [UpdateVersion] with 1.0.1, after which
    the document reads 1.0.1.  Run again on the written tree with no new
    commit, the flow resolves the same baseline (the anchor of tier 2 is
    consulted again), finds the next version equal to the current one,
    reports that the component is already at 1.0.1, writes nothing and
    leaves the tree as it is. *)
Theorem end_to_end_idempotent_bump (d : BumpSetting G) :
  IdempotentScenario git classify cfg repoPath d ->
  let bump := monorepoUpdateVersionHandler git (specSemVerProcessor classify)
                MonorepoProcessorImpl cfg repoPath in
  let name := filepath_Base (filepath_Dir (theFile d)) in
  let next := increment BumpPatch (theBase d) in
  resolveBump classify (Some (theBase d)) [thePatch2 d; thePatch1 d] = (Some next, true)
  /\ isVersion next 1 0 1
  /\ exists s1,
       bump (startIn (theTree d) (theRepo d)) = Done None s1
       /\ updates (calls s1) = [(componentOf (theFile d) (theCurrent d), next)]
       /\ out s1 = [MsgWritten name next (theFile d)]
       /\ repo s1 = theRepo d
       /\ readVersionFromFile (fs s1) (theFile d) (Path cfg) = Ok (theReread d)
       /\ exists s2,
            bump (startIn (fs s1) (theRepo d)) = Done None s2
            /\ anchors (calls s2)
                = [CallLastFileCommit (theRelFile d);
                   CallShowFile (theFileCommit d) (theRelFile d)]
            /\ updates (calls s2) = []
            /\ out s2 = [MsgAlreadyAt name (theReread d)]
            /\ fs s2 = fs s1.
Proof.
  intros Hsc bump name next.
  pose proof (scenario_baseline d Hsc) as Hbase.
  destruct Hsc.
  destruct (resolveBump_two_patches (theBase d) (thePatch1 d) (thePatch2 d)
              patch1Class0 patch2Class0 baseIs0) as (Hres & Hnext & Horig).
  fold next in Hres, Hnext, Horig. clearbody next.
  split; [exact Hres|]. split; [exact Hnext|].
  destruct (readVersionFromFile_inv _ _ _ _ onDisk0)
    as (disk & data & segments & vstr & Hrd & Hdec & Hpath & Hget & Hver).
  destruct (getByPath_then_set segments data _ "1.0.1" Hget) as [data' Hset].
  destruct (encodes0 disk data segments data' Hrd Hdec Hpath Hset)
    as (written & Henc & Hfaith).
  set (tree1 := {| files := <[theFile d := written]> (files (theTree d));
                   readonly := readonly (theTree d) |}).
  assert (Hwrite : Impl_UpdateVersion (theTree d)
                     (componentOf (theFile d) (theCurrent d)) next cfg = (tree1, None)).
  { unfold Impl_UpdateVersion, writeVersionToFile. simpl.
    rewrite Horig, Hrd, Hdec, Hpath, Hset, marshalToFile_encoded, Henc.
    unfold os_WriteFile. by rewrite decide_False. }
  assert (Hread1 : readVersionFromFile tree1 (theFile d) (Path cfg)
                   = Ok (theReread d)).
  { apply (readVersionFromFile_intro tree1 _ _ written data' segments "1.0.1").
    - unfold os_ReadFile. simpl. by rewrite lookup_insert_eq.
    - by apply Hfaith.
    - exact Hpath.
    - by apply setByPath_then_get in Hset.
    - exact reread0. }
  assert (Hdom : dom (files tree1) = dom (files (theTree d))).
  { simpl. rewrite dom_insert_L. unfold os_ReadFile in Hrd.
    destruct (files (theTree d) !! theFile d) eqn:Hlk; [|discriminate].
    apply elem_of_dom_2 in Hlk. apply subseteq_union_1_L.
    by apply singleton_subseteq_l. }
  destruct currentIs0 as (Hcma & Hcmi & Hcpa & Hcpre & _).
  destruct Hnext as (Hnma & Hnmi & Hnpa & Hnpre & _).
  destruct rereadIs0 as (Hrma & Hrmi & Hrpa & Hrpre & _).
  exists {| fs := tree1; repo := theRepo d;
            calls := CallFindComponents repoPath cfg
                     :: tier2Calls (theRelDir d) (theRelFile d) (theFileCommit d)
                     ++ [CallUpdateVersion (componentOf (theFile d) (theCurrent d)) next];
            out := [MsgWritten name next (theFile d)] |}.
  split; [|split; [reflexivity|split; [reflexivity|split; [reflexivity|split; [exact Hread1|]]]]].
  { unfold bump.
    rewrite (bump_single _ _ (componentOf (theFile d) (theCurrent d)));
      [|by apply FindComponents_single].
    erewrite updateVersionBody_after; [|apply Hbase; reflexivity].
    unfold afterBaseline. cbn [SemverNextVersion specSemVerProcessor].
    rewrite Hres. cbn [negb].
    assert (Hne : Equal (Some next) (CurrentVersion (componentOf (theFile d) (theCurrent d)))
                  = false).
    { unfold Equal, versionEqb. simpl. rewrite Hnma, Hnmi, Hnpa, Hcma, Hcmi, Hcpa.
      reflexivity. }
    rewrite Hne. cbn [UpdateVersion MonorepoProcessorImpl recorded fs].
    cbn [startIn fs]. rewrite Hwrite. cbn [fst snd]. reflexivity. }
  exists {| fs := tree1; repo := theRepo d;
            calls := CallFindComponents repoPath cfg
                     :: tier2Calls (theRelDir d) (theRelFile d) (theFileCommit d);
            out := [MsgAlreadyAt name (theReread d)] |}.
  split; [|repeat split; reflexivity].
  unfold bump. cbn [fs].
  rewrite (bump_single _ _ (componentOf (theFile d) (theReread d)));
    [|apply FindComponents_single; [assumption | cbn [startIn fs]; by rewrite Hdom | exact Hread1]].
  erewrite updateVersionBody_after; [|apply Hbase; reflexivity].
  unfold afterBaseline. cbn [SemverNextVersion specSemVerProcessor].
  rewrite Hres. cbn [negb].
  assert (Heq : Equal (Some next) (CurrentVersion (componentOf (theFile d) (theReread d)))
                = true).
  { unfold Equal, versionEqb. simpl.
    rewrite Hnma, Hnmi, Hnpa, Hnpre, Hrma, Hrmi, Hrpa, Hrpre. reflexivity. }
  rewrite Heq. reflexivity.
Qed.

End EndToEndFacts.

(** ** The in-memory platform at work *)

Module FakeFacts.
Import Fake.

Lemma splitFirst_append sep key rest :
  splitFirst sep key = None ->
  splitFirst sep (String.append key (String sep rest)) = Some (key, rest).
Proof.
  induction key as [|c key IH]; intros Hnone; simpl in *.
  - by rewrite Ascii.eqb_refl.
  - destruct (Ascii.eqb c sep); [discriminate|].
    destruct (splitFirst sep key) as [[before after]|]; [discriminate|].
    by rewrite IH.
Qed.

Lemma map_to_list_singleton_inv (m : gmap string Value) key v :
  map_to_list m = [(key, v)] -> m = {[ key := v ]}.
Proof.
  intros Hl. rewrite <- (list_to_map_to_list m), Hl. simpl. by rewrite insert_empty.
Qed.

(** The one-line format decodes what it encodes. *)
Lemma Marshal_Unmarshal data written :
  Marshal data = Ok written -> Unmarshal written = Ok data.
Proof.
  unfold Marshal, Unmarshal. intros Hm.
  destruct (map_to_list data) as [|[key [s| | | | |]] [|]] eqn:Hl; try discriminate.
  destruct (splitFirst ":"%char key) eqn:Hkey; [discriminate|].
  injection Hm as <-. rewrite (splitFirst_append _ _ _ Hkey).
  by rewrite (map_to_list_singleton_inv _ _ _ Hl).
Qed.

Lemma faithful filePath written :
  isJSON (P := platform) filePath = false ->
  codecFaithfulAt (P := platform) filePath written.
Proof.
  intros Hyaml data. unfold encoded, parseFileContent. rewrite Hyaml. simpl.
  destruct (Marshal data) as [out|] eqn:Hm; [|discriminate].
  intros [= ->]. by rewrite (Marshal_Unmarshal _ _ Hm).
Qed.

Lemma scenario_holds :
  IdempotentScenario (P := platform) git Scenario.classify Scenario.cfg
    Scenario.repoPath Scenario.setting.
Proof.
  constructor;
    first [ exact (not_elem_of_empty _)
          | by (vm_compute; repeat split)
          | (vm_compute; discriminate)
          | idtac ].
  intros disk data segments data' Hrd Hdec Hpath Hset.
  vm_compute in Hrd. injection Hrd as <-.
  vm_compute in Hpath. injection Hpath as <-.
  vm_compute in Hdec. injection Hdec as <-.
  vm_compute in Hset. injection Hset as <-.
  exists "version:1.0.1". split; [vm_compute; reflexivity|].
  apply faithful. vm_compute. reflexivity.
Qed.

End FakeFacts.

(** ** The theorems at the scenario *)

Module Witnesses.
Import Scenario.

(** Tier 1 at a tagged component whose document also has a commit: only
    the tag and the log are asked for. *)
Lemma baseline_tier_selection_witness :
  componentBaseVersionAndCommits (P := Fake.platform) Fake.git repoPath
    (alpha (version 1 0 0 "1.0.0")) "version"
    {| fs := tree; repo := tagged; calls := []; out := [] |}
  = Done (Some (version 1 1 0 "v1.1.0"), [], None)
         {| fs := tree; repo := tagged;
            calls := [CallLastComponentTag "alpha";
                      CallLog (tagRange "alpha/v1.1.0" "alpha")];
            out := [] |}.
Proof.
  pose proof (baseline_tier_selection (P := Fake.platform) Fake.git repoPath
                (alpha (version 1 0 0 "1.0.0")) "version"
                {| fs := tree; repo := tagged; calls := []; out := [] |}
                "alpha" eq_refl) as H.
  cbv zeta in H. destruct H as [H _]. rewrite H.
  - vm_compute. reflexivity.
  - vm_compute. discriminate.
Defined.

(** Tier 2 at a component bumped on disk to 1.0.1: the base is the 1.0.0 of
    the committed snapshot. *)
Lemma tier2_anchor_and_fallback_witness :
  componentBaseVersionAndCommits (P := Fake.platform) Fake.git repoPath
    (alpha (version 1 0 1 "1.0.1")) "version" (start bumpedTree)
  = Done (Some (version 1 0 0 "1.0.0"), [fix2; fix1], None)
         (recorded (tier2Calls "alpha" "alpha/version.yml" "c0ffee") (start bumpedTree)).
Proof.
  pose proof (tier2_anchor_and_fallback (P := Fake.platform) Fake.git repoPath
                (alpha (version 1 0 1 "1.0.1")) "version" (start bumpedTree)
                "alpha" "alpha/version.yml" [fix2; fix1]
                eq_refl eq_refl eq_refl) as H.
  cbv zeta in H.
  destruct (H ltac:(vm_compute; discriminate) eq_refl) as [H1 _].
  exact (H1 (version 1 0 0 "1.0.0") eq_refl eq_refl).
Defined.

(** The one write of the first run is justified: changed, and not the
    current version. *)
Lemma update_only_when_changed_and_different_witness :
  (alpha (version 1 0 0 "1.0.0"), version 1 0 1 "1.0.1") ∈ updates []
  \/ writeJustified (P := Fake.platform) Fake.git (specSemVerProcessor classify)
       cfg repoPath (alpha (version 1 0 0 "1.0.0")) (version 1 0 1 "1.0.1").
Proof.
  apply (proj2 (update_only_when_changed_and_different (P := Fake.platform) Fake.git
                  (specSemVerProcessor classify) (MonorepoProcessorImpl (P := Fake.platform))
                  cfg repoPath) (start tree)).
  vm_compute. apply list_elem_of_singleton. reflexivity.
Defined.

(** The two runs of the scenario. *)
Lemma end_to_end_idempotent_bump_witness :
  exists s1 s2,
    firstRun = Done None s1
    /\ secondRun = Done None s2
    /\ updates (calls s1) = [(alpha (version 1 0 0 "1.0.0"), version 1 0 1 "1.0.1")]
    /\ files (fs s1) !! file = Some "version:1.0.1"
    /\ updates (calls s2) = []
    /\ fs s2 = fs s1.
Proof.
  destruct (end_to_end_idempotent_bump (P := Fake.platform) Fake.git classify cfg repoPath
              setting FakeFacts.scenario_holds)
    as (_ & _ & s1 & Hrun1 & Hup1 & _ & _ & _ & s2 & Hrun2 & _ & Hup2 & _ & Hfs).
  exists s1, s2.
  assert (Hfirst : firstRun = Done None s1) by exact Hrun1.
  split; [exact Hfirst|]. split.
  { unfold secondRun. rewrite Hfirst. exact Hrun2. }
  split; [exact Hup1|]. split; [|split; [exact Hup2 | exact Hfs]].
  assert (Hs1 : finalState firstRun = s1) by (by rewrite Hfirst).
  rewrite <- Hs1. vm_compute. reflexivity.
Defined.

(** A version whose literal has a leading v is read back with it. *)
Lemma write_then_read_roundtrip_witness :
  exists written data segments,
    os_ReadFile {| files := {[ file := "version:v1.1.0" ]}; readonly := ∅ |} file
    = Ok written
    /\ parseFileContent (P := Fake.platform) file written = Ok data
    /\ PathExpr.parsePath "version" = Ok segments
    /\ getByPath data segments = Ok (VString "v1.1.0").
Proof.
  apply (write_then_read_roundtrip (P := Fake.platform) tree
           {| files := {[ file := "version:v1.1.0" ]}; readonly := ∅ |}
           (alpha (version 1 0 0 "1.0.0")) (version 1 1 0 "v1.1.0") cfg).
  - vm_compute. reflexivity.
  - intros written _. apply FakeFacts.faithful. vm_compute. reflexivity.
Defined.

(** Discovery over a good and a broken document returns no component. *)
Lemma FindComponents_fail_fast_witness :
  exists failing e,
    failing ∈ [file; "/repo/beta/version.yml"]
    /\ readVersionFromFile (P := Fake.platform) brokenTree failing "version" = Err e
    /\ Impl_FindComponents (P := Fake.platform) brokenTree repoPath cfg
       = ([], Some (ErrReadingVersion failing e)).
Proof.
  pose proof (FindComponents_fail_fast (P := Fake.platform) brokenTree repoPath cfg
                ltac:(vm_compute; discriminate)) as H.
  cbv zeta in H. destruct H as (_ & _ & H & _).
  assert (Hglob : filepath_Glob (Platform := Fake.platform) (dom (files brokenTree))
                    (filepath_Join (Platform := Fake.platform) repoPath (VersioningFile cfg))
                  = ([file; "/repo/beta/version.yml"], None))
    by (vm_compute; reflexivity).
  rewrite Hglob in H. apply (H "/repo/beta/version.yml").
  - reflexivity.
  - apply elem_of_cons. right. apply elem_of_cons. by left.
  - apply (VersionInvalid (P := Fake.platform) _ _ _ "version:not-a-version"
             {[ "version" := VString "not-a-version" ]} ["version"] "not-a-version"
             (ErrExternal "Invalid Semantic Version"));
      vm_compute; reflexivity.
Defined.

(** The tag handler on the scenario with a resolver that reports a change
    to the current version itself: alpha is found, its document is written
    and the tag made all the same. *)
Lemma tag_flow_ignores_file_anchor_witness :
  callsSince (start tree)
    (monorepoTagHandler (P := Fake.platform) Fake.git sameVersionProcessor
       (MonorepoProcessorImpl (P := Fake.platform)) cfg repoPath (start tree))
  = [CallFindComponents repoPath cfg;
     CallLastComponentTag "alpha"; CallLog (tagRange "" "alpha");
     CallUpdateVersion (alpha (version 1 0 0 "1.0.0")) (version 1 0 0 "1.0.0");
     CallTagForComponent (version 1 0 0 "1.0.0") "alpha"].
Proof.
  destruct (tag_flow_ignores_file_anchor (P := Fake.platform) Fake.git
              sameVersionProcessor cfg repoPath) as (_ & _ & _ & Hruns).
  rewrite (Hruns (start tree) (recorded [CallFindComponents repoPath cfg] (start tree))
             [] (alpha (version 1 0 0 "1.0.0")) [] eq_refl eq_refl).
  vm_compute. reflexivity.
Defined.

End Witnesses.

(** * Further properties of the code *)

(** ** Navigation: what a set changes and what it leaves *)

Module NavigatorMore.
Import NavigatorFacts.

(** X1. Set-then-get round trip: after a successful [setByPath], a
    [getByPath] on the same segments of the tree it left returns the string
    that was set. *)
Theorem setByPath_getByPath_roundtrip (segments : list string) :
  forall (data data' : gmap string Value) (value : string),
    setByPath data segments value = (data', None) ->
    getByPath data' segments = Ok (VString value).
Proof.
  induction segments as [|s0 rest IH]; intros data data' value Hset.
  - discriminate.
  - destruct rest as [|s1 rest].
    + simpl in Hset. destruct (data !! s0); inversion Hset; subst.
      simpl. by rewrite lookup_insert_eq.
    + rewrite setByPath_cons in Hset by discriminate.
      destruct (data !! s0) as [[| | | | |nested]|]; try discriminate.
      destruct (setByPath nested (s1 :: rest) value) as [nested' err] eqn:Hrec.
      inversion Hset; subst.
      rewrite getByPath_cons by discriminate.
      rewrite lookup_insert_eq. by eapply IH.
Qed.

Lemma setByPath_getByPath_roundtrip_witness :
  getByPath {[ "metadata" := VMap {[ "version" := VString "1.1.0" ]} ]}
    ["metadata"; "version"]
  = Ok (VString "1.1.0").
Proof.
  apply (setByPath_getByPath_roundtrip ["metadata"; "version"]
           {[ "metadata" := VMap {[ "version" := VString "1.0.0" ]} ]}).
  vm_compute. reflexivity.
Defined.

(** X2. Frame of a set: a successful [setByPath] on the segments [p] does
    not change what [getByPath] answers on any segments [q] such that
    neither of [p] and [q] is a prefix of the other. *)
Theorem setByPath_frame (p : list string) :
  forall (q : list string) (data data' : gmap string Value) (value : string),
    setByPath data p value = (data', None) ->
    ¬ p `prefix_of` q -> ¬ q `prefix_of` p ->
    getByPath data' q = getByPath data q.
Proof.
  induction p as [|p0 prest IH]; intros q data data' value Hset Hpq Hqp.
  - discriminate.
  - destruct q as [|q0 qrest]; [destruct Hqp; apply prefix_nil|].
    destruct (decide (p0 = q0)) as [<-|Hne].
    + destruct prest as [|p1 prest].
      { destruct Hpq. by apply prefix_cons, prefix_nil. }
      destruct qrest as [|q1 qrest].
      { destruct Hqp. by apply prefix_cons, prefix_nil. }
      rewrite setByPath_cons in Hset by discriminate.
      rewrite !getByPath_cons by discriminate.
      destruct (data !! p0) as [[| | | | |nested]|] eqn:Hlk; try discriminate.
      destruct (setByPath nested (p1 :: prest) value) as [nested' err] eqn:Hrec.
      inversion Hset; subst. rewrite lookup_insert_eq.
      eapply IH; [exact Hrec | |].
      * intros Hpre. apply Hpq. by apply prefix_cons.
      * intros Hpre. apply Hqp. by apply prefix_cons.
    + assert (Hsame : data' !! q0 = data !! q0).
      { destruct prest as [|p1 prest].
        - simpl in Hset. destruct (data !! p0); inversion Hset; subst.
          by rewrite lookup_insert_ne.
        - rewrite setByPath_cons in Hset by discriminate.
          destruct (data !! p0) as [[| | | | |nested]|]; try discriminate.
          destruct (setByPath nested (p1 :: prest) value) as [nested' err].
          inversion Hset; subst. by rewrite lookup_insert_ne. }
      destruct qrest as [|q1 qrest].
      * simpl. by rewrite Hsame.
      * rewrite !getByPath_cons by discriminate. by rewrite Hsame.
Qed.

Lemma setByPath_frame_witness :
  getByPath {[ "metadata" := VMap {[ "version" := VString "1.1.0";
                                    "name" := VString "alpha" ]} ]}
    ["metadata"; "name"]
  = getByPath {[ "metadata" := VMap {[ "version" := VString "1.0.0";
                                      "name" := VString "alpha" ]} ]}
      ["metadata"; "name"].
Proof.
  apply (setByPath_frame ["metadata"; "version"] ["metadata"; "name"] _ _ "1.1.0").
  - vm_compute. reflexivity.
  - intros [k Hk]. discriminate.
  - intros [k Hk]. discriminate.
Defined.

(** X3. The last write wins: after a successful [setByPath], a second
    [setByPath] on the same segments gives what it would have given on the
    original tree; in particular setting the same value again changes
    nothing. *)
Theorem setByPath_last_write_wins (segments : list string) :
  forall (data data1 : gmap string Value) (v1 v2 : string),
    setByPath data segments v1 = (data1, None) ->
    setByPath data1 segments v2 = setByPath data segments v2
    /\ setByPath data1 segments v1 = (data1, None).
Proof.
  assert (Hover : forall segs (data data1 : gmap string Value) v1 v2,
             setByPath data segs v1 = (data1, None) ->
             setByPath data1 segs v2 = setByPath data segs v2).
  { induction segs as [|s0 rest IH]; intros data data1 v1 v2 Hset.
    - discriminate.
    - destruct rest as [|s1 rest].
      + simpl in *. destruct (data !! s0) eqn:Hlk; inversion Hset; subst.
        rewrite lookup_insert_eq. by rewrite insert_insert_eq.
      + rewrite setByPath_cons in Hset by discriminate.
        rewrite !setByPath_cons by discriminate.
        destruct (data !! s0) as [[| | | | |nested]|] eqn:Hlk; try discriminate.
        destruct (setByPath nested (s1 :: rest) v1) as [nested1 err] eqn:Hrec.
        inversion Hset; subst. rewrite lookup_insert_eq.
        rewrite (IH nested nested1 v1 v2 Hrec).
        destruct (setByPath nested (s1 :: rest) v2) as [nested2 err2].
        by rewrite insert_insert_eq. }
  intros data data1 v1 v2 Hset. split; [by eapply Hover|].
  rewrite (Hover segments data data1 v1 v1 Hset). exact Hset.
Qed.

Lemma setByPath_last_write_wins_witness :
  setByPath {[ "version" := VString "1.1.0" ]} ["version"] "2.0.0"
  = setByPath {[ "version" := VString "1.0.0" ]} ["version"] "2.0.0"
  /\ setByPath {[ "version" := VString "1.1.0" ]} ["version"] "1.1.0"
     = ({[ "version" := VString "1.1.0" ]}, None).
Proof.
  apply (setByPath_last_write_wins ["version"] {[ "version" := VString "1.0.0" ]}).
  vm_compute. reflexivity.
Defined.

(** X4. A set makes no new path readable: whatever [getByPath] can read
    in the tree left by a successful [setByPath], it could read in the tree
    before (no key is created at any depth). *)
Theorem setByPath_no_new_paths (p : list string) :
  forall (q : list string) (data data' : gmap string Value) (value : string) found,
    setByPath data p value = (data', None) ->
    getByPath data' q = Ok found ->
    exists before, getByPath data q = Ok before.
Proof.
  induction p as [|p0 prest IH]; intros q data data' value found Hset Hget.
  - discriminate.
  - destruct q as [|q0 qrest]; [discriminate|].
    destruct (decide (p0 = q0)) as [<-|Hne].
    + destruct prest as [|p1 prest].
      * simpl in Hset. destruct (data !! p0) as [old|] eqn:Hlk; inversion Hset; subst.
        destruct qrest as [|q1 qrest].
        -- simpl. rewrite Hlk. by eexists.
        -- rewrite getByPath_cons in Hget by discriminate.
           rewrite lookup_insert_eq in Hget. discriminate.
      * rewrite setByPath_cons in Hset by discriminate.
        destruct (data !! p0) as [[| | | | |nested]|] eqn:Hlk; try discriminate.
        destruct (setByPath nested (p1 :: prest) value) as [nested' err] eqn:Hrec.
        inversion Hset; subst.
        destruct qrest as [|q1 qrest].
        -- simpl. rewrite Hlk. by eexists.
        -- rewrite getByPath_cons in Hget by discriminate.
           rewrite lookup_insert_eq in Hget.
           rewrite getByPath_cons by discriminate. rewrite Hlk.
           by eapply IH.
    + assert (Hsame : data' !! q0 = data !! q0).
      { destruct prest as [|p1 prest].
        - simpl in Hset. destruct (data !! p0); inversion Hset; subst.
          by rewrite lookup_insert_ne.
        - rewrite setByPath_cons in Hset by discriminate.
          destruct (data !! p0) as [[| | | | |nested]|]; try discriminate.
          destruct (setByPath nested (p1 :: prest) value) as [nested' err].
          inversion Hset; subst. by rewrite lookup_insert_ne. }
      destruct qrest as [|q1 qrest].
      * simpl in *. rewrite <- Hsame. destruct (data' !! q0); [by eexists|discriminate].
      * rewrite getByPath_cons in * by discriminate. rewrite <- Hsame.
        by eexists.
Qed.

Lemma setByPath_no_new_paths_witness :
  exists before,
    getByPath {[ "metadata" := VMap {[ "version" := VString "1.0.0" ]} ]} ["metadata"]
    = Ok before.
Proof.
  apply (setByPath_no_new_paths ["metadata"; "version"] ["metadata"]
           {[ "metadata" := VMap {[ "version" := VString "1.0.0" ]} ]}
           {[ "metadata" := VMap {[ "version" := VString "1.1.0" ]} ]} "1.1.0"
           (VMap {[ "version" := VString "1.1.0" ]})).
  - vm_compute. reflexivity.
  - vm_compute. reflexivity.
Defined.

End NavigatorMore.

(** ** Path parsing on every input *)

Module PathMore.
Import PathExpr PathGrammar PathScan PathFacts.

(** The bracket case of the loop, with the scan on its own. *)
Lemma parseLoop_bracket_scan path quote rest1 current segments :
  parseLoop path (String lbracket (String quote rest1)) current segments
  = if negb (Ascii.eqb quote dquote) && negb (Ascii.eqb quote squote)
    then Err (ErrExpectedQuote quote)
    else match scanQuoted quote rest1 EmptyString with
         | None => Err ErrUnclosedString
         | Some (literal, String b t2) =>
             if Ascii.eqb b rbracket
             then parseLoop path (skipDot t2) EmptyString
                    (flush segments current ++ [literal])
             else Err ErrExpectedClose
         | Some (literal, EmptyString) => Err ErrExpectedClose
         end.
Proof.
  simpl.
  destruct (negb (Ascii.eqb quote dquote) && negb (Ascii.eqb quote squote));
    [reflexivity|].
  match goal with
  | |- ?scan rest1 EmptyString = _ =>
      enough (Hscan : forall t cur,
                 scan t cur
                 = match scanQuoted quote t cur with
                   | None => Err ErrUnclosedString
                   | Some (literal, String b t2) =>
                       if Ascii.eqb b rbracket
                       then parseLoop path (skipDot t2) EmptyString
                              (flush segments current ++ [literal])
                       else Err ErrExpectedClose
                   | Some (literal, EmptyString) => Err ErrExpectedClose
                   end) by apply Hscan
  end.
  induction t as [|d t1 IH]; intros cur; [reflexivity|].
  simpl. destruct (Ascii.eqb d quote) eqn:Hd; [|apply IH].
  destruct t1 as [|b t2]; [reflexivity|].
  destruct (Ascii.eqb b rbracket); [|reflexivity].
  destruct t2 as [|e t3]; [reflexivity|].
  unfold skipDot. destruct (Ascii.eqb e dot); reflexivity.
Qed.

Lemma scanQuoted_shorter quote : forall t current literal after,
  scanQuoted quote t current = Some (literal, after) ->
  String.length after < String.length t.
Proof.
  induction t as [|d t1 IH]; intros current literal after Hscan; simpl in *.
  - discriminate.
  - destruct (Ascii.eqb d quote).
    + injection Hscan as _ <-. lia.
    + apply IH in Hscan. lia.
Qed.

Lemma skipDot_length t : String.length (skipDot t) <= String.length t.
Proof.
  destruct t as [|e t]; simpl; [lia|]. destruct (Ascii.eqb e dot); simpl; lia.
Qed.

(** A property of every result of the loop: it holds of the loop as soon as
    it holds of every error that is not about the path and of every end of
    parsing. *)
Lemma parseLoop_result (R : result (list string) -> Prop) path :
  (forall e, R (Err e)) ->
  (forall segments, R (finish path segments)) ->
  forall s current segments, R (parseLoop path s current segments).
Proof.
  intros Herr Hfin s.
  remember (String.length s) as n eqn:Hn.
  revert s Hn. induction n as [n IH] using lt_wf_ind. intros s Hn current segments.
  destruct s as [|c rest]; [apply Hfin|].
  destruct (Ascii.eqb c dot) eqn:Hdot.
  { simpl. rewrite Hdot. eapply IH; [|reflexivity]. simpl in Hn. lia. }
  destruct (Ascii.eqb c lbracket) eqn:Hbr.
  - apply Ascii.eqb_eq in Hbr as ->.
    destruct rest as [|quote rest1]; [apply Herr|].
    rewrite parseLoop_bracket_scan.
    destruct (negb (Ascii.eqb quote dquote) && negb (Ascii.eqb quote squote));
      [apply Herr|].
    destruct (scanQuoted quote rest1 EmptyString) as [[literal after]|] eqn:Hscan;
      [|apply Herr].
    destruct after as [|b t2]; [apply Herr|].
    destruct (Ascii.eqb b rbracket); [|apply Herr].
    eapply IH; [|reflexivity].
    apply scanQuoted_shorter in Hscan. pose proof (skipDot_length t2).
    simpl in Hn, Hscan. lia.
  - simpl. rewrite Hdot, Hbr. eapply IH; [|reflexivity]. simpl in Hn. lia.
Qed.

(** X5. A parsed path has a segment: whenever [parsePath] succeeds the list
    of segments is not empty, so that [getByPath] and [setByPath] never see
    the empty path from it. *)
Theorem parsePath_success_nonempty (path : string) (segments : list string) :
  parsePath path = Ok segments -> segments ≠ [].
Proof.
  assert (Hloop : forall p s current acc,
             parseLoop p s current acc = Ok segments -> segments ≠ []).
  { intros p s current acc.
    apply (parseLoop_result (fun r => r = Ok segments -> segments ≠ [])).
    - discriminate.
    - intros [|x l]; simpl; [discriminate|]. intros [= <-]. discriminate. }
  unfold parsePath. destruct path as [|c rest]; [discriminate|].
  destruct (Ascii.eqb c dot); apply Hloop.
Qed.

Lemma parsePath_success_nonempty_witness : ["metadata"; "version"] ≠ [].
Proof.
  apply (parsePath_success_nonempty ".metadata.version"). reflexivity.
Defined.

(** Two runs of the loop on the same text differ at most by the path in
    the no-segments message. *)
Lemma parseLoop_path_independent path path' : forall s current segments,
  withoutPath (parseLoop path s current segments)
  = withoutPath (parseLoop path' s current segments).
Proof.
  intros s.
  remember (String.length s) as n eqn:Hn.
  revert s Hn. induction n as [n IH] using lt_wf_ind. intros s Hn current segments.
  destruct s as [|c rest].
  { simpl. by destruct (flush segments current). }
  destruct (Ascii.eqb c dot) eqn:Hdot.
  { simpl. rewrite Hdot. eapply IH; [|reflexivity]. simpl in Hn. lia. }
  destruct (Ascii.eqb c lbracket) eqn:Hbr.
  - apply Ascii.eqb_eq in Hbr as ->.
    destruct rest as [|quote rest1]; [reflexivity|].
    rewrite !parseLoop_bracket_scan.
    destruct (negb (Ascii.eqb quote dquote) && negb (Ascii.eqb quote squote));
      [reflexivity|].
    destruct (scanQuoted quote rest1 EmptyString) as [[literal after]|] eqn:Hscan;
      [|reflexivity].
    destruct after as [|b t2]; [reflexivity|].
    destruct (Ascii.eqb b rbracket); [|reflexivity].
    eapply IH; [|reflexivity].
    apply scanQuoted_shorter in Hscan. pose proof (skipDot_length t2).
    simpl in Hn, Hscan. lia.
  - simpl. rewrite Hdot, Hbr. eapply IH; [|reflexivity]. simpl in Hn. lia.
Qed.

(** A path that is not empty is parsed by the loop from its first byte: a
    leading dot, skipped by [i = 1], is one the loop would skip as well. *)
Lemma parsePath_loop path :
  path ≠ "" -> parsePath path = parseLoop path path EmptyString [].
Proof.
  intros Hne. destruct path as [|c rest]; [congruence|].
  unfold parsePath. destruct (Ascii.eqb c dot) eqn:Hc; [|reflexivity].
  simpl. by rewrite Hc.
Qed.

(** X6. The leading dot is optional for every path, not only for the
    well-formed ones: a path that is not empty and the same path with a dot
    before it parse to the same segments or fail with the same error, the
    path quoted in the no-segments message apart. *)
Theorem parsePath_leading_dot (path : string) :
  path ≠ "" ->
  withoutPath (parsePath (String dot path)) = withoutPath (parsePath path).
Proof.
  intros Hne. rewrite (parsePath_loop path Hne).
  change (parsePath (String dot path))
    with (parseLoop (String dot path) path EmptyString []).
  apply parseLoop_path_independent.
Qed.

Lemma parsePath_leading_dot_witness :
  withoutPath (parsePath ".spec['a.b'].version")
  = withoutPath (parsePath "spec['a.b'].version").
Proof.
  apply (parsePath_leading_dot "spec['a.b'].version"). discriminate.
Defined.

(** Up to the first bracket the loop only collects keys. *)
Lemma parseLoop_before_bracket path tail : forall before current segments,
  noBracket before = true ->
  exists current' segments',
    parseLoop path (String.append before (String lbracket tail)) current segments
    = parseLoop path (String lbracket tail) current' segments'.
Proof.
  induction before as [|c rest IH]; intros current segments Hnb.
  - by eexists _, _.
  - unfold noBracket in Hnb. simpl in Hnb. apply andb_prop in Hnb as [Hc Hnb].
    apply negb_true_iff in Hc. cbn [String.append parseLoop]. rewrite Hc.
    destruct (Ascii.eqb c dot); by apply IH.
Qed.

Lemma scanQuoted_unclosed quote : forall literal current,
  allChars (fun c => negb (Ascii.eqb c quote)) literal = true ->
  scanQuoted quote literal current = None.
Proof.
  induction literal as [|d t IH]; intros current Hall; [reflexivity|].
  simpl in *. apply andb_prop in Hall as [Hd Hall].
  apply negb_true_iff in Hd. rewrite Hd. by apply IH.
Qed.

Lemma scanQuoted_closed quote tail : forall literal current,
  allChars (fun c => negb (Ascii.eqb c quote)) literal = true ->
  scanQuoted quote (String.append literal (String quote tail)) current
  = Some (String.append current literal, tail).
Proof.
  induction literal as [|d t IH]; intros current Hall.
  - simpl. rewrite Ascii.eqb_refl. f_equal. f_equal.
    clear. induction current; simpl; congruence.
  - simpl in *. apply andb_prop in Hall as [Hd Hall].
    apply negb_true_iff in Hd. rewrite Hd. rewrite IH by exact Hall.
    f_equal. f_equal. unfold WriteByte.
    clear. induction current; simpl; congruence.
Qed.

(** X7. What the parser refuses at a bracket, after any text without one:
    an opening bracket at the very end is an unexpected end; a byte after
    the bracket that is neither quote character is reported as such; a
    literal whose quote never closes is an unclosed string; and a closed
    literal not followed at once by the closing bracket is refused, whatever
    comes after. *)
Theorem parsePath_malformed_brackets (before : string) :
  noBracket before = true ->
  parsePath (String.append before (one lbracket)) = Err ErrUnexpectedEnd
  /\ (forall c tail,
        isQuote c = false ->
        parsePath (String.append before (String lbracket (String c tail)))
        = Err (ErrExpectedQuote c))
  /\ (forall q literal,
        isQuote q = true ->
        allChars (fun c => negb (Ascii.eqb c q)) literal = true ->
        parsePath (String.append before (String lbracket (String q literal)))
        = Err ErrUnclosedString)
  /\ (forall q literal tail,
        isQuote q = true ->
        allChars (fun c => negb (Ascii.eqb c q)) literal = true ->
        startsWith rbracket tail = false ->
        parsePath (String.append before
                     (String lbracket (String q (String.append literal (String q tail)))))
        = Err ErrExpectedClose).
Proof.
  intros Hnb.
  assert (Hstart : forall tail,
             exists current segments,
               parsePath (String.append before (String lbracket tail))
               = parseLoop (String.append before (String lbracket tail))
                   (String lbracket tail) current segments).
  { intros tail. rewrite parsePath_loop by (by destruct before).
    apply parseLoop_before_bracket, Hnb. }
  assert (Hguard : forall q, isQuote q = true ->
             negb (Ascii.eqb q dquote) && negb (Ascii.eqb q squote) = false).
  { intros q Hq. unfold isQuote in Hq. by rewrite <- negb_orb, Hq. }
  repeat split.
  - unfold one. destruct (Hstart EmptyString) as (current & segments & ->). reflexivity.
  - intros c tail Hc. destruct (Hstart (String c tail)) as (current & segments & ->).
    rewrite parseLoop_bracket_scan. unfold isQuote in Hc.
    by rewrite <- negb_orb, Hc.
  - intros q literal Hq Hall.
    destruct (Hstart (String q literal)) as (current & segments & ->).
    rewrite parseLoop_bracket_scan, (Hguard q Hq).
    by rewrite scanQuoted_unclosed.
  - intros q literal tail Hq Hall Htail.
    destruct (Hstart (String q (String.append literal (String q tail))))
      as (current & segments & ->).
    rewrite parseLoop_bracket_scan, (Hguard q Hq).
    rewrite scanQuoted_closed by exact Hall.
    destruct tail as [|b t2]; [reflexivity|].
    simpl in Htail. by rewrite Htail.
Qed.

Lemma parsePath_malformed_brackets_witness :
  parsePath "a.b[" = Err ErrUnexpectedEnd
  /\ parsePath "a.b[x]" = Err (ErrExpectedQuote "x")
  /\ parsePath "a.b['c.d" = Err ErrUnclosedString
  /\ parsePath "a.b['c.d'.e]" = Err ErrExpectedClose.
Proof.
  pose proof (parsePath_malformed_brackets "a.b" eq_refl) as (H1 & H2 & H3 & H4).
  split; [exact H1|]. split; [exact (H2 "x"%char "]" eq_refl)|].
  split; [exact (H3 squote "c.d" eq_refl eq_refl)|].
  exact (H4 squote "c.d" ".e]" eq_refl eq_refl eq_refl).
Defined.

End PathMore.

(** ** The versioning document and discovery *)

Section FileMore.
Context {P : Platform}.

(** What a version write leaves of the working tree, whatever comes of
    it. *)
Lemma writeVersionToFile_frame (fs : FileSystem) (filePath dotPath version : string) :
  let written := writeVersionToFile fs filePath dotPath version in
  readonly (fst written) = readonly fs
  /\ dom (files (fst written)) = dom (files fs)
  /\ (forall other, other ≠ filePath ->
        files (fst written) !! other = files fs !! other).
Proof.
  cbv zeta. unfold writeVersionToFile.
  destruct (os_ReadFile fs filePath) as [content|e0] eqn:Hread;
    [|by repeat split].
  destruct (parseFileContent filePath content) as [data|e0]; [|by repeat split].
  destruct (PathExpr.parsePath dotPath) as [segments|e0]; [|by repeat split].
  destruct (setByPath data segments version) as [data' [e0|]]; [by repeat split|].
  rewrite marshalToFile_encoded.
  destruct (encoded filePath data') as [bytes|e0]; [|by repeat split].
  unfold os_WriteFile. case_decide; [by repeat split|]. simpl.
  split; [reflexivity|]. split.
  - rewrite dom_insert_L. apply subseteq_union_1_L, singleton_subseteq_l.
    apply elem_of_dom. unfold os_ReadFile in Hread.
    destruct (files fs !! filePath); [by eexists | discriminate].
  - intros other Hother. by apply lookup_insert_ne.
Qed.

(** A version write either gets to its one [os.WriteFile], of the encoded
    document with the version set, or fails before it and has touched
    nothing. *)
Lemma writeVersionToFile_one_write (fs : FileSystem) (filePath dotPath version : string) :
  (exists content data segments data' bytes,
     os_ReadFile fs filePath = Ok content
     /\ parseFileContent filePath content = Ok data
     /\ PathExpr.parsePath dotPath = Ok segments
     /\ setByPath data segments version = (data', None)
     /\ encoded filePath data' = Ok bytes
     /\ writeVersionToFile fs filePath dotPath version = os_WriteFile fs filePath bytes)
  \/ (exists e, writeVersionToFile fs filePath dotPath version = (fs, Some e)).
Proof.
  unfold writeVersionToFile.
  destruct (os_ReadFile fs filePath) as [content|e0] eqn:Hread; [|right; by eexists].
  destruct (parseFileContent filePath content) as [data|e0] eqn:Hdec;
    [|right; by eexists].
  destruct (PathExpr.parsePath dotPath) as [segments|e0] eqn:Hpath;
    [|right; by eexists].
  destruct (setByPath data segments version) as [data' [e0|]] eqn:Hset;
    [right; by eexists|].
  rewrite marshalToFile_encoded.
  destruct (encoded filePath data') as [bytes|e0] eqn:Henc; [|right; by eexists].
  left. exists content, data, segments, data', bytes. by repeat split.
Qed.

(** X8. A version write touches one file at most, and only by its one
    write: whatever comes of [UpdateVersion], the working tree has the same
    file names and the same write protections after it and every file other
    than the component's versioning document has the content it had; and
    either [UpdateVersion] failed before writing -- at the read, the
    decoding, the path expression, the navigation or the encoding -- and the
    whole tree is as it was, or its outcome is that of the one
    [os.WriteFile] of the encoded document, with the version's literal set
    at the path, to the versioning document.  Nothing is said of the
    document's content when that write fails. *)
Theorem UpdateVersion_touches_one_file (fs : FileSystem)
  (component : MonorepoComponent) (version : Version) (cfg : MonorepoConfig) :
  let file := VersioningFilePath component in
  let written := Impl_UpdateVersion fs component version cfg in
  readonly (fst written) = readonly fs
  /\ dom (files (fst written)) = dom (files fs)
  /\ (forall other, other ≠ file -> files (fst written) !! other = files fs !! other)
  /\ ((exists e, written = (fs, Some e))
      \/ exists content data segments data' bytes,
           os_ReadFile fs file = Ok content
           /\ parseFileContent file content = Ok data
           /\ PathExpr.parsePath (Path cfg) = Ok segments
           /\ setByPath data segments (Original version) = (data', None)
           /\ encoded file data' = Ok bytes
           /\ written = os_WriteFile fs file bytes).
Proof.
  cbv zeta. unfold Impl_UpdateVersion.
  destruct (writeVersionToFile_frame fs (VersioningFilePath component) (Path cfg)
              (Original version)) as (Hro & Hdom & Hother).
  split; [exact Hro|]. split; [exact Hdom|]. split; [exact Hother|].
  destruct (writeVersionToFile_one_write fs (VersioningFilePath component) (Path cfg)
              (Original version)) as [Hwrite|Hfail]; [by right | by left].
Qed.

Lemma findLoop_success fs cfg : forall matches acc components,
  findLoop fs cfg matches acc = (components, None) ->
  exists found,
    components = acc ++ found
    /\ Forall2 (fun m c => exists v, readVersionFromFile fs m (Path cfg) = Ok v
                                     /\ c = componentOf m v) matches found.
Proof.
  induction matches as [|m rest IH]; intros acc components Hloop; simpl in Hloop.
  - injection Hloop as <-. exists []. by rewrite app_nil_r.
  - destruct (readVersionFromFile fs m (Path cfg)) as [v|e] eqn:Hm; [|discriminate].
    apply IH in Hloop as (found & -> & Hall).
    exists (componentOf m v :: found). split; [by rewrite <- app_assoc|].
    constructor; [by exists v | exact Hall].
Qed.

Lemma findLoop_intro fs cfg : forall matches found acc,
  Forall2 (fun m c => exists v, readVersionFromFile fs m (Path cfg) = Ok v
                                /\ c = componentOf m v) matches found ->
  findLoop fs cfg matches acc = (acc ++ found, None).
Proof.
  induction matches as [|m rest IH]; intros found acc Hall.
  - apply Forall2_nil_inv_l in Hall as ->. by rewrite app_nil_r.
  - apply Forall2_cons_inv_l in Hall as (c & found' & (v & Hv & ->) & Hall & ->).
    simpl. rewrite Hv. rewrite (IH found' _ Hall). by rewrite <- app_assoc.
Qed.

(** X9. What a successful discovery returns: the pattern is configured and
    matched at least one file, and the components are, match by match and in
    the order of the matches, the directory of the match with its base name
    as the name, the match as the versioning document, and as current
    version the version read from the match -- never a nil one. *)
Theorem FindComponents_success (fs : FileSystem) (repoRoot : string)
  (cfg : MonorepoConfig) (components : list MonorepoComponent) :
  Impl_FindComponents fs repoRoot cfg = (components, None) ->
  VersioningFile cfg ≠ ""
  /\ components ≠ []
  /\ exists matches,
       filepath_Glob (dom (files fs)) (filepath_Join repoRoot (VersioningFile cfg))
       = (matches, None)
       /\ Forall2 (fun m c => exists v,
                     readVersionFromFile fs m (Path cfg) = Ok v
                     /\ c = componentOf m v) matches components.
Proof.
  unfold Impl_FindComponents. intros Hfind.
  destruct (String.eqb (VersioningFile cfg) "") eqn:Hcfg; [discriminate|].
  apply String.eqb_neq in Hcfg. split; [exact Hcfg|].
  destruct (filepath_Glob _ _) as [matches [e|]]; [discriminate|].
  destruct matches as [|m rest]; [discriminate|].
  apply findLoop_success in Hfind as (found & -> & Hall). simpl.
  split.
  - apply Forall2_cons_inv_l in Hall as (c & found' & _ & _ & ->). discriminate.
  - by exists (m :: rest).
Qed.

(** X10. An update is what the next discovery finds: after a successful
    [UpdateVersion] of a document -- the codec being faithful at the bytes
    written and the version's literal being one the parser reads -- a
    discovery that succeeded before succeeds again, with the same components
    in the same order; those of the written document have the re-read
    version as current version, every other is unchanged. *)
Theorem UpdateVersion_then_FindComponents (fs fs' : FileSystem) (repoRoot : string)
  (cfg : MonorepoConfig) (components : list MonorepoComponent)
  (component : MonorepoComponent) (version reread : Version) :
  Impl_FindComponents fs repoRoot cfg = (components, None) ->
  Impl_UpdateVersion fs component version cfg = (fs', None) ->
  (forall written,
     os_ReadFile fs' (VersioningFilePath component) = Ok written ->
     codecFaithfulAt (VersioningFilePath component) written) ->
  ToVersion (Original version) = Ok reread ->
  Impl_FindComponents fs' repoRoot cfg
  = (rediscovered (VersioningFilePath component) reread components, None).
Proof.
  intros Hfind Hupdate Hcodec Hreread.
  set (file := VersioningFilePath component) in *.
  pose proof (writeVersionToFile_frame fs file (Path cfg) (Original version))
    as Hframe.
  cbv zeta in Hframe. unfold Impl_UpdateVersion in Hupdate. fold file in Hupdate.
  rewrite Hupdate in Hframe. simpl in Hframe. destruct Hframe as (_ & Hdom & Hother).
  assert (Hnew : readVersionFromFile fs' file (Path cfg) = Ok reread).
  { pose proof Hupdate as Hw.
    apply writeVersionToFile_success in Hw
      as (content & data & segments & data' & out & _ & _ & Hpath & Hset & Henc & Hwrite).
    apply os_WriteFile_then_read in Hwrite.
    eapply readVersionFromFile_intro;
      [exact Hwrite | exact (Hcodec out Hwrite data' Henc) | exact Hpath
      | by apply setByPath_then_get in Hset | exact Hreread]. }
  unfold Impl_FindComponents in *.
  destruct (String.eqb (VersioningFile cfg) "") eqn:Hcfg; [discriminate|].
  rewrite Hdom.
  destruct (filepath_Glob _ _) as [matches [e|]]; [discriminate|].
  destruct matches as [|m rest]; [discriminate|].
  apply findLoop_success in Hfind as (found & -> & Hall). simpl app.
  rewrite (findLoop_intro fs' cfg (m :: rest) (rediscovered file reread found) []);
    [reflexivity|].
  clear -Hall Hother Hnew. unfold rediscovered.
  induction Hall as [|m0 c ms cs (v & Hv & ->) _ IH]; [constructor|].
  simpl. constructor; [|exact IH].
  destruct (String.eqb m0 file) eqn:Hm.
  - apply String.eqb_eq in Hm as ->. by exists reread.
  - apply String.eqb_neq in Hm. exists v. split; [|reflexivity].
    unfold readVersionFromFile, os_ReadFile in *. by rewrite Hother.
Qed.

End FileMore.

Module FileWitnesses.
Import Scenario.

Lemma FindComponents_success_witness :
  VersioningFile cfg ≠ ""
  /\ [alpha (version 1 0 0 "1.0.0")] ≠ []
  /\ exists matches,
       filepath_Glob (Platform := Fake.platform) (dom (files tree))
         (filepath_Join (Platform := Fake.platform) repoPath (VersioningFile cfg))
       = (matches, None)
       /\ Forall2 (fun m c => exists v,
                     readVersionFromFile (P := Fake.platform) tree m (Path cfg) = Ok v
                     /\ c = componentOf (P := Fake.platform) m v)
            matches [alpha (version 1 0 0 "1.0.0")].
Proof.
  apply (FindComponents_success (P := Fake.platform) tree repoPath cfg).
  vm_compute. reflexivity.
Defined.

(** The document of alpha bumped to 1.0.1: the next discovery finds alpha
    at 1.0.1. *)
Lemma UpdateVersion_then_FindComponents_witness :
  Impl_FindComponents (P := Fake.platform) bumpedTree repoPath cfg
  = (rediscovered file (version 1 0 1 "1.0.1") [alpha (version 1 0 0 "1.0.0")], None).
Proof.
  apply (UpdateVersion_then_FindComponents (P := Fake.platform) tree bumpedTree repoPath
           cfg [alpha (version 1 0 0 "1.0.0")] (alpha (version 1 0 0 "1.0.0"))
           (version 1 0 1 "1.0.1") (version 1 0 1 "1.0.1")).
  - vm_compute. reflexivity.
  - vm_compute. reflexivity.
  - intros written _. apply FakeFacts.faithful. vm_compute. reflexivity.
  - vm_compute. reflexivity.
Defined.

End FileWitnesses.

(** ** The handlers: what they read and what they write *)

Section HandlerMore.
Context {G : Type} {P : Platform}.
Variable git : Git G.
Variable semverProcessor : SemVerCommitsProcessor.
Variable monorepoProcessor : MonorepoProcessor.
Variable cfg : MonorepoConfig.
Variable repoPath : string.

Ltac run :=
  unfold mbind, M_bind, bind, mret, M_ret, ret, git_LastComponentTag, git_Log,
    git_LastFileCommit, git_ShowFile, git_TagForComponent, proc_UpdateVersion,
    proc_FindComponents, gitRead, gitWrite, fsRead, fsWrite, printf, deref, record.

Ltac here := repeat (apply elem_of_cons; first [by left | right]).

Lemma tagsMade_app cs cs' : tagsMade (cs ++ cs') = tagsMade cs ++ tagsMade cs'.
Proof. unfold tagsMade. apply omap_app. Qed.

Lemma reads_write_nothing cs :
  Forall (fun c => isGitRead c = true) cs -> updates cs = [] /\ tagsMade cs = [].
Proof.
  induction 1 as [|c cs Hc _ [IHu IHt]]; [by split|].
  destruct c; simpl in Hc; try discriminate; by split.
Qed.

(** The baseline resolver returns, having made at most four calls, all of
    them reads of the repository; its error is that of the path of the
    component's directory or that of a log it asked for. *)
Lemma resolver_reads component dotPath (s : State G) :
  exists r cs,
    componentBaseVersionAndCommits git repoPath component dotPath s
    = Done r (recorded cs s)
    /\ length cs <= 4
    /\ Forall (fun c => isGitRead c = true) cs
    /\ (forall e, snd r = Some e ->
          filepath_Rel repoPath (RootPath component) = Err e
          \/ exists lr, CallLog lr ∈ cs /\ snd (Log git (repo s) lr) = Some e).
Proof.
  destruct (filepath_Rel repoPath (RootPath component)) as [relDir|e] eqn:Hrel.
  - destruct (decide (LastComponentTag git (repo s) relDir = "")) as [Htag|Htag].
    + destruct (filepath_Rel repoPath (VersioningFilePath component))
        as [relFile|e] eqn:Hfile.
      * destruct (decide (LastFileCommit git (repo s) relFile = "")) as [Hc|Hc].
        -- rewrite (baseline_all_commits git repoPath component dotPath s relDir Hrel Htag).
           ++ cbv zeta. rewrite Hfile. eexists _, _. split; [reflexivity|].
              split; [simpl; lia|]. split; [by repeat constructor|].
              intros e He. right. eexists. split; [here | exact He].
           ++ intros relFile' Heq. rewrite Hfile in Heq. by injection Heq as <-.
        -- rewrite (baseline_file_commit git repoPath component dotPath s relDir relFile
                      Hrel Htag Hfile Hc).
           cbv zeta.
           destruct (Log git (repo s) _) as [commits [e|]] eqn:Hlog;
             (eexists _, _; split; [reflexivity|]);
             (split; [simpl; lia|]); (split; [by repeat constructor|]);
             intros e' He; [|discriminate].
           right. eexists. split; [here|]. rewrite Hlog. exact He.
      * rewrite (baseline_all_commits git repoPath component dotPath s relDir Hrel Htag).
        -- cbv zeta. rewrite Hfile. eexists _, _. split; [reflexivity|].
           split; [simpl; lia|]. split; [by repeat constructor|].
           intros e' He. right. eexists. split; [here | exact He].
        -- intros relFile' Heq. congruence.
    + rewrite (baseline_tag git repoPath component dotPath s relDir Hrel Htag).
      cbv zeta. eexists _, _. split; [reflexivity|].
      split; [simpl; lia|]. split; [by repeat constructor|].
      intros e' He. right. eexists. split; [here | exact He].
  - unfold componentBaseVersionAndCommits. rewrite Hrel. run.
    exists (None, [], Some e), []. split.
    { unfold recorded. destruct s; simpl. by rewrite app_nil_r. }
    split; [simpl; lia|]. split; [constructor|].
    intros e' [= <-]. by left.
Qed.

(** X11. The baseline resolver only reads: from every state it returns (it
    dereferences nothing), having made at most four calls, each a read of
    the repository history; the working tree, the repository and the output
    are as they were; and an error it returns is the error of
    [filepath.Rel] on the component's directory or the error of a [Log] it
    called -- a failure of [ShowFile], or of reading the version out of the
    old document, never surfaces. *)
Theorem resolver_reads_only (component : MonorepoComponent) (dotPath : string)
  (s : State G) :
  exists base commits cerr s',
    componentBaseVersionAndCommits git repoPath component dotPath s
    = Done (base, commits, cerr) s'
    /\ fs s' = fs s /\ repo s' = repo s /\ out s' = out s
    /\ (exists cs, calls s' = calls s ++ cs
                   /\ length cs <= 4
                   /\ Forall (fun c => isGitRead c = true) cs
                   /\ forall e, cerr = Some e ->
                        filepath_Rel repoPath (RootPath component) = Err e
                        \/ exists lr, CallLog lr ∈ cs
                                      /\ snd (Log git (repo s) lr) = Some e).
Proof.
  destruct (resolver_reads component dotPath s)
    as ([[base commits] cerr] & cs & Hres & Hlen & Hreads & Herr).
  exists base, commits, cerr, (recorded cs s). split; [exact Hres|].
  repeat split; try reflexivity. by exists cs.
Qed.

Lemma updateVersionBody_no_tag component (s : State G) :
  let ran := updateVersionBody git semverProcessor monorepoProcessor cfg repoPath
               component s in
  repo (finalState ran) = repo s
  /\ tagsMade (calls (finalState ran)) = tagsMade (calls s).
Proof.
  destruct (resolver_reads component (Path cfg) s)
    as ([[base commits] cerr] & cs & Hres & _ & Hreads & _).
  apply reads_write_nothing in Hreads as [_ Htags]. cbv zeta.
  erewrite updateVersionBody_after by exact Hres. unfold afterBaseline.
  destruct cerr as [e|]; simpl; [by rewrite tagsMade_app, Htags, app_nil_r|].
  destruct (SemverNextVersion semverProcessor base commits) as [nextVer updated].
  destruct updated; simpl;
    [destruct (Equal nextVer (CurrentVersion component))|];
    repeat match goal with
           | |- context [match ?x with _ => _ end] => destruct x
           end; simpl;
    by rewrite ?tagsMade_app, Htags, ?app_nil_r.
Qed.

(** X12. The bump flow never tags: whatever the processors answer,
    [monorepoUpdateVersionHandler] leaves the repository as it was and makes
    no call of [TagForComponent]. *)
Theorem bump_never_tags (s : State G) :
  let ran := monorepoUpdateVersionHandler git semverProcessor monorepoProcessor
               cfg repoPath s in
  repo (finalState ran) = repo s
  /\ tagsMade (calls (finalState ran)) = tagsMade (calls s).
Proof.
  cbv zeta. unfold monorepoUpdateVersionHandler. run.
  destruct (FindComponents monorepoProcessor (fs s) repoPath cfg)
    as [components [e|]]; simpl.
  { by rewrite tagsMade_app, app_nil_r. }
  apply (forEach_invariant
           (fun s' => repo s' = repo s /\ tagsMade (calls s') = tagsMade (calls s))).
  - intros component s' [Hrepo Htags].
    destruct (updateVersionBody_no_tag component s') as [Hr Ht].
    split; congruence.
  - simpl. by rewrite tagsMade_app, app_nil_r.
Qed.

Lemma nextVersionBody_reads component (s : State G) :
  let ran := nextVersionBody git semverProcessor cfg repoPath component s in
  fs (finalState ran) = fs s
  /\ repo (finalState ran) = repo s
  /\ updates (calls (finalState ran)) = updates (calls s)
  /\ tagsMade (calls (finalState ran)) = tagsMade (calls s).
Proof.
  destruct (resolver_reads component (Path cfg) s)
    as ([[base commits] cerr] & cs & Hres & _ & Hreads & _).
  apply reads_write_nothing in Hreads as [Hup Htags]. intros ran.
  assert (Hran : exists s', finalState ran = s' /\ calls s' = calls s ++ cs
                            /\ fs s' = fs s /\ repo s' = repo s).
  { subst ran. unfold nextVersionBody.
    unfold mbind at 1. unfold M_bind at 1. unfold bind at 1. rewrite Hres.
    destruct cerr as [e|]; [run; simpl; by eexists|].
    destruct (SemverNextVersion semverProcessor base commits) as [nextVer updated].
    run. destruct (if negb updated then CurrentVersion component else nextVer);
      simpl; by eexists. }
  destruct Hran as (s' & -> & -> & -> & ->).
  by rewrite tagsMade_app, updates_app, Hup, Htags, !app_nil_r.
Qed.

(** X13. The preview writes nothing: [monorepoNextVersionHandler] leaves the
    working tree and the repository as they were and calls neither
    [UpdateVersion] nor [TagForComponent], whatever the processors answer
    and whether it returns, fails or stops at a nil version. *)
Theorem next_version_is_read_only (s : State G) :
  let ran := monorepoNextVersionHandler git semverProcessor monorepoProcessor
               cfg repoPath s in
  fs (finalState ran) = fs s
  /\ repo (finalState ran) = repo s
  /\ updates (calls (finalState ran)) = updates (calls s)
  /\ tagsMade (calls (finalState ran)) = tagsMade (calls s).
Proof.
  cbv zeta. unfold monorepoNextVersionHandler. run.
  destruct (FindComponents monorepoProcessor (fs s) repoPath cfg)
    as [components [e|]]; simpl.
  { by rewrite tagsMade_app, updates_app, !app_nil_r. }
  apply (forEach_invariant
           (fun s' => fs s' = fs s /\ repo s' = repo s
                      /\ updates (calls s') = updates (calls s)
                      /\ tagsMade (calls s') = tagsMade (calls s))).
  - intros component s' (Hfs & Hrepo & Hup & Htags).
    destruct (nextVersionBody_reads component s') as (H1 & H2 & H3 & H4).
    repeat split; congruence.
  - simpl. by rewrite tagsMade_app, updates_app, !app_nil_r.
Qed.

(** X14. The preview shows what the bump writes: for a component and a
    state in which the body of the bump loop calls [UpdateVersion] with a
    version, the body of the preview loop, run in the same state, returns
    without error and prints that version for the component, and nothing
    else. *)
Theorem preview_matches_bump (component : MonorepoComponent) (s : State G)
  (next : Version) :
  updates (callsSince s
             (updateVersionBody git semverProcessor monorepoProcessor cfg repoPath
                component s))
  = [(component, next)] ->
  exists s',
    nextVersionBody git semverProcessor cfg repoPath component s = Done None s'
    /\ out s' = out s ++ [MsgNextVersion (Name component) next].
Proof.
  intros Hwrites.
  destruct (updateVersionBody_writes git semverProcessor monorepoProcessor cfg repoPath
              component s)
    as (base & commits & cerr & cs & Hres & Hwritten & _ & _).
  cbv zeta in Hwritten. rewrite Hwritten in Hwrites. clear Hwritten.
  unfold nextVersionBody. unfold mbind at 1. unfold M_bind at 1. unfold bind at 1.
  rewrite Hres.
  destruct cerr as [e|]; [discriminate|].
  destruct (SemverNextVersion semverProcessor base commits) as [nextVer updated].
  simpl in Hwrites. destruct nextVer as [next0|]; [|discriminate].
  destruct updated; [|discriminate]. simpl in Hwrites.
  destruct (Equal (Some next0) (CurrentVersion component)); [discriminate|].
  simpl in Hwrites. injection Hwrites as ->.
  run. simpl. by eexists.
Qed.

Lemma treeAfter_app (processor : MonorepoProcessor) t cs cs' :
  treeAfter processor cfg t (cs ++ cs')
  = treeAfter processor cfg (treeAfter processor cfg t cs) cs'.
Proof. unfold treeAfter. apply fold_left_app. Qed.

Ltac split_trace H pre := repeat (destruct pre as [|? pre]; simplify_eq/=).

(** The calls of the body of the tag loop: the tree is only changed by the
    [UpdateVersion] recorded, and a [TagForComponent] comes right after the
    [UpdateVersion] of the same version, which returned no error. *)
Lemma tagBody_trace (processor : MonorepoProcessor) component (s : State G) :
  exists s' cs,
    finalState (tagBody git semverProcessor processor cfg repoPath component s) = s'
    /\ calls s' = calls s ++ cs
    /\ fs s' = treeAfter processor cfg (fs s) cs
    /\ forall pre v d post,
         cs = pre ++ CallTagForComponent v d :: post ->
         exists before,
           pre = before ++ [CallUpdateVersion component v]
           /\ snd (UpdateVersion processor (treeAfter processor cfg (fs s) before)
                     component v cfg) = None
           /\ filepath_Rel repoPath (RootPath component) = Ok d.
Proof.
  unfold tagBody, componentCommits.
  destruct (filepath_Rel repoPath (RootPath component)) as [relDir|e] eqn:Hrel.
  2:{ run. simpl. eexists _, []. split; [reflexivity|]. simpl.
      split; [by rewrite app_nil_r|]. split; [reflexivity|].
      intros pre v d post H. split_trace H pre. }
  run. simpl.
  destruct (Log git (repo s) _) as [commits [e|]]; simpl.
  { eexists _, _. split; [reflexivity|]. simpl. split; [by rewrite <- app_assoc|].
    split; [reflexivity|]. intros pre v d post H. split_trace H pre. }
  destruct (NextVersion processor component commits semverProcessor)
    as [nextVer updated].
  destruct updated; simpl.
  - destruct nextVer as [next|]; simpl.
    2:{ eexists _, _. split; [reflexivity|]. simpl. split; [by rewrite <- app_assoc|].
        split; [reflexivity|]. intros pre v d post H. split_trace H pre. }
    destruct (UpdateVersion processor (fs s) component next cfg) as [fs' [e|]] eqn:Hup;
      simpl.
    { eexists _, _. split; [reflexivity|]. simpl. split; [by rewrite <- !app_assoc|].
      split; [simpl; by rewrite Hup|]. intros pre v d post H. split_trace H pre. }
    destruct (TagForComponent git (repo s) next relDir) as [g' [name [e|]]]; simpl;
      (eexists _, _; split; [reflexivity|]; simpl; split; [by rewrite <- !app_assoc|];
       split; [simpl; by rewrite Hup|]);
      intros pre v d post H; split_trace H pre;
      (eexists [_; _]; split; [reflexivity|]; split; [simpl; by rewrite Hup | reflexivity]).
  - destruct (CurrentVersion component) as [cur|]; simpl;
      (eexists _, _; split; [reflexivity|]; simpl; split; [by rewrite <- ?app_assoc|];
       split; [reflexivity|]);
      intros pre v d post H; split_trace H pre.
Qed.

(** X15. The tag flow tags only what it has written: in the calls of
    [monorepoTagHandler], every [TagForComponent] comes right after an
    [UpdateVersion] of the same version on a component whose directory,
    relative to the repository, is the one tagged, and that [UpdateVersion]
    -- made on the working tree that the calls before it left -- returned
    no error. *)
Theorem tag_handler_tags_what_it_wrote (s : State G) (pre post : list Call)
  (v : Version) (d : string) :
  callsSince s (monorepoTagHandler git semverProcessor monorepoProcessor cfg repoPath s)
  = pre ++ CallTagForComponent v d :: post ->
  exists before component,
    pre = before ++ [CallUpdateVersion component v]
    /\ snd (UpdateVersion monorepoProcessor
              (treeAfter monorepoProcessor cfg (fs s) before) component v cfg) = None
    /\ filepath_Rel repoPath (RootPath component) = Ok d.
Proof.
  set (Inv := fun s' : State G =>
                exists cs,
                  calls s' = calls s ++ cs
                  /\ fs s' = treeAfter monorepoProcessor cfg (fs s) cs
                  /\ forall pre v d post,
                       cs = pre ++ CallTagForComponent v d :: post ->
                       exists before component,
                         pre = before ++ [CallUpdateVersion component v]
                         /\ snd (UpdateVersion monorepoProcessor
                                   (treeAfter monorepoProcessor cfg (fs s) before)
                                   component v cfg) = None
                         /\ filepath_Rel repoPath (RootPath component) = Ok d).
  enough (HInv : Inv (finalState
                   (monorepoTagHandler git semverProcessor monorepoProcessor
                      cfg repoPath s))).
  { destruct HInv as (cs & Hcalls & _ & Hcs). unfold callsSince.
    rewrite Hcalls, drop_app_length. apply Hcs. }
  clear pre post v d.
  unfold monorepoTagHandler. run.
  assert (Hfirst : Inv {| fs := fs s; repo := repo s;
                          calls := calls s ++ [CallFindComponents repoPath cfg];
                          out := out s |}).
  { eexists. split; [reflexivity|]. split; [reflexivity|].
    intros pre v d post H. split_trace H pre. }
  destruct (FindComponents monorepoProcessor (fs s) repoPath cfg)
    as [components [e|]]; simpl; [exact Hfirst|].
  apply forEach_invariant; [|exact Hfirst].
  intros component s' (cs & Hcalls & Hfs & Hcs).
  destruct (tagBody_trace monorepoProcessor component s')
    as (s'' & cs' & -> & Hcalls' & Hfs' & Hcs').
  exists (cs ++ cs'). split; [by rewrite Hcalls', Hcalls, app_assoc|].
  split; [by rewrite Hfs', Hfs, treeAfter_app|].
  intros pre v d post Hsplit.
  apply app_eq_app in Hsplit as [l [[-> Hl]|[-> Hl]]].
  - destruct l as [|c l].
    + simpl in Hl. destruct (Hcs' [] v d post (eq_sym Hl)) as (before & Hnil & _).
      by destruct before.
    + injection Hl as <- ->. exact (Hcs pre v d l eq_refl).
  - destruct (Hcs' l v d post Hl) as (before & -> & Hwritten & Hrel).
    exists (cs ++ before), component. split; [by rewrite app_assoc|].
    split; [|exact Hrel]. by rewrite treeAfter_app, <- Hfs.
Qed.

(** A loop whose body returns on every component returns. *)
Lemma forEach_returns (body : MonorepoComponent -> M G (option error)) :
  forall components,
    Forall (fun c => forall s, exists r s', body c s = Done r s') components ->
    forall s, exists r s', forEach body components s = Done r s'.
Proof.
  induction components as [|c rest IH]; intros Hall s.
  - by eexists _, _.
  - apply Forall_cons in Hall as [Hc Hrest]. simpl. run.
    destruct (Hc s) as (r & s' & ->). destruct r as [e|]; [by eexists _, _|].
    by apply IH.
Qed.

Lemma tagBody_returns component (s : State G) :
  CurrentVersion component ≠ None ->
  (forall v commits, fst (SemverNextVersion semverProcessor (Some v) commits) ≠ None) ->
  exists r s',
    tagBody git semverProcessor MonorepoProcessorImpl cfg repoPath component s
    = Done r s'.
Proof.
  intros Hcur Hnext. unfold tagBody, componentCommits.
  destruct (CurrentVersion component) as [cur|] eqn:Hc; [|congruence].
  destruct (filepath_Rel repoPath (RootPath component)) as [relDir|e] eqn:Hrel;
    [|by eexists _, _].
  run. simpl.
  destruct (Log git (repo s) _) as [commits [e|]]; simpl; [by eexists _, _|].
  unfold Impl_NextVersion. rewrite Hc. specialize (Hnext cur commits).
  destruct (SemverNextVersion semverProcessor (Some cur) commits) as [nextVer updated].
  destruct updated; simpl; [|by eexists _, _].
  destruct nextVer as [next|]; [|by destruct Hnext]. simpl.
  destruct (Impl_UpdateVersion (fs s) component next cfg) as [fs' [e|]]; simpl;
    [by eexists _, _|].
  destruct (TagForComponent git (repo s) next relDir) as [g' [name [e|]]]; simpl;
    by eexists _, _.
Qed.

(** X16. The tag flow dereferences no nil version on discovered
    components: with the discovery of [MonorepoProcessorImpl], which finds
    no component without a current version, and a resolver that answers a
    version whenever its base is one, [monorepoTagHandler] returns from every
    state. *)
Theorem tag_handler_returns (s : State G) :
  (forall v commits, fst (SemverNextVersion semverProcessor (Some v) commits) ≠ None) ->
  exists r s',
    monorepoTagHandler git semverProcessor MonorepoProcessorImpl cfg repoPath s
    = Done r s'.
Proof.
  intros Hnext. unfold monorepoTagHandler. run.
  change (FindComponents MonorepoProcessorImpl (fs s) repoPath cfg)
    with (Impl_FindComponents (fs s) repoPath cfg).
  destruct (Impl_FindComponents (fs s) repoPath cfg) as [components [e|]] eqn:Hfind;
    simpl; [by eexists _, _|].
  apply forEach_returns.
  unfold Impl_FindComponents in Hfind.
  destruct (String.eqb (VersioningFile cfg) ""); [discriminate|].
  destruct (filepath_Glob _ _) as [matches [e|]]; [discriminate|].
  destruct matches as [|m rest]; [discriminate|].
  apply findLoop_success in Hfind as (found & -> & Hall). simpl.
  clear -Hall Hnext. induction Hall as [|m0 c ms cs (v & _ & ->) _ IH]; constructor.
  - intros s'. by apply tagBody_returns.
  - exact IH.
Qed.

End HandlerMore.

Module HandlerWitnesses.
Import Scenario.

(** The first run of the scenario writes 1.0.1 for alpha; the preview
    prints it. *)
Lemma preview_matches_bump_witness :
  exists s',
    nextVersionBody (P := Fake.platform) Fake.git (specSemVerProcessor classify)
      cfg repoPath (alpha (version 1 0 0 "1.0.0")) (start tree) = Done None s'
    /\ out s' = out (start tree) ++ [MsgNextVersion "alpha" (version 1 0 1 "1.0.1")].
Proof.
  apply (preview_matches_bump (P := Fake.platform) Fake.git (specSemVerProcessor classify)
           (MonorepoProcessorImpl (P := Fake.platform)) cfg repoPath
           (alpha (version 1 0 0 "1.0.0")) (start tree) (version 1 0 1 "1.0.1")).
  vm_compute. reflexivity.
Defined.

(** The tag flow with a resolver that always reports a change: the tag of
    alpha at 1.0.0 comes right after the write of 1.0.0, which succeeded. *)
Lemma tag_handler_tags_what_it_wrote_witness :
  exists before component,
    [CallFindComponents repoPath cfg; CallLastComponentTag "alpha";
     CallLog (tagRange "" "alpha");
     CallUpdateVersion (alpha (version 1 0 0 "1.0.0")) (version 1 0 0 "1.0.0")]
    = before ++ [CallUpdateVersion component (version 1 0 0 "1.0.0")]
    /\ snd (UpdateVersion (MonorepoProcessorImpl (P := Fake.platform))
              (treeAfter (MonorepoProcessorImpl (P := Fake.platform)) cfg
                 (fs (start tree)) before)
              component (version 1 0 0 "1.0.0") cfg) = None
    /\ filepath_Rel (Platform := Fake.platform) repoPath (RootPath component) = Ok "alpha".
Proof.
  apply (tag_handler_tags_what_it_wrote (P := Fake.platform) Fake.git sameVersionProcessor
           (MonorepoProcessorImpl (P := Fake.platform)) cfg repoPath (start tree)
           [CallFindComponents repoPath cfg; CallLastComponentTag "alpha";
            CallLog (tagRange "" "alpha");
            CallUpdateVersion (alpha (version 1 0 0 "1.0.0")) (version 1 0 0 "1.0.0")]
           [] (version 1 0 0 "1.0.0") "alpha").
  vm_compute. reflexivity.
Defined.

Lemma tag_handler_returns_witness :
  exists r s',
    monorepoTagHandler (P := Fake.platform) Fake.git (specSemVerProcessor classify)
      (MonorepoProcessorImpl (P := Fake.platform)) cfg repoPath (start tree)
    = Done r s'.
Proof.
  apply (tag_handler_returns (P := Fake.platform) Fake.git (specSemVerProcessor classify)
           cfg repoPath (start tree)).
  intros v commits. unfold specSemVerProcessor, resolveBump. simpl.
  destruct (highest classify commits); discriminate.
Defined.

End HandlerWitnesses.

(** ** Looking a tag up *)

Module TagListFacts.
Import TagList.

Lemma findFrom_cases tag : forall tags i,
  (findFrom i tag tags = (-1)%Z /\ Forall (fun t => Name t ≠ tag) tags)
  \/ exists before t after,
       tags = before ++ t :: after
       /\ findFrom i tag tags = (i + Z.of_nat (length before))%Z
       /\ Name t = tag
       /\ Forall (fun t => Name t ≠ tag) before.
Proof.
  induction tags as [|t rest IH]; intros i.
  - left. by split.
  - simpl. destruct (String.eqb tag (Name t)) eqn:Ht.
    + apply String.eqb_eq in Ht. right. exists [], t, rest. simpl.
      repeat split; [lia | done | constructor].
    + apply String.eqb_neq in Ht.
      destruct (IH (i + 1)%Z) as [[Hfind Hall]|(before & t' & after & -> & Hfind & Hn & Hall)].
      * left. split; [exact Hfind|]. constructor; [congruence | exact Hall].
      * right. exists (t :: before), t', after. simpl.
        repeat split; [lia | exact Hn | constructor; [congruence | exact Hall]].
Qed.

(** X17. [find] answers the first match: either no tag of the list has the
    name and the answer is -1, or the list splits at a tag of that name
    with no tag of that name before it and the answer is the position of
    that tag. *)
Theorem find_first_match (tag : string) (tags : list GitTag) :
  (find tag tags = (-1)%Z /\ Forall (fun t => Name t ≠ tag) tags)
  \/ exists before t after,
       tags = before ++ t :: after
       /\ find tag tags = Z.of_nat (length before)
       /\ Name t = tag
       /\ Forall (fun t => Name t ≠ tag) before.
Proof. exact (findFrom_cases tag tags 0). Qed.

Lemma at_app_length before (t : GitTag) after :
  at_ (before ++ t :: after) (Z.of_nat (length before)) = Some t.
Proof.
  unfold at_. destruct (Z.ltb_spec (Z.of_nat (length before)) 0); [lia|].
  rewrite Nat2Z.id. by apply list_lookup_middle.
Qed.

Lemma at_previous before (t : GitTag) after :
  before ≠ [] ->
  option_map Name (at_ (before ++ t :: after) (Z.of_nat (length before) - 1))
  = Some (lastName before).
Proof.
  intros Hne. destruct (exists_last Hne) as (front & p & ->).
  unfold lastName. rewrite last_snoc. rewrite length_app. simpl.
  unfold at_. destruct (Z.ltb_spec (Z.of_nat (length front + 1) - 1) 0); [lia|].
  replace (Z.to_nat (Z.of_nat (length front + 1) - 1)) with (length front) by lia.
  rewrite <- app_assoc. simpl. by rewrite list_lookup_middle.
Qed.

(** X18. [getTags] answers the tag and the one listed before it: it never
    indexes out of range; the error of [git.Tags] is returned as it is; a
    name that no listed tag has is reported as not found; otherwise the
    answer is the first tag of that name and the name of the tag listed
    just before it, the empty string when it is the first of the list. *)
Theorem getTags_previous_and_current {G} (git : TagLister G) (r : G) (tag : string) :
  match Tags git r with
  | (_, Some e) => getTags git r tag = Some ("", zeroTag, Some (ErrTags e))
  | (tags, None) =>
      (Forall (fun t => Name t ≠ tag) tags
       /\ getTags git r tag = Some ("", zeroTag, Some (ErrTagNotFound tag)))
      \/ exists before t after,
           tags = before ++ t :: after
           /\ Name t = tag
           /\ Forall (fun t => Name t ≠ tag) before
           /\ getTags git r tag = Some (lastName before, t, None)
  end.
Proof.
  unfold getTags. destruct (Tags git r) as [tags [e|]]; [reflexivity|].
  unfold find.
  destruct (findFrom_cases tag tags 0)
    as [[Hfind Hall]|(before & t & after & -> & Hfind & Hn & Hall)].
  - left. split; [exact Hall|]. by rewrite Hfind.
  - right. exists before, t, after. repeat split; try assumption.
    rewrite Hfind. simpl.
    destruct (Z.ltb_spec (Z.of_nat (length before)) 0); [lia|].
    rewrite at_app_length.
    destruct before as [|b before'].
    + reflexivity.
    + destruct (Z.gtb_spec (Z.of_nat (length (b :: before'))) 0); [|simpl in *; lia].
      by rewrite at_previous.
Qed.

End TagListFacts.

(** ** The changelog of a component: the ranges of its tags *)

Section ChangelogFacts.
Context {G : Type} {P : Platform} {ReleaseNote : Type}.
Variable git : Git G.
Variable IsValidVersion : string -> bool.
Variable rn_Create : option Version -> string -> Z -> list GitCommitLog -> ReleaseNote.
Variable all : bool.
Variable size : Z.
Variable semanticVersionOnly : bool.
Variable relDir : string.
Variable componentTags : list TagList.GitTag.

Lemma tagLoop_ranges : forall rest i releaseNotes (s : State G),
  drop i componentTags = rest ->
  exists r cs,
    tagLoop git IsValidVersion rn_Create all size semanticVersionOnly relDir
      componentTags i rest releaseNotes s = Done r (recorded cs s)
    /\ Forall (listedRange IsValidVersion all size semanticVersionOnly relDir
                 componentTags) cs
    /\ (snd r = None -> length (fst r) = length releaseNotes + length cs)
    /\ (all = false -> (Z.of_nat (length cs) <= Z.max 0 (size - Z.of_nat i))%Z).
Proof.
  assert (Hnil : forall (r : list ReleaseNote * option TagLoopError) (s : State G),
             Done r s = Done r (recorded [] s)).
  { intros r s. unfold recorded. destruct s; simpl. by rewrite app_nil_r. }
  induction rest as [|tag rest' IH]; intros i releaseNotes s Hdrop.
  - exists (releaseNotes, None), []. simpl. unfold mret, M_ret, ret.
    split; [apply Hnil|]. split; [constructor|]. split; [simpl; lia | lia].
  - assert (Htag : componentTags !! i = Some tag).
    { rewrite <- (Nat.add_0_r i), <- lookup_drop, Hdrop. reflexivity. }
    assert (Hrest : drop (S i) componentTags = rest').
    { replace (S i) with (i + 1) by lia. by rewrite <- drop_drop, Hdrop. }
    simpl.
    destruct (negb all && (size <=? Z.of_nat i)%Z) eqn:Hbreak.
    { exists (releaseNotes, None), []. unfold mret, M_ret, ret.
      split; [apply Hnil|]. split; [constructor|]. split; [simpl; lia | simpl; lia]. }
    destruct (semanticVersionOnly
              && negb (IsValidVersion (filepath_Base (TagList.Name tag)))) eqn:Hskip.
    { destruct (IH (S i) releaseNotes s Hrest) as (r & cs & Hrun & Hall & Hlen & Hsize).
      exists r, cs. split; [exact Hrun|]. split; [exact Hall|]. split; [exact Hlen|].
      intros Hnot. specialize (Hsize Hnot). lia. }
    unfold mbind at 1. unfold M_bind at 1. unfold bind at 1.
    unfold git_Log, gitRead.
    assert (Hlisted : listedRange IsValidVersion all size semanticVersionOnly relDir
                        componentTags (CallLog (tagLogRange relDir componentTags i tag))).
    { exists i, tag. split; [exact Htag|]. split; [reflexivity|]. split.
      - intros ->. simpl in Hbreak. by apply Z.leb_gt in Hbreak.
      - intros ->. simpl in Hskip. by apply negb_false_iff in Hskip. }
    destruct (Log git (repo s) (tagLogRange relDir componentTags i tag))
      as [commits [e|]].
    + eexists _, [_]. unfold mret, M_ret, ret. split; [reflexivity|].
      split; [by constructor|]. split; [discriminate|].
      intros ->. simpl in Hbreak. apply Z.leb_gt in Hbreak. simpl. lia.
    + set (s1 := record (CallLog (tagLogRange relDir componentTags i tag)) s).
      destruct (IH (S i)
                  (releaseNotes
                   ++ [rn_Create (versionOrNil (ToVersion (filepath_Base (TagList.Name tag))))
                         (TagList.Name tag) (TagList.Date tag) commits]) s1 Hrest)
        as (r & cs & Hrun & Hall & Hlen & Hsize).
      exists r, (CallLog (tagLogRange relDir componentTags i tag) :: cs).
      split.
      { rewrite Hrun. unfold recorded, s1, record. simpl. by rewrite <- app_assoc. }
      split; [by constructor|]. split.
      * intros Hr. rewrite (Hlen Hr), length_app. simpl. lia.
      * intros Hnot. specialize (Hsize Hnot). subst all. simpl in Hbreak.
        apply Z.leb_gt in Hbreak. simpl length. lia.
Qed.

(** X19. The changelog of a component asks for the ranges of listed tags
    only: the loop over the component's tags returns, reads the repository
    and changes nothing; every log it asks for is the range that ends at a
    listed tag and starts at the tag listed right after it -- whether that
    one is a valid version or not -- or at the beginning when it is the
    last; without the all flag only tags at an index below the size are
    asked for, so at most size of them, and with the semantic-version-only
    flag only tags whose base name is a valid version; and when the loop
    succeeds it has added one release note for each log it asked for. *)
Theorem changelog_tag_ranges (releaseNotes : list ReleaseNote) (s : State G) :
  exists r cs,
    changelogTags git IsValidVersion rn_Create all size semanticVersionOnly relDir
      componentTags releaseNotes s
    = Done r (recorded cs s)
    /\ Forall (listedRange IsValidVersion all size semanticVersionOnly relDir
                 componentTags) cs
    /\ (snd r = None -> length (fst r) = length releaseNotes + length cs)
    /\ (all = false -> (Z.of_nat (length cs) <= Z.max 0 size)%Z).
Proof.
  destruct (tagLoop_ranges componentTags 0 releaseNotes s eq_refl)
    as (r & cs & Hrun & Hall & Hlen & Hsize).
  exists r, cs. split; [exact Hrun|]. split; [exact Hall|]. split; [exact Hlen|].
  intros Hnot. specialize (Hsize Hnot). lia.
Qed.

End ChangelogFacts.

(** ** A write fails where a read fails *)

Module NavigatorErrors.
Import NavigatorFacts.

Lemma setByPath_error_of_get segments : forall data value,
  snd (setByPath data segments value)
  = match getByPath data segments with
    | Ok _ => None
    | Err e => Some e
    end.
Proof.
  induction segments as [|s0 rest IH]; intros data value; [reflexivity|].
  destruct rest as [|s1 rest].
  - simpl. by destruct (data !! s0).
  - rewrite getByPath_cons, setByPath_cons by discriminate.
    destruct (data !! s0) as [[| | | | |nested]|]; try reflexivity.
    specialize (IH nested value).
    destruct (setByPath nested (s1 :: rest) value) as [nested' err]. exact IH.
Qed.

(** X20. [setByPath] fails exactly where [getByPath] fails, with the same
    error: on any tree and any segments, the error of a set is the error of
    the get on the same segments, and the set succeeds when the get finds a
    value, whatever the value is. *)
Theorem setByPath_fails_as_getByPath (data : gmap string Value)
  (segments : list string) (value : string) :
  snd (setByPath data segments value)
  = match getByPath data segments with
    | Ok _ => None
    | Err e => Some e
    end.
Proof. apply setByPath_error_of_get. Qed.

End NavigatorErrors.

Section WriteErrors.
Context {P : Platform}.

(** X21. A version write fails like a version read: when
    [writeVersionToFile] fails, either [readVersionFromFile] on the same
    file and path fails with the same error (the file cannot be read or
    decoded, the path expression is malformed, the path is not in the
    document), or the document with the version set could not be encoded,
    or the file is write-protected. *)
Theorem writeVersionToFile_fails_as_read (fs fs' : FileSystem)
  (filePath dotPath version : string) (e : error) :
  writeVersionToFile fs filePath dotPath version = (fs', Some e) ->
  readVersionFromFile fs filePath dotPath = Err e
  \/ (exists data', encoded filePath data' = Err e)
  \/ filePath ∈ readonly fs.
Proof.
  unfold writeVersionToFile, readVersionFromFile, ReadVersionFromBytes.
  destruct (os_ReadFile fs filePath) as [content|e0]; [|intros [= _ <-]; by left].
  destruct (parseFileContent filePath content) as [data|e0];
    [|intros [= _ <-]; by left].
  destruct (PathExpr.parsePath dotPath) as [segments|e0];
    [|intros [= _ <-]; by left].
  pose proof (NavigatorErrors.setByPath_error_of_get segments data version) as Hsame.
  destruct (setByPath data segments version) as [data' [e0|]]; simpl in Hsame.
  - intros [= _ <-]. left.
    destruct (getByPath data segments) as [found|e1]; [discriminate|].
    by injection Hsame as <-.
  - rewrite marshalToFile_encoded.
    destruct (encoded filePath data') as [bytes|e0] eqn:Henc.
    + unfold os_WriteFile. case_decide; [|discriminate]. intros _. by right; right.
    + intros [= _ <-]. right. left. by exists data'.
Qed.

End WriteErrors.

Module WriteWitnesses.
Import Scenario.

(** A path that is not in the document of alpha. *)
Lemma writeVersionToFile_fails_as_read_witness :
  readVersionFromFile (P := Fake.platform) tree file "release"
  = Err (ErrAtPath "release" (ErrKeyNotFound "release"))
  \/ (exists data',
        encoded (P := Fake.platform) file data'
        = Err (ErrAtPath "release" (ErrKeyNotFound "release")))
  \/ file ∈ readonly tree.
Proof.
  apply (writeVersionToFile_fails_as_read (P := Fake.platform) tree tree file "release"
           "1.0.1").
  vm_compute. reflexivity.
Defined.

End WriteWitnesses.

(** ** The commits of the tag flow and of the bump flow *)

Section FlowFacts.
Context {G : Type} {P : Platform}.
Variable git : Git G.
Variable repoPath : string.

(** X22. Outside tier 2 the bump flow and the tag flow see the same
    commits: for a component with a last component tag, or with neither a
    tag nor a last commit of its versioning document, the baseline resolver
    and [componentCommits], run in the same state, answer the same commits
    and the same error; with a tag they make the same calls and the base is
    the version of the tag's base name, without one the base is the
    component's current version.  Only the range that starts at the last
    commit of the versioning document is particular to the bump flow. *)
Theorem flows_agree_outside_tier2 (component : MonorepoComponent) (dotPath : string)
  (s : State G) (relDir : string) :
  filepath_Rel repoPath (RootPath component) = Ok relDir ->
  (LastComponentTag git (repo s) relDir ≠ ""
   \/ forall relFile,
        filepath_Rel repoPath (VersioningFilePath component) = Ok relFile ->
        LastFileCommit git (repo s) relFile = "") ->
  exists base commits cerr s1 s2,
    componentBaseVersionAndCommits git repoPath component dotPath s
    = Done (base, commits, cerr) s1
    /\ componentCommits git repoPath component s = Done (commits, cerr) s2
    /\ (LastComponentTag git (repo s) relDir ≠ "" ->
        s1 = s2
        /\ base = versionOrNil
                    (ToVersion (filepath_Base (LastComponentTag git (repo s) relDir))))
    /\ (LastComponentTag git (repo s) relDir = "" -> base = CurrentVersion component).
Proof.
  intros Hrel Hcase.
  assert (Hcommits :
            componentCommits git repoPath component s
            = let lastTag := LastComponentTag git (repo s) relDir in
              Done (Log git (repo s) (tagRange lastTag relDir))
                   (recorded [CallLastComponentTag relDir;
                              CallLog (tagRange lastTag relDir)] s)).
  { unfold componentCommits. rewrite Hrel.
    unfold mbind, M_bind, bind, git_LastComponentTag, git_Log, gitRead, record,
      recorded, tagRange.
    simpl. by rewrite <- app_assoc. }
  cbv zeta in Hcommits.
  destruct (decide (LastComponentTag git (repo s) relDir = "")) as [Htag|Htag].
  - destruct Hcase as [Hcase|Hnone]; [congruence|].
    rewrite (baseline_all_commits git repoPath component dotPath s relDir Hrel Htag Hnone).
    cbv zeta. rewrite Hcommits, Htag.
    destruct (Log git (repo s) (tagRange "" relDir)) as [commits cerr].
    eexists _, commits, cerr, _, _. split; [reflexivity|]. split; [reflexivity|].
    split; [congruence | reflexivity].
  - rewrite (baseline_tag git repoPath component dotPath s relDir Hrel Htag).
    cbv zeta. rewrite Hcommits.
    destruct (Log git (repo s) _) as [commits cerr].
    eexists _, commits, cerr, _, _. split; [reflexivity|]. split; [reflexivity|].
    split; [by split | congruence].
Qed.

End FlowFacts.

Module FlowWitnesses.
Import Scenario.

(** The component with the tag alpha/v1.1.0. *)
Lemma flows_agree_outside_tier2_witness :
  exists base commits cerr s1 s2,
    componentBaseVersionAndCommits (P := Fake.platform) Fake.git repoPath
      (alpha (version 1 0 0 "1.0.0")) "version"
      {| fs := tree; repo := tagged; calls := []; out := [] |}
    = Done (base, commits, cerr) s1
    /\ componentCommits (P := Fake.platform) Fake.git repoPath
         (alpha (version 1 0 0 "1.0.0"))
         {| fs := tree; repo := tagged; calls := []; out := [] |}
       = Done (commits, cerr) s2
    /\ (LastComponentTag Fake.git tagged "alpha" ≠ "" ->
        s1 = s2
        /\ base = versionOrNil
                    (ToVersion (Platform := Fake.platform)
                       (filepath_Base (Platform := Fake.platform)
                          (LastComponentTag Fake.git tagged "alpha"))))
    /\ (LastComponentTag Fake.git tagged "alpha" = "" ->
        base = CurrentVersion (alpha (version 1 0 0 "1.0.0"))).
Proof.
  apply (flows_agree_outside_tier2 (P := Fake.platform) Fake.git repoPath
           (alpha (version 1 0 0 "1.0.0")) "version"
           {| fs := tree; repo := tagged; calls := []; out := [] |} "alpha").
  - reflexivity.
  - left. vm_compute. discriminate.
Defined.

End FlowWitnesses.
